(** * Cenotium LLMCompiler core: plan parser and task fetching unit

    A shallow embedding of [src/cenotium/compiler/output_parser.py],
    [src/cenotium/compiler/task_fetching.py] and the nodes and edges of
    the graph of [src/cenotium/compiler/llm_compiler.py], followed by
    the properties of the plan parser, the dependency resolver, the
    executor, the scheduler and the graph.

    Modelling conventions.
    - Python [str] is [list ascii]: a sequence of code points below 256.
      The character classes of [re] ([\d], [\w], [\s]), [str.strip] and
      [repr] are the Unicode ones restricted to that range.
    - Python [int] is [Z]; a [dict] keyed by task id is a [gmap Z _]; a
      [dict] whose order is observable (tool arguments) is an association
      list updated in place.
    - A call that can raise returns a [Result]; a generator returns the
      list of what it yields together with the exception that ends it,
      if any.
    - The thread pool of [schedule_tasks] is a labelled transition system:
      one step of one thread per transition, under every interleaving. *)

From stdpp Require Import gmap list sorting.
From Stdlib Require Import Ascii ZArith DecimalZ.

Set Warnings "-register-all".

Abbreviation text := (list ascii).

Definition text_of_bytes (bs : list Byte.byte) : text := map ascii_of_byte bs.
Definition bytes_of_text (t : text) : list Byte.byte := map byte_of_ascii t.

Declare Scope text_scope.
Delimit Scope text_scope with text.
String Notation text text_of_bytes bytes_of_text : text_scope.
Open Scope text_scope.

(** ** Python built-ins used by the two modules *)

Module Py.

(** What a call produces: a value, or a raised exception. *)
Inductive Result (E A : Type) : Type :=
| Ok (a : A)
| Raise (e : E).
Arguments Ok {E A} a.
Arguments Raise {E A} e.

Definition code (c : ascii) : N := N_of_ascii c.

Definition chr_nl : ascii := "010"%char.
Definition chr_tab : ascii := "009"%char.
Definition chr_cr : ascii := "013"%char.
Definition chr_squote : ascii := "039"%char.
Definition chr_dquote : ascii := "034"%char.
Definition chr_backslash : ascii := "092"%char.

(** The text of one newline. *)
Definition NL : text := [chr_nl].

Definition in_range (lo hi : N) (c : ascii) : bool :=
  ((lo <=? code c) && (code c <=? hi))%N.

Definition is_nl (c : ascii) : bool := bool_decide (c = chr_nl).

(** [\d]: decimal digits; below 256 these are [0-9]. *)
Definition is_digit (c : ascii) : bool := in_range 48 57 c.

(** [\w]: alphanumeric code points and the underscore. Below 256 the
    alphanumerics are the ASCII ones and the Latin-1 letters, digits
    and fractions. *)
Definition is_word (c : ascii) : bool :=
  is_digit c || in_range 65 90 c || in_range 97 122 c
  || bool_decide (c = "_"%char)
  || bool_decide (code c = 170%N) || in_range 178 179 c
  || bool_decide (code c = 181%N) || in_range 185 186 c
  || in_range 188 190 c || in_range 192 214 c
  || in_range 216 246 c || in_range 248 255 c.

(** [\s] and [str.isspace]. *)
Definition is_space (c : ascii) : bool :=
  in_range 9 13 c || in_range 28 32 c
  || bool_decide (code c = 133%N) || bool_decide (code c = 160%N).

(** [str.isprintable] on one code point. *)
Definition is_printable (c : ascii) : bool :=
  in_range 32 126 c
  || (in_range 161 255 c && negb (bool_decide (code c = 173%N))).

Fixpoint take_while {A} (p : A → bool) (l : list A) : list A :=
  match l with
  | [] => []
  | x :: r => if p x then x :: take_while p r else []
  end.

Fixpoint drop_while {A} (p : A → bool) (l : list A) : list A :=
  match l with
  | [] => []
  | x :: r => if p x then drop_while p r else l
  end.

(** [sep.join(parts)] *)
Fixpoint join (sep : text) (parts : list text) : text :=
  match parts with
  | [] => []
  | [p] => p
  | p :: ps => p ++ sep ++ join sep ps
  end.

(** [s.split("\n")] *)
Fixpoint split_nl (s : text) : list text :=
  match s with
  | [] => [[]]
  | c :: r =>
      if is_nl c then [] :: split_nl r
      else match split_nl r with
           | h :: t => (c :: h) :: t
           | [] => [[c]]
           end
  end.

(** [lst[-1]] and [lst[:-1]], for a list that is not empty. *)
Definition last_item (d : text) (l : list text) : text := List.last l d.
Definition but_last (l : list text) : list text := removelast l.

Fixpoint starts_with (p s : text) : bool :=
  match p, s with
  | [], _ => true
  | a :: p', b :: s' => bool_decide (a = b) && starts_with p' s'
  | _ :: _, [] => false
  end.

(** [s.find(sub)]: the lowest index where [sub] occurs, [None] for -1. *)
Fixpoint find (sub s : text) : option nat :=
  if starts_with sub s then Some 0
  else match s with
       | [] => None
       | _ :: r => S <$> find sub r
       end.

(** [s[i:j]] for [0 <= i], [0 <= j]. *)
Definition slice (i j : nat) (s : text) : text := take (j - i) (drop i s).

(** [s.strip()], [s.rstrip(chars)] *)
Definition rstrip_by (p : ascii → bool) (s : text) : text :=
  reverse (drop_while p (reverse s)).
Definition strip (s : text) : text := rstrip_by is_space (drop_while is_space s).
Definition rstrip_char (c : ascii) (s : text) : text :=
  rstrip_by (λ x, bool_decide (x = c)) s.

(** [int(s)] for a string of decimal digits. *)
Definition digit_val (c : ascii) : Z := Z.of_N (code c) - 48.
Definition int_of_digits (s : text) : Z :=
  foldl (λ acc c, 10 * acc + digit_val c)%Z 0%Z s.

(** [str(n)] for an [int]. *)
Fixpoint text_of_uint (d : Decimal.uint) : text :=
  match d with
  | Decimal.Nil => []
  | Decimal.D0 r => "0"%char :: text_of_uint r
  | Decimal.D1 r => "1"%char :: text_of_uint r
  | Decimal.D2 r => "2"%char :: text_of_uint r
  | Decimal.D3 r => "3"%char :: text_of_uint r
  | Decimal.D4 r => "4"%char :: text_of_uint r
  | Decimal.D5 r => "5"%char :: text_of_uint r
  | Decimal.D6 r => "6"%char :: text_of_uint r
  | Decimal.D7 r => "7"%char :: text_of_uint r
  | Decimal.D8 r => "8"%char :: text_of_uint r
  | Decimal.D9 r => "9"%char :: text_of_uint r
  end.
Definition str_int (z : Z) : text :=
  match Z.to_int z with
  | Decimal.Pos d => text_of_uint d
  | Decimal.Neg d => "-"%char :: text_of_uint d
  end.

(** Two lower-case hexadecimal digits, as [repr] writes an escape. *)
Definition hex_digit (n : N) : ascii :=
  nth (N.to_nat n) "0123456789abcdef" "0"%char.
Definition hex2 (c : ascii) : text :=
  [hex_digit (code c / 16)%N; hex_digit (code c mod 16)%N].

(** The body of [repr(s)] for one character, given the chosen quote. *)
Definition repr_char (quote c : ascii) : text :=
  if bool_decide (c = quote) || bool_decide (c = chr_backslash)
  then [chr_backslash; c]
  else if bool_decide (c = chr_tab) then [chr_backslash; "t"%char]
  else if bool_decide (c = chr_nl) then [chr_backslash; "n"%char]
  else if bool_decide (c = chr_cr) then [chr_backslash; "r"%char]
  else if is_printable c then [c]
  else chr_backslash :: "x"%char :: hex2 c.

(** [repr(s)] for a [str]: double quotes only when the string has a
    single quote and no double quote. *)
Definition repr_quote (s : text) : ascii :=
  if bool_decide (chr_squote ∈ s) && negb (bool_decide (chr_dquote ∈ s))
  then chr_dquote else chr_squote.
Definition repr_str (s : text) : text :=
  let q := repr_quote s in
  q :: (s ≫= repr_char q) ++ [q].

End Py.

Import Py.

(** ** Values

    The argument and observation values of the data model: string,
    integer, boolean, null, list and mapping. *)

Inductive Value : Type :=
| VStr (s : text)
| VInt (z : Z)
| VBool (b : bool)
| VNone
| VList (items : list Value)
| VDict (entries : list (Value * Value)).

(** [repr(v)] *)
Fixpoint py_repr (v : Value) : text :=
  match v with
  | VStr s => repr_str s
  | VInt z => str_int z
  | VBool true => "True"
  | VBool false => "False"
  | VNone => "None"
  | VList items => "[" ++ join ", " (map py_repr items) ++ "]"
  | VDict entries =>
      "{" ++ join ", " (map (λ kv, py_repr kv.1 ++ ": " ++ py_repr kv.2) entries)
          ++ "}"
  end.

(** [str(v)]: a string is itself, everything else is its [repr]. *)
Definition py_str (v : Value) : text :=
  match v with
  | VStr s => s
  | _ => py_repr v
  end.

(** An ordered [dict] with [str] keys: [d[k] = v] replaces in place or
    appends. *)
Abbreviation Dict := (list (text * Value)).

Fixpoint dict_set (d : Dict) (k : text) (v : Value) : Dict :=
  match d with
  | [] => [(k, v)]
  | (k', v') :: r =>
      if bool_decide (k' = k) then (k, v) :: r else (k', v') :: dict_set r k v
  end.

Definition dict_values (d : Dict) : list Value := map snd d.

(** ** The three patterns *)

Module Re.

(** [ID_PATTERN] tried at the start of [s]: a dollar sign, an optional
    opening brace, group 1 of one or more digits, an optional closing
    brace. Returns group 1 and the length of the match. *)
Definition match_id (s : text) : option (text * nat) :=
  match s with
  | c :: r =>
      if bool_decide (c = "$"%char) then
        let '(lbrace, r1) :=
          match r with
          | b :: r' => if bool_decide (b = "{"%char) then (1, r') else (0, r)
          | [] => (0, r)
          end in
        let ds := take_while is_digit r1 in
        match ds with
        | [] => None
        | _ :: _ =>
            let rbrace :=
              match drop (length ds) r1 with
              | b :: _ => if bool_decide (b = "}"%char) then 1 else 0
              | [] => 0
              end in
            Some (ds, 1 + lbrace + length ds + rbrace)
        end
      else None
  | [] => None
  end.

(** A left-to-right scan for the non-overlapping matches of
    [ID_PATTERN], as [re.finditer] makes it: a character outside every
    match, or a match with its text and its group 1. [skip] counts the
    characters still covered by the match found last. *)
Inductive Seg : Type :=
| Lit (c : ascii)
| Hit (whole : text) (group1 : text).

Fixpoint scan_ids (skip : nat) (s : text) : list Seg :=
  match s with
  | [] => []
  | c :: r =>
      match skip with
      | S k => scan_ids k r
      | O =>
          match match_id s with
          | Some (g, len) => Hit (take len s) g :: scan_ids (len - 1) r
          | None => Lit c :: scan_ids 0 r
          end
      end
  end.

(** [re.findall(ID_PATTERN, s)]: group 1 of every match. *)
Definition findall_ids (s : text) : list text :=
  omap (λ seg, match seg with Hit _ g => Some g | Lit _ => None end)
       (scan_ids 0 s).

(** [re.sub(ID_PATTERN, repl, s)] for a function [repl] of the match. *)
Definition sub_ids (repl : text → text → text) (s : text) : text :=
  scan_ids 0 s ≫= λ seg,
    match seg with
    | Lit c => [c]
    | Hit whole g => repl whole g
    end.

(** [re.match(THOUGHT_PATTERN, line)]: the literal prefix "Thought: "
    and, as group 1, every character up to the first newline. *)
Definition match_thought (line : text) : option text :=
  if starts_with "Thought: " line
  then Some (take_while (λ c, negb (is_nl c)) (drop 9 line))
  else None.

(** The index of the last closing parenthesis of [s]. *)
Fixpoint last_rparen (s : text) : option nat :=
  match s with
  | [] => None
  | c :: r =>
      match last_rparen r with
      | Some i => Some (S i)
      | None => if bool_decide (c = ")"%char) then Some 0 else None
      end
  end.

(** [re.match(ACTION_PATTERN, line)], groups 1 to 3. The pattern is:
    any newlines; group 1, one or more digits; a dot and a space;
    group 2, one or more word characters; an opening parenthesis;
    group 3, greedy, any characters but newline; a closing parenthesis;
    optionally group 4, a trailing comment token ended by a newline.
    Group 3 is greedy, so it runs to the last closing parenthesis before
    the first newline that follows the opening one; group 4 is optional
    and last, so it changes neither whether the line matches nor
    groups 1 to 3. *)
Definition match_action (line : text) : option (text * text * text) :=
  let s0 := drop_while is_nl line in
  let ds := take_while is_digit s0 in
  match ds with
  | [] => None
  | _ :: _ =>
      match drop (length ds) s0 with
      | c1 :: c2 :: s1 =>
          if bool_decide (c1 = "."%char) && bool_decide (c2 = " "%char) then
            let w := take_while is_word s1 in
            match w with
            | [] => None
            | _ :: _ =>
                match drop (length w) s1 with
                | c3 :: s2 =>
                    if bool_decide (c3 = "("%char) then
                      let run := take_while (λ c, negb (is_nl c)) s2 in
                      (λ i, (ds, w, take i run)) <$> last_rparen run
                    else None
                | [] => None
                end
            end
          else None
      | _ => None
      end
  end.

End Re.

(** ** Tools, tasks and exceptions *)

(** A capability ([BaseTool]): its name, the parameter names of its schema
    in declared order ([tool.args.keys()]) and [invoke], which returns a
    value or raises an [Exception] given here by its [repr]. *)
Record BaseTool : Type := {
  name : text;
  arg_keys : list text;
  invoke : Dict → Result text Value;
}.

(** [Union[BaseTool, str]] *)
Inductive ToolRef : Type :=
| ToolStr (s : text)
| ToolObj (t : BaseTool).

Record Task : Type := {
  idx : Z;
  tool : ToolRef;
  args : Dict;
  dependencies : list Z;
  thought : option text;
}.

Inductive Exn : Type :=
| OutputParserException (msg : text)
| KeyError (key : Z).

(** ** output_parser.py *)

Module OutputParser.

Section Parser.

(** [ast.literal_eval], from the Python standard library: [None] when
    it raises. *)
Variable literal_eval : text → option Value.

Definition _ast_parse (arg : text) : Value :=
  match literal_eval arg with
  | Some v => v
  | None => VStr arg
  end.

(** The loop state of [_parse_llm_compiler_action_args]. [tool_key]
    and [prev_idx] are assigned together, so they share one option. *)
Record ArgScan : Type := {
  scan_args : text;
  extracted_args : Dict;
  key_and_prev_idx : option (text * nat);
}.

(** One iteration of [for key in tool.args.keys()]. *)
Definition arg_scan_step (st : ArgScan) (key : text) : ArgScan :=
  let pat := key ++ "=" in
  match find pat (scan_args st) with
  | Some i =>
      {| scan_args := drop (i + length pat) (scan_args st);
         extracted_args :=
           match key_and_prev_idx st with
           | Some (tool_key, prev_idx) =>
               dict_set (extracted_args st) tool_key
                 (_ast_parse
                    (rstrip_char ","
                       (strip (slice prev_idx i (scan_args st)))))
           | None => extracted_args st
           end;
         key_and_prev_idx := Some (key, 0) |}
  | None => st
  end.

Definition _parse_llm_compiler_action_args
    (args : text) (tool : ToolRef) : Dict :=
  match args with
  | [] => []
  | _ :: _ =>
      match tool with
      | ToolObj t =>
          let st :=
            foldl arg_scan_step
              {| scan_args := args; extracted_args := [];
                 key_and_prev_idx := None |}
              (arg_keys t) in
          match key_and_prev_idx st with
          | Some (tool_key, prev_idx) =>
              dict_set (extracted_args st) tool_key
                (_ast_parse
                   (rstrip_char ")"
                      (rstrip_char ","
                         (strip (drop prev_idx (scan_args st))))))
          | None => extracted_args st
          end
      | ToolStr _ => []
      end
  end.

(** The inner [extract_deps]; its argument is already a [str], so the
    second [str()] it applies is the identity. *)
Definition extract_deps (arg_str : text) : list Z :=
  map int_of_digits (Re.findall_ids arg_str).

(** [list(range(1, idx))] *)
Definition range_from_1 (idx : Z) : list Z := seqZ 1 (idx - 1).

(** [sorted(list(set(deps)))] *)
Definition sorted_set (deps : list Z) : list Z :=
  merge_sort Z.le (elements (list_to_set deps : gset Z)).

Definition _get_dependencies_from_graph
    (idx : Z) (tool_name : text) (args : Dict) : list Z :=
  if bool_decide (tool_name = "join") then range_from_1 idx
  else
    sorted_set (dict_values args ≫= λ arg_value, extract_deps (py_str arg_value)).

(** [tools[[t.name for t in tools].index(tool_name)]]: the first tool
    of that name, [None] for the [ValueError]. *)
Definition lookup_tool (tools : list BaseTool) (tool_name : text)
    : option BaseTool :=
  List.find (λ t, bool_decide (name t = tool_name)) tools.

Definition instantiate_task
    (tools : list BaseTool) (idx : Z) (tool_name : text) (args : text)
    (thought : option text) : Result Exn Task :=
  let tool_or_error :=
    if bool_decide (tool_name = "join") then Ok (ToolStr "join")
    else match lookup_tool tools tool_name with
         | Some t => Ok (ToolObj t)
         | None =>
             Raise (OutputParserException
                      ("Tool " ++ tool_name ++ " not found."))
         end in
  match tool_or_error with
  | Raise e => Raise e
  | Ok tool =>
      let tool_args := _parse_llm_compiler_action_args args tool in
      let dependencies :=
        _get_dependencies_from_graph idx tool_name tool_args in
      Ok {| idx := idx; tool := tool; args := tool_args;
            dependencies := dependencies; thought := thought |}
  end.

Definition _parse_task (tools : list BaseTool)
    (line : text) (thought : option text)
    : Result Exn (option Task * option text) :=
  match Re.match_thought line with
  | Some g => Ok (None, Some g)
  | None =>
      match Re.match_action line with
      | Some (idx, tool_name, args) =>
          match instantiate_task tools (int_of_digits idx)
                  tool_name args thought with
          | Ok task => Ok (Some task, None)
          | Raise e => Raise e
          end
      | None => Ok (None, thought)
      end
  end.

(** What a generator did: the items it yielded, in order, and the
    exception that ended it, if one did. *)
Record Yielded (A : Type) : Type := {
  items : list A;
  raised : option Exn;
}.
Arguments items {A} _.
Arguments raised {A} _.

(** The loop [for line in buffer_[:-1]] of [ingest_token]: [thought]
    is the generator's local variable; a line yields only when it
    produced a task. *)
Fixpoint ingest_lines (tools : list BaseTool) (lines : list text)
    (thought : option text) : Yielded (Task * option text) :=
  match lines with
  | [] => {| items := []; raised := None |}
  | line :: rest =>
      match _parse_task tools line thought with
      | Raise e => {| items := []; raised := Some e |}
      | Ok (task, thought') =>
          let r := ingest_lines tools rest thought' in
          {| items :=
               match task with
               | Some t => (t, thought') :: items r
               | None => items r
               end;
             raised := raised r |}
      end
  end.

(** [ingest_token]: the pairs it yields and the buffer it leaves. On
    an exception the buffer keeps the appended token. *)
Definition ingest_token (tools : list BaseTool)
    (token : text) (buffer : list text) (thought : option text)
    : Yielded (Task * option text) * list text :=
  let buffer1 := buffer ++ [token] in
  if bool_decide (chr_nl ∈ token) then
    let buffer_ := split_nl (mjoin buffer1) in
    let suffix := last_item [] buffer_ in
    let r := ingest_lines tools (but_last buffer_) thought in
    match raised r with
    | Some _ => (r, buffer1)
    | None => (r, [suffix])
    end
  else ({| items := []; raised := None |}, buffer1).

(** The loop [for chunk in chunks] of [_transform] and the flush that
    follows it. [thought] is the variable of [_transform]: it is
    assigned from every pair [ingest_token] yields. *)
Fixpoint transform_chunks (tools : list BaseTool) (chunks : list text)
    (texts : list text) (thought : option text) : Yielded Task :=
  match chunks with
  | chunk :: rest =>
      let '(r, texts') := ingest_token tools chunk texts thought in
      let thought' := foldl (λ _ y, snd y) thought (items r) in
      match raised r with
      | Some e => {| items := map fst (items r); raised := Some e |}
      | None =>
          let r' := transform_chunks tools rest texts' thought' in
          {| items := map fst (items r) ++ items r';
             raised := raised r' |}
      end
  | [] =>
      match texts with
      | [] => {| items := []; raised := None |}
      | _ :: _ =>
          match _parse_task tools (mjoin texts) thought with
          | Raise e => {| items := []; raised := Some e |}
          | Ok (Some task, _) => {| items := [task]; raised := None |}
          | Ok (None, _) => {| items := []; raised := None |}
          end
      end
  end.

(** The input of [_transform]: one string, or a list of chunks. *)
Inductive Input : Type :=
| InStr (s : text)
| InList (chunks : list text).

(** [chunks = input if isinstance(input, list) else [input]] *)
Definition input_chunks (input : Input) : list text :=
  match input with
  | InList chunks => chunks
  | InStr s => [s]
  end.

Definition _transform (tools : list BaseTool) (input : Input)
    : Yielded Task :=
  transform_chunks tools (input_chunks input) [] None.

(** [parse]: [list(self._transform(text))] *)
Definition parse (tools : list BaseTool) (text_ : text)
    : Result Exn (list Task) :=
  let r := _transform tools (InStr text_) in
  match raised r with
  | Some e => Raise e
  | None => Ok (items r)
  end.

(** [stream]: [yield from self._transform(input)] *)
Definition stream (tools : list BaseTool) (input : Input) : Yielded Task :=
  _transform tools input.

End Parser.

Arguments items {A} _.
Arguments raised {A} _.

End OutputParser.

(** ** task_fetching.py *)

Module TaskFetching.

(** The messages of the conversation history. Only a [FunctionMessage]
    carries an observation; [fm_idx] is [additional_kwargs.get("idx")]. *)
Record FunctionMessage : Type := {
  fm_name : text;
  fm_content : text;
  fm_idx : option Z;
  fm_tool_call_id : text;
}.

Inductive BaseMessage : Type :=
| Function (m : FunctionMessage)
| OtherMessage (content : text).

(** The observation table, [Dict[int, Any]]. *)
Abbreviation Observations := (gmap Z Value).

Definition _get_observations (messages : list BaseMessage) : Observations :=
  foldl
    (λ results message,
       match message with
       | Function m =>
           match fm_idx m with
           | Some idx_val => <[idx_val := VStr (fm_content m)]> results
           | None => results
           end
       | OtherMessage _ => results
       end)
    ∅ (reverse messages).

(** The callback [replace_match] of [_resolve_arg]:
    [str(observations.get(idx, match.group(0)))]. *)
Definition replace_match (observations : Observations)
    (group0 group1 : text) : text :=
  match observations !! int_of_digits group1 with
  | Some v => py_str v
  | None => group0
  end.

Fixpoint _resolve_arg (arg : Value) (observations : Observations) : Value :=
  match arg with
  | VStr s => VStr (Re.sub_ids (replace_match observations) s)
  | VList items => VList (map (λ a, _resolve_arg a observations) items)
  | _ => arg
  end.

Definition resolve_args (args : Dict) (observations : Observations) : Dict :=
  map (λ kv, (kv.1, _resolve_arg kv.2 observations)) args.

(** The two handlers of [_execute_task], on the outcome of the
    resolution of the arguments: a failure of the resolution, or of
    [invoke] on the resolved arguments, becomes an error string. *)
Definition execute_resolved (tool_to_use : BaseTool)
    (resolved : Result text Dict) : Value :=
  match resolved with
  | Raise repr_e =>
      VStr ("ERROR: Failed to resolve arguments for " ++ name tool_to_use
            ++ ". " ++ repr_e)
  | Ok resolved_args =>
      match invoke tool_to_use resolved_args with
      | Ok result => result
      | Raise repr_e =>
          VStr ("ERROR: Failed to execute " ++ name tool_to_use ++ ". "
                ++ repr_e)
      end
  end.

(** [_execute_task]. On the values of the data model [_resolve_arg] is a
    total function, so the resolution always has an outcome [Ok]. *)
Definition _execute_task (task : Task) (observations : Observations) : Value :=
  match tool task with
  | ToolStr tool_to_use => VStr tool_to_use
  | ToolObj tool_to_use =>
      execute_resolved tool_to_use
        (Ok (resolve_args (args task) observations))
  end.

(** The assignment of [schedule_task] and the one of its handler, on
    the outcome of [_execute_task]. *)
Definition record_outcome (task : Task) (outcome : Result text Value)
    (observations : Observations) : Observations :=
  match outcome with
  | Ok observation => <[idx task := observation]> observations
  | Raise repr_e =>
      <[idx task := VStr ("ERROR: Task execution failed. " ++ repr_e)]>
        observations
  end.

(** [schedule_task]: [_execute_task] returns a value in every case. *)
Definition schedule_task (task : Task) (observations : Observations)
    : Observations :=
  record_outcome task (Ok (_execute_task task observations)) observations.

(** [deps and any(dep not in observations for dep in deps)] *)
Definition unmet (deps : list Z) (observations : Observations) : bool :=
  match deps with
  | [] => false
  | _ :: _ => existsb (λ dep, bool_decide (observations !! dep = None)) deps
  end.

(** [task["tool"] if isinstance(task["tool"], str) else task["tool"].name] *)
Definition tool_name (task : Task) : text :=
  match tool task with
  | ToolStr s => s
  | ToolObj t => name t
  end.

(** The closing loop of [schedule_tasks] over
    [sorted(observations.keys() - originals)]. *)
Definition new_keys (observations : Observations) (originals : gset Z)
    : list Z :=
  merge_sort Z.le (elements (dom observations ∖ originals)).

Fixpoint tool_messages_for (observations : Observations)
    (task_names : gmap Z text) (keys : list Z)
    : Result Exn (list FunctionMessage) :=
  match keys with
  | [] => Ok []
  | i :: rest =>
      match task_names !! i, observations !! i with
      | Some n, Some v =>
          match tool_messages_for observations task_names rest with
          | Ok ms =>
              Ok ({| fm_name := n; fm_content := py_str v;
                     fm_idx := Some i; fm_tool_call_id := str_int i |} :: ms)
          | Raise e => Raise e
          end
      | _, _ => Raise (KeyError i)
      end
  end.

Definition tool_messages (observations : Observations)
    (task_names : gmap Z text) (originals : gset Z)
    : Result Exn (list FunctionMessage) :=
  tool_messages_for observations task_names (new_keys observations originals).

(** *** The scheduling pass as a transition system

    The main thread runs the body of [schedule_tasks]; every
    [executor.submit] adds a worker that runs [schedule_pending_task].
    A transition is one step of one thread. The dependency check, the
    start of the execution (argument resolution and [invoke], on the
    table as it is then) and the assignment to the table are separate
    steps, so that other threads can run between them. *)

Inductive WorkerPc : Type :=
| WQueued                      (* submitted, not started *)
| WPolling                     (* at the head of [while True] *)
| WReady                       (* check passed, about to call [schedule_task] *)
| WExecuted (observation : Value)  (* [_execute_task] returned *)
| WDone.

Inductive MainPc : Type :=
| MLoop                        (* at the head of [for task in tasks_iter] *)
| MReady (task : Task)         (* check passed, about to call [schedule_task] *)
| MExecuted (task : Task) (observation : Value)
| MWait                        (* in [wait(futures)] and the pool's exit *)
| MUnwind (e : Exn)            (* [tasks_iter] raised: the pool's exit *)
| MReturned (tool_messages : list FunctionMessage)
| MRaised (e : Exn).

Record Sched : Type := {
  observations : Observations;
  task_names : gmap Z text;
  originals : gset Z;
  tasks_iter : list Task;
  tasks_iter_raises : option Exn;
  futures : list (Task * WorkerPc);
  main : MainPc;
}.

(** What a transition does that the properties speak of. *)
Inductive Event : Type :=
| Began (task : Task) (table : Observations)
| Wrote (task : Task) (table_before : Observations).

Inductive Thread : Type :=
| Main
| Worker (i : nat).

Definition all_done (fs : list (Task * WorkerPc)) : bool :=
  forallb (λ f, match f.2 with WDone => true | _ => false end) fs.

Definition set_main (s : Sched) (pc : MainPc) : Sched :=
  {| observations := observations s; task_names := task_names s;
     originals := originals s; tasks_iter := tasks_iter s;
     tasks_iter_raises := tasks_iter_raises s; futures := futures s;
     main := pc |}.

Definition set_observations (s : Sched) (o : Observations) : Sched :=
  {| observations := o; task_names := task_names s;
     originals := originals s; tasks_iter := tasks_iter s;
     tasks_iter_raises := tasks_iter_raises s; futures := futures s;
     main := main s |}.

Definition set_future (s : Sched) (i : nat) (f : Task * WorkerPc) : Sched :=
  {| observations := observations s; task_names := task_names s;
     originals := originals s; tasks_iter := tasks_iter s;
     tasks_iter_raises := tasks_iter_raises s;
     futures := <[i := f]> (futures s); main := main s |}.

Definition step_main (s : Sched) : option (list Event * Sched) :=
  match main s with
  | MLoop =>
      match tasks_iter s with
      | task :: rest =>
          let s1 :=
            {| observations := observations s;
               task_names := <[idx task := tool_name task]> (task_names s);
               originals := originals s; tasks_iter := rest;
               tasks_iter_raises := tasks_iter_raises s;
               futures :=
                 if unmet (dependencies task) (observations s)
                 then futures s ++ [(task, WQueued)] else futures s;
               main :=
                 if unmet (dependencies task) (observations s)
                 then MLoop else MReady task |} in
          Some ([], s1)
      | [] =>
          match tasks_iter_raises s with
          | Some e => Some ([], set_main s (MUnwind e))
          | None => Some ([], set_main s MWait)
          end
      end
  | MReady task =>
      Some ([Began task (observations s)],
            set_main s (MExecuted task (_execute_task task (observations s))))
  | MExecuted task observation =>
      Some ([Wrote task (observations s)],
            set_main
              (set_observations s (<[idx task := observation]> (observations s)))
              MLoop)
  | MWait =>
      if all_done (futures s) then
        match tool_messages (observations s) (task_names s) (originals s) with
        | Ok ms => Some ([], set_main s (MReturned ms))
        | Raise e => Some ([], set_main s (MRaised e))
        end
      else None
  | MUnwind e =>
      if all_done (futures s) then Some ([], set_main s (MRaised e)) else None
  | MReturned _ | MRaised _ => None
  end.

Definition step_worker (i : nat) (s : Sched) : option (list Event * Sched) :=
  match futures s !! i with
  | Some (task, pc) =>
      match pc with
      | WQueued => Some ([], set_future s i (task, WPolling))
      | WPolling =>
          if unmet (dependencies task) (observations s)
          then Some ([], s)                      (* [time.sleep(retry_after)] *)
          else Some ([], set_future s i (task, WReady))
      | WReady =>
          Some ([Began task (observations s)],
                set_future s i
                  (task, WExecuted (_execute_task task (observations s))))
      | WExecuted observation =>
          Some ([Wrote task (observations s)],
                set_future
                  (set_observations s
                     (<[idx task := observation]> (observations s)))
                  i (task, WDone))
      | WDone => None
      end
  | None => None
  end.

Definition step (th : Thread) (s : Sched) : option (list Event * Sched) :=
  match th with
  | Main => step_main s
  | Worker i => step_worker i s
  end.

(** A run under a schedule, the list of the threads that move, from a
    state and the events so far. [None] when the schedule asks a thread
    to move that cannot. *)
Fixpoint run (schedule : list Thread) (evs : list Event) (s : Sched)
    : option (list Event * Sched) :=
  match schedule with
  | [] => Some (evs, s)
  | th :: rest =>
      match step th s with
      | Some (ev, s') => run rest (evs ++ ev) s'
      | None => None
      end
  end.

(** The state in which [schedule_tasks] enters its pool. *)
Definition init (messages : list BaseMessage) (tasks : list Task)
    (raises : option Exn) : Sched :=
  {| observations := _get_observations messages;
     task_names := ∅;
     originals := dom (_get_observations messages);
     tasks_iter := tasks; tasks_iter_raises := raises;
     futures := []; main := MLoop |}.

Definition schedule_tasks_run (messages : list BaseMessage)
    (tasks : list Task) (raises : option Exn) (schedule : list Thread)
    : option (list Event * Sched) :=
  run schedule [] (init messages tasks raises).

End TaskFetching.

(** ** llm_compiler.py *)

Module LLMCompiler.

Import OutputParser TaskFetching.

(** The messages of the graph state, by the classes the module tells
    apart with [isinstance]. *)
Inductive Message : Type :=
| HumanMessage (content : text)
| AIMessage (content : text)
| SystemMessage (content : text)
| FunctionMsg (m : FunctionMessage).

(** [msg.content] *)
Definition content (msg : Message) : text :=
  match msg with
  | HumanMessage c | AIMessage c | SystemMessage c => c
  | FunctionMsg m => fm_content m
  end.

(** The message as [schedule_tasks] sees it. *)
Definition base (msg : Message) : BaseMessage :=
  match msg with
  | FunctionMsg m => Function m
  | _ => OtherMessage (content msg)
  end.

Definition is_human (msg : Message) : bool :=
  match msg with
  | HumanMessage _ => true
  | _ => false
  end.

(** [JoinOutputs] *)
Record JoinOutputs : Type := {
  jo_thought : text;
  should_replan : bool;
  feedback : option text;
  plan : option text;
}.

(** An [Optional[str]] in an f-string. *)
Definition format_optional (o : option text) : text :=
  match o with
  | Some s => s
  | None => "None"
  end.

(** [_parse_joiner_output]: the value under ["messages"]. *)
Definition _parse_joiner_output (decision : JoinOutputs) : list Message :=
  let response := [AIMessage ("Thought: " ++ jo_thought decision)] in
  if should_replan decision then
    response
    ++ [SystemMessage ("Context from last attempt: "
                       ++ format_optional (feedback decision))]
  else
    response
    ++ [AIMessage (match plan decision with
                   | Some (c :: p) => c :: p
                   | Some [] | None => "No plan provided"
                   end)].

(** The loop of [_select_recent_messages] over [reversed(messages)]. *)
Fixpoint selected (reversed : list Message) : list Message :=
  match reversed with
  | [] => []
  | msg :: rest => if is_human msg then [msg] else msg :: selected rest
  end.

(** [_select_recent_messages]: the value under ["input"]; [None] for the
    [IndexError] of [selected[-1]]. *)
Definition _select_recent_messages (messages : list Message) : option text :=
  content <$> last (selected (reverse messages)).

(** Where the conditional edge after [join] leads. *)
Inductive Route : Type :=
| END
| PlanAndSchedule.

(** [should_continue]; [None] for the [IndexError] of [messages[-1]]. *)
Definition should_continue (messages : list Message) : option Route :=
  match last messages with
  | Some (AIMessage _) => Some END
  | Some _ => Some PlanAndSchedule
  | None => None
  end.

(** The end of [run]: the content of the last message of the final
    state, the empty text when there is none. *)
Definition last_content (messages : list Message) : text :=
  match last messages with
  | Some msg => content msg
  | None => ""
  end.

Section Compiler.

Variable literal_eval : text → option Value.

(** [self.tools] *)
Variable tools : list BaseTool.

(** The first half of [plan_and_schedule]: the task stream handed to
    [schedule_tasks], as the tasks it will give and the exception it
    will end in. [next(tasks_iter)] runs the parser up to its first
    task: an exception other than [StopIteration] leaves
    [plan_and_schedule] there. The parser takes the content of each
    message as one fragment. *)
Definition planned_tasks (messages : list Message)
    : Result Exn (list Task * option Exn) :=
  let tasks_iter := stream literal_eval tools (InList (content <$> messages)) in
  match items tasks_iter with
  | first_task :: rest => Ok (first_task :: rest, raised tasks_iter)
  | [] =>
      match raised tasks_iter with
      | Some e => Raise e
      | None => Ok ([], None)
      end
  end.

(** [plan_and_schedule] under a schedule of the threads of the pass. *)
Definition plan_and_schedule (messages : list Message)
    (schedule : list Thread) : Result Exn (option (list Event * Sched)) :=
  match planned_tasks messages with
  | Raise e => Raise e
  | Ok (tasks, raises) =>
      Ok (schedule_tasks_run (base <$> messages) tasks raises schedule)
  end.

End Compiler.

End LLMCompiler.

(** * Vocabulary of the properties *)

Section Vocabulary.

Import Re OutputParser TaskFetching.

(** The text a segment of a scan stands for. *)
Definition seg_text (seg : Seg) : text :=
match seg with
| Lit c => [c]
| Hit whole _ => whole
end.

(** What [re.sub] writes for one segment under [replace_match]. *)
Definition resolve_seg (observations : Observations) (seg : Seg) : text :=
match seg with
| Lit c => [c]
| Hit whole g => replace_match observations whole g
end.

(** A task without its thought annotation. *)
Definition no_thought (t : Task) : Task :=
{| idx := idx t; tool := tool t; args := args t;
   dependencies := dependencies t; thought := None |}.

(** The tasks of a sequence of lines, each line parsed on its own with
  no pending thought, up to the first line that raises. *)
Fixpoint line_tasks (literal_eval : text → option Value)
  (tools : list BaseTool) (lines : list text) : Yielded Task :=
match lines with
| [] => {| items := []; raised := None |}
| line :: rest =>
    match _parse_task literal_eval tools line None with
    | Raise e => {| items := []; raised := Some e |}
    | Ok (task, _) =>
        {| items :=
             option_list task ++ items (line_tasks literal_eval tools rest);
           raised := raised (line_tasks literal_eval tools rest) |}
    end
end.

(** The tasks that wrote their observation, in the order of the writes. *)
Definition written (evs : list Event) : list Task :=
omap (λ ev, match ev with Wrote t _ => Some t | Began _ _ => None end) evs.

(** The task a thread holds and has not written yet. *)
Definition held_by_main (pc : MainPc) : list Task :=
match pc with
| MReady t | MExecuted t _ => [t]
| _ => []
end.

Definition held_by_worker (f : Task * WorkerPc) : list Task :=
match f.2 with
| WDone => []
| _ => [f.1]
end.

Definition in_flight (s : Sched) : list Task :=
held_by_main (main s) ++ (futures s ≫= held_by_worker).

(** [task_names] after the tasks [ts] were pulled. *)
Definition names_of (ts : list Task) : gmap Z text :=
foldl (λ names t, <[idx t := tool_name t]> names) ∅ ts.

Record Reachable (messages : list BaseMessage) (tasks : list Task)
  (raises : option Exn) (evs : list Event) (s : Sched) : Prop := {
r_originals : originals s = dom (_get_observations messages);
r_raises : tasks_iter_raises s = raises;
r_consumed :
  ∃ consumed,
    tasks = consumed ++ tasks_iter s
    ∧ task_names s = names_of consumed
    ∧ consumed ≡ₚ written evs ++ in_flight s;
r_dom :
  dom (observations s)
    = dom (_get_observations messages)
      ∪ list_to_set (idx <$> written evs);
r_began :
  ∀ t tbl d, Began t tbl ∈ evs → d ∈ dependencies t → is_Some (tbl !! d);
r_ready_main :
  ∀ t d, main s = MReady t → d ∈ dependencies t →
         is_Some (observations s !! d);
r_ready_worker :
  ∀ i t d, futures s !! i = Some (t, WReady) → d ∈ dependencies t →
           is_Some (observations s !! d);
r_wrote :
  ∀ t tbl, Wrote t tbl ∈ evs → dom tbl ⊆ dom (observations s);
r_loop_over :
  main s ≠ MLoop → held_by_main (main s) = [] → tasks_iter s = [];
r_returned :
  ∀ ms, main s = MReturned ms →
        all_done (futures s) = true
        ∧ tool_messages (observations s) (task_names s) (originals s)
          = Ok ms;
}.

Definition ready_main (s : Sched) : Prop :=
∀ t d, main s = MReady t → d ∈ dependencies t →
       is_Some (observations s !! d).

Definition ready_worker (s : Sched) : Prop :=
∀ i t d, futures s !! i = Some (t, WReady) → d ∈ dependencies t →
         is_Some (observations s !! d).

Definition consumed_ok (tasks : list Task) (evs : list Event) (s : Sched)
  : Prop :=
∃ consumed,
  tasks = consumed ++ tasks_iter s
  ∧ task_names s = names_of consumed
  ∧ consumed ≡ₚ written evs ++ in_flight s.

Definition loop_over (s : Sched) : Prop :=
main s ≠ MLoop → held_by_main (main s) = [] → tasks_iter s = [].

Definition returned_ok (s : Sched) : Prop :=
∀ ms, main s = MReturned ms →
      all_done (futures s) = true
      ∧ tool_messages (observations s) (task_names s) (originals s) = Ok ms.

(** The thread that holds the observation [v] of the task [t] and has
    not written it yet. *)
Definition holds_result (s : Sched) (t : Task) (v : Value) : Prop :=
  main s = MExecuted t v ∨ ∃ i, futures s !! i = Some (t, WExecuted v).

(** An observation held by a thread is what [_execute_task] gave on the
    table on which the execution of the task began. *)
Definition executed_ok (evs : list Event) (s : Sched) : Prop :=
  ∀ t v, holds_result s t v →
         ∃ tbl0, Began t tbl0 ∈ evs ∧ v = _execute_task t tbl0.

(** The [join] task of id [n], as the parser builds it. *)
Definition join_task (n : Z) : Task :=
{| idx := n; tool := ToolStr "join"; args := [];
   dependencies := seqZ 1 (n - 1); thought := None |}.

(** Every write so far went to a key that was absent, and what was in
  the table then is in it now. *)
Definition writes_fresh (messages : list BaseMessage)
  (evs : list Event) (s : Sched) : Prop :=
_get_observations messages ⊆ observations s
∧ ∀ t tbl, Wrote t tbl ∈ evs →
           tbl !! idx t = None ∧ tbl ⊆ observations s.

(** The table on which an execution began is part of the table now, and
    the observation of a task that wrote is what [_execute_task] gave on
    the table on which its execution began. *)
Definition values_ok (evs : list Event) (s : Sched) : Prop :=
  (∀ t tbl0, Began t tbl0 ∈ evs → tbl0 ⊆ observations s)
  ∧ ∀ t, t ∈ written evs →
         ∃ tbl0, Began t tbl0 ∈ evs
                 ∧ observations s !! idx t = Some (_execute_task t tbl0).

(** Every dependency of a task of the plan is seeded, or is the id of a
    task of the plan of a lesser id. *)
Definition plan_well_founded (seeds : Observations) (tasks : list Task) : Prop :=
  ∀ t d, t ∈ tasks → d ∈ dependencies t →
         d ∈ dom seeds ∨ ∃ t', t' ∈ tasks ∧ idx t' = d ∧ (idx t' < idx t)%Z.

(** The steps a worker still has to make. *)
Definition pc_rank (pc : WorkerPc) : nat :=
  match pc with
  | WQueued => 4
  | WPolling => 3
  | WReady => 2
  | WExecuted _ => 1
  | WDone => 0
  end.

(** The steps the main thread has to make, at most, to pull the stream to
    its end. *)
Definition main_rank (s : Sched) : nat :=
  3 * length (tasks_iter s)
  + match main s with
    | MReady _ => 2
    | MExecuted _ _ => 1
    | _ => 0
    end.

(** The main thread is in its loop. *)
Definition main_working (s : Sched) : Prop :=
  match main s with
  | MLoop | MReady _ | MExecuted _ _ => True
  | _ => False
  end.

(** A character that can neither begin nor continue a match of
  [ID_PATTERN]. *)
Definition stopper (c : ascii) : Prop :=
c ≠ "$"%char ∧ c ≠ "{"%char ∧ c ≠ "}"%char ∧ is_digit c = false.

(** The part of [match_id] after the dollar sign and the optional
  opening brace. *)
Definition digits_and_brace (r1 : text) : option (text * nat) :=
let ds := take_while is_digit r1 in
match ds with
| [] => None
| _ :: _ =>
    Some (ds, length ds
              + match drop (length ds) r1 with
                | b :: _ => if bool_decide (b = "}"%char) then 1 else 0
                | [] => 0
                end)
end.

(** The placeholders of an argument value, found by recursion on the
  value: those of a string are the matches of [ID_PATTERN] in it,
  those of a list are those of its items, those of a mapping are
  those of its keys and values, and a number, a boolean and [None]
  have none. *)
Fixpoint placeholder_ids (v : Value) : list text :=
match v with
| VStr s => findall_ids s
| VList items => flat_map placeholder_ids items
| VDict entries =>
    flat_map (λ '(k, x), placeholder_ids k ++ placeholder_ids x) entries
| VInt _ | VBool _ | VNone => []
end.

(** A registry of two tools: one answers with its argument, one always
  raises. *)
Definition search_tool : BaseTool :=
{| name := "search"; arg_keys := ["query"];
   invoke := λ d,
     match d with
     | [(_, v)] => Ok (VStr ("result:" ++ py_str v))
     | _ => Raise "TypeError('query')"
     end |}.

Definition broken_tool : BaseTool :=
{| name := "broken"; arg_keys := ["query"];
   invoke := λ _, Raise "RuntimeError('boom')" |}.

Definition search_task (i : Z) (query : text) (deps : list Z) : Task :=
{| idx := i; tool := ToolObj search_tool; args := [("query", VStr query)];
   dependencies := deps; thought := None |}.

Definition broken_task (i : Z) : Task :=
{| idx := i; tool := ToolObj broken_tool; args := [("query", VStr "a")];
   dependencies := []; thought := None |}.

(** A stream in which the task of id 2 waits for the task of id 1, which
  comes after it, and an interleaving of the main thread with the
  worker that polls for it. *)
Definition waiting_plan : list Task := [search_task 2 "$1" [1%Z]; join_task 1].

Definition waiting_schedule : list Thread :=
[Main; Worker 0; Worker 0; Main; Main; Main;
 Worker 0; Worker 0; Worker 0; Main; Main].

Definition waiting_events : list Event :=
[Began (join_task 1) ∅;
 Wrote (join_task 1) ∅;
 Began (search_task 2 "$1" [1%Z]) {[1%Z := VStr "join"]};
 Wrote (search_task 2 "$1" [1%Z]) {[1%Z := VStr "join"]}].

Definition waiting_records : list FunctionMessage :=
[ {| fm_name := "join"; fm_content := "join";
     fm_idx := Some 1%Z; fm_tool_call_id := "1" |};
  {| fm_name := "search"; fm_content := "result:join";
     fm_idx := Some 2%Z; fm_tool_call_id := "2" |} ].

Definition waiting_final : Sched :=
{| observations :=
     <[2%Z := VStr "result:join"]> {[1%Z := VStr "join"]};
   task_names := <[1%Z := "join"]> {[2%Z := "search"]};
   originals := ∅; tasks_iter := []; tasks_iter_raises := None;
   futures := [(search_task 2 "$1" [1%Z], WDone)];
   main := MReturned waiting_records |}.

(** A stream in which the task of id 2 waits for the failing task of id
    1, with a third task that waits for nothing, and an interleaving. *)
Definition failing_error : text :=
  "ERROR: Failed to execute broken. RuntimeError('boom')".

Definition failing_plan : list Task :=
  [search_task 2 "$1" [1%Z]; broken_task 1; search_task 3 "b" []].

Definition failing_schedule : list Thread :=
  [Main; Worker 0; Worker 0; Main; Main; Main; Main; Main; Main;
   Worker 0; Worker 0; Worker 0; Main; Main].

Definition failing_events : list Event :=
  [Began (broken_task 1) ∅;
   Wrote (broken_task 1) ∅;
   Began (search_task 3 "b" []) {[1%Z := VStr failing_error]};
   Wrote (search_task 3 "b" []) {[1%Z := VStr failing_error]};
   Began (search_task 2 "$1" [1%Z])
     (<[3%Z := VStr "result:b"]> {[1%Z := VStr failing_error]});
   Wrote (search_task 2 "$1" [1%Z])
     (<[3%Z := VStr "result:b"]> {[1%Z := VStr failing_error]})].

Definition failing_records : list FunctionMessage :=
  [ {| fm_name := "broken"; fm_content := failing_error;
       fm_idx := Some 1%Z; fm_tool_call_id := "1" |};
    {| fm_name := "search"; fm_content := "result:" ++ failing_error;
       fm_idx := Some 2%Z; fm_tool_call_id := "2" |};
    {| fm_name := "search"; fm_content := "result:b";
       fm_idx := Some 3%Z; fm_tool_call_id := "3" |} ].

Definition failing_final : Sched :=
  {| observations :=
       <[2%Z := VStr ("result:" ++ failing_error)]>
         (<[3%Z := VStr "result:b"]> {[1%Z := VStr failing_error]});
     task_names :=
       <[3%Z := "search"]> (<[1%Z := "broken"]> {[2%Z := "search"]});
     originals := ∅; tasks_iter := []; tasks_iter_raises := None;
     futures := [(search_task 2 "$1" [1%Z], WDone)];
     main := MReturned failing_records |}.

Definition nested_args : Dict :=
[("query", VList [VStr "$2 and ${1}"; VList [VStr "x$2}"; VInt 5]]);
 ("limit", VInt 3)].

Definition broken_plan : text :=
"1. join()" ++ NL ++ "2. lookup(query='a')" ++ NL ++ "3. join()" ++ NL.

(** The tasks whose execution began, in the order of the beginnings. *)
Definition began (evs : list Event) : list Task :=
  omap (λ ev, match ev with Began t _ => Some t | Wrote _ _ => None end) evs.

(** The task whose observation a thread holds and has not written. *)
Definition result_of_main (pc : MainPc) : list Task :=
  match pc with
  | MExecuted t _ => [t]
  | _ => []
  end.

Definition result_of_worker (f : Task * WorkerPc) : list Task :=
  match f.2 with
  | WExecuted _ => [f.1]
  | _ => []
  end.

Definition executed_unwritten (s : Sched) : list Task :=
  result_of_main (main s) ++ (futures s ≫= result_of_worker).

(** The pass is over: [schedule_tasks] returned or raised. *)
Definition pass_over (s : Sched) : Prop :=
  match main s with
  | MReturned _ | MRaised _ => True
  | _ => False
  end.

(** The observation of a task is a function of the entries of the table
    under the task's dependencies. *)
Definition depends_only_on_dependencies (t : Task) : Prop :=
  ∀ obs1 obs2 : Observations,
    (∀ d, d ∈ dependencies t → obs1 !! d = obs2 !! d) →
    _execute_task t obs1 = _execute_task t obs2.

(** The table on which an execution began had no entry for the task, and
    is part of every table in which the task has an entry. *)
Definition begin_order (evs : list Event) : Prop :=
  (∀ t tbl, Began t tbl ∈ evs → tbl !! idx t = None)
  ∧ ∀ t tbl t' tbl',
      Began t tbl ∈ evs → Began t' tbl' ∈ evs →
      is_Some (tbl' !! idx t) → tbl ⊆ tbl'.

(** The keys occur in the text one after another, each followed by an
    equal sign. *)
Fixpoint named_in_order (keys : list text) (s : text) : Prop :=
  match keys with
  | [] => True
  | k :: keys' =>
      ∃ pre post, s = pre ++ k ++ "=" ++ post ∧ named_in_order keys' post
  end.

(** The keys a scan has taken: those bound and the one whose value is
    pending. *)
Definition taken_keys (st : ArgScan) : list text :=
  (extracted_args st).*1
  ++ match key_and_prev_idx st with
     | Some (k, _) => [k]
     | None => []
     end.

(** A task that waits for its own id, and an interleaving in which its
    worker polls. *)
Definition stuck_plan : list Task := [search_task 1 "$1" [1%Z]].

Definition stuck_schedule : list Thread := [Main; Worker 0; Worker 0; Main].

Definition stuck_final : Sched :=
  {| observations := ∅; task_names := {[1%Z := "search"]};
     originals := ∅; tasks_iter := []; tasks_iter_raises := None;
     futures := [(search_task 1 "$1" [1%Z], WPolling)];
     main := MWait |}.

(** A plan that skips the id 2 before its [join]. *)
Definition skipping_plan : list Task := [search_task 1 "a" []; join_task 3].

Definition skipping_schedule : list Thread :=
  [Main; Main; Main; Main; Worker 0; Worker 0; Main].

Definition skipping_events : list Event :=
  [Began (search_task 1 "a" []) ∅; Wrote (search_task 1 "a" []) ∅].

Definition skipping_final : Sched :=
  {| observations := {[1%Z := VStr "result:a"]};
     task_names := <[3%Z := "join"]> {[1%Z := "search"]};
     originals := ∅; tasks_iter := []; tasks_iter_raises := None;
     futures := [(join_task 3, WPolling)];
     main := MWait |}.

(** The waiting plan as the head of a stream that ends in an exception,
    and a second interleaving of it. *)
Definition unknown_tool_error : Exn :=
  OutputParserException "Tool lookup not found.".

Definition raising_final : Sched :=
  {| observations := observations waiting_final;
     task_names := task_names waiting_final;
     originals := ∅; tasks_iter := [];
     tasks_iter_raises := Some unknown_tool_error;
     futures := futures waiting_final;
     main := MRaised unknown_tool_error |}.

Definition other_schedule : list Thread :=
  [Main; Main; Main; Main; Worker 0; Worker 0; Worker 0; Worker 0; Main; Main].

(** The waiting plan as a text, and histories that hold it. *)
Definition waiting_text : text :=
  "2. search(query=$1)" ++ NL ++ "1. join()" ++ NL.

Definition waiting_history : list LLMCompiler.Message :=
  [LLMCompiler.HumanMessage waiting_text].

Definition question_history : list LLMCompiler.Message :=
  [LLMCompiler.HumanMessage "Plan a trip to Rome"].

Definition broken_history : list LLMCompiler.Message :=
  [LLMCompiler.HumanMessage broken_plan].

(** A replanning pass over the waiting history: the state after the
    first pass and a joiner that asks to replan. *)
Definition retry_decision : LLMCompiler.JoinOutputs :=
  {| LLMCompiler.jo_thought := "retry";
     LLMCompiler.should_replan := true;
     LLMCompiler.feedback := Some "again";
     LLMCompiler.plan := None |}.

Definition replanned_history : list LLMCompiler.Message :=
  waiting_history ++ (LLMCompiler.FunctionMsg <$> waiting_records)
    ++ LLMCompiler._parse_joiner_output retry_decision.

Definition replanned_events : list Event :=
  [Began (search_task 2 "$1" [1%Z]) (observations waiting_final);
   Wrote (search_task 2 "$1" [1%Z]) (observations waiting_final);
   Began (join_task 1) (observations waiting_final);
   Wrote (join_task 1) (observations waiting_final)].

Definition replanned_final : Sched :=
  {| observations := observations waiting_final;
     task_names := task_names waiting_final;
     originals := dom (observations waiting_final);
     tasks_iter := []; tasks_iter_raises := None;
     futures := [];
     main := MReturned [] |}.


(** A plan with a thought, as a stream of lines, as one text whose last
    line no newline ends, and as one text of whole lines. *)
Definition streamed_plan : list text :=
  ["Thought: x" ++ NL; "1. join()" ++ NL].

Definition unterminated_plan : text := "Thought: x" ++ NL ++ "1. join()".

(** A tool of two parameters. *)
Definition route_tool : BaseTool :=
  {| name := "route"; arg_keys := ["origin"; "destination"];
     invoke := λ _, Ok (VStr "route") |}.

End Vocabulary.

(** * Properties *)

(** ** Scanning for placeholders *)

Section ScanFacts.

Import Re.

Lemma match_id_length s g len : match_id s = Some (g, len) → 2 ≤ len.
Proof.
  destruct s as [|c r]; [done|]. simpl.
  case_bool_decide; [|done].
  destruct r as [|b r']; [done|].
  destruct (bool_decide (b = "{"%char));
    (destruct (take_while _ _) as [|d ds]; [done|]);
    intros [= <- <-]; simpl; lia.
Qed.

Lemma scan_ids_cons c r :
  scan_ids 0 (c :: r) =
    match match_id (c :: r) with
    | Some (g, len) => Hit (take len (c :: r)) g :: scan_ids (len - 1) r
    | None => Lit c :: scan_ids 0 r
    end.
Proof. done. Qed.

(** The segments of a scan spell the scanned text. *)
Lemma scan_ids_text skip s :
  scan_ids skip s ≫= seg_text = drop skip s.
Proof.
  revert skip. induction s as [|c r IH]; intros skip.
  - by destruct skip.
  - destruct skip as [|k]; [|apply IH].
    rewrite scan_ids_cons.
    destruct (match_id (c :: r)) as [[g len]|] eqn:Hm.
    + apply match_id_length in Hm.
      destruct len as [|l]; [lia|].
      rewrite bind_cons, IH. cbn [seg_text take drop].
      replace (S l - 1) with l by lia. simpl. by rewrite take_drop.
    + rewrite bind_cons, IH. done.
Qed.

Lemma findall_ids_hit s whole g :
  Hit whole g ∈ scan_ids 0 s → g ∈ findall_ids s.
Proof.
  intros Hin. apply list_elem_of_omap. by exists (Hit whole g).
Qed.

(** A replacement that gives every match back leaves the text alone. *)
Lemma sub_ids_id repl s :
  (∀ whole g, Hit whole g ∈ scan_ids 0 s → repl whole g = whole) →
  sub_ids repl s = s.
Proof.
  intros Hrepl. transitivity (scan_ids 0 s ≫= seg_text).
  - unfold sub_ids.
    induction (scan_ids 0 s) as [|seg segs IH]; [done|].
    rewrite !bind_cons. f_equal.
    + destruct seg as [c|whole g]; [done|]. apply Hrepl. left.
    + apply IH. intros whole g Hin. apply Hrepl. by right.
  - apply (scan_ids_text 0).
Qed.

End ScanFacts.

(** ** Sorting a set of ids *)

Section SortedSet.

Import OutputParser.

Lemma elem_of_sorted_set k deps : k ∈ sorted_set deps ↔ k ∈ deps.
Proof.
  unfold sorted_set.
  rewrite (merge_sort_Permutation Z.le), elem_of_elements.
  apply elem_of_list_to_set.
Qed.

Lemma StronglySorted_le_lt (l : list Z) :
  StronglySorted Z.le l → NoDup l → StronglySorted Z.lt l.
Proof.
  induction 1 as [|x l Hs IH Hall]; intros Hnd; [constructor|].
  apply NoDup_cons in Hnd as [Hx Hnd].
  constructor; [by apply IH|].
  rewrite Forall_forall in Hall. apply Forall_forall.
  intros y Hy. assert (x ≠ y) by (intros ->; done).
  specialize (Hall y Hy). lia.
Qed.

Lemma merge_sort_set_sorted (X : gset Z) :
  StronglySorted Z.lt (merge_sort Z.le (elements X)).
Proof.
  apply StronglySorted_le_lt.
  - apply (StronglySorted_merge_sort Z.le); apply _.
  - rewrite (merge_sort_Permutation Z.le). apply NoDup_elements.
Qed.

Lemma sorted_set_sorted deps : StronglySorted Z.lt (sorted_set deps).
Proof. apply merge_sort_set_sorted. Qed.

End SortedSet.

Lemma seqZ_sorted (m n : Z) : StronglySorted Z.lt (seqZ m n).
Proof.
  remember (Z.to_nat n) as len eqn:Hlen.
  revert m n Hlen. induction len as [|len IH]; intros m n Hlen.
  - rewrite seqZ_nil by lia. constructor.
  - rewrite seqZ_cons by lia. constructor.
    + apply IH. lia.
    + apply Forall_seqZ. intros k Hk. lia.
Qed.

(** ** The join sentinel *)

Section Join.

Import OutputParser.
Variable literal_eval : text → option Value.


End Join.

(** ** Argument resolution *)

Section Resolution.

Import Re OutputParser TaskFetching.

Lemma _resolve_arg_str observations s :
  _resolve_arg (VStr s) observations
    = VStr (scan_ids 0 s ≫= resolve_seg observations).
Proof. done. Qed.

Lemma unmet_absent deps (observations : Observations) k :
  k ∈ deps → observations !! k = None → unmet deps observations = true.
Proof.
  intros Hin Hk. destruct deps as [|d deps]; [by apply elem_of_nil in Hin|].
  unfold unmet. apply existsb_exists. exists k. split.
  - by apply list_elem_of_In.
  - by apply bool_decide_eq_true_2.
Qed.



End Resolution.

(** ** Fragments and lines *)

Section Lines.

Lemma split_nl_not_nil s : split_nl s ≠ [].
Proof.
  destruct s as [|c r]; [done|]. simpl.
  destruct (is_nl c); [done|]. by destruct (split_nl r).
Qed.

Lemma split_nl_cons_line c r (Hc : is_nl c = false) :
  split_nl (c :: r)
    = (c :: List.hd [] (split_nl r)) :: List.tl (split_nl r).
Proof.
  simpl. rewrite Hc.
  pose proof (split_nl_not_nil r). by destruct (split_nl r).
Qed.

(** A text without a newline is one line. *)
Lemma split_nl_one_line s : chr_nl ∉ s → split_nl s = [s].
Proof.
  induction s as [|c r IH]; [done|]. intros Hnl.
  apply not_elem_of_cons in Hnl as [Hc Hr].
  rewrite split_nl_cons_line by (unfold is_nl; by case_bool_decide).
  by rewrite IH.
Qed.

(** No line holds a newline. *)
Lemma split_nl_lines s line : line ∈ split_nl s → chr_nl ∉ line.
Proof.
  revert line. induction s as [|c r IH]; intros line.
  - intros ->%list_elem_of_singleton. apply not_elem_of_nil.
  - simpl. destruct (is_nl c) eqn:Hc.
    + intros [->|Hin]%elem_of_cons; [apply not_elem_of_nil|by apply IH].
    + pose proof (split_nl_not_nil r).
      destruct (split_nl r) as [|h t] eqn:Hs; [done|].
      intros [->|Hin]%elem_of_cons.
      * apply not_elem_of_cons. split.
        -- intros <-. unfold is_nl in Hc. by case_bool_decide.
        -- apply IH. left.
      * apply IH. by right.
Qed.

Lemma last_item_elem d l : l ≠ [] → last_item d l ∈ l.
Proof.
  unfold last_item. induction l as [|x l IH]; [done|]. intros _.
  destruct l as [|y l]; [left|].
  right. by apply IH.
Qed.

(** Appending to a text appends to its last line. *)
Lemma split_nl_app x y :
  split_nl (x ++ y)
    = but_last (split_nl x) ++ split_nl (last_item [] (split_nl x) ++ y).
Proof.
  unfold but_last, last_item. induction x as [|c r IH]; [done|].
  cbn [app]. destruct (is_nl c) eqn:Hc.
  - simpl. rewrite Hc. rewrite IH.
    pose proof (split_nl_not_nil r). by destruct (split_nl r).
  - rewrite !split_nl_cons_line by done. rewrite IH.
    pose proof (split_nl_not_nil r).
    destruct (split_nl r) as [|h t] eqn:Hs; [done|].
    destruct t as [|h' t'].
    + cbn [removelast List.last List.hd List.tl app].
      rewrite split_nl_cons_line by done. done.
    + cbn [removelast List.last List.hd List.tl app]. done.
Qed.

End Lines.

(** ** The plan parser, line by line *)

Section Transform.

Import Re OutputParser.
Variable literal_eval : text → option Value.
Variable tools : list BaseTool.

(** What [_parse_task] does with a line does not depend on the pending
    thought, the annotation of the task apart. *)
Lemma _parse_task_thought line th :
  match _parse_task literal_eval tools line th with
  | Raise e => _parse_task literal_eval tools line None = Raise e
  | Ok (task, th') =>
      ∃ th0, _parse_task literal_eval tools line None
             = Ok (no_thought <$> task, th0)
  end.
Proof.
  unfold _parse_task. destruct (match_thought line) as [g|]; [by eexists|].
  destruct (match_action line) as [[[n tname] a]|]; [|by eexists].
  unfold instantiate_task.
  destruct (bool_decide (tname = "join")); [by eexists|].
  destruct (lookup_tool tools tname); [by eexists|done].
Qed.

Lemma ingest_lines_line_tasks lines th :
  let r := ingest_lines literal_eval tools lines th in
  map (no_thought ∘ fst) (items r) = items (line_tasks literal_eval tools lines)
  ∧ raised r = raised (line_tasks literal_eval tools lines).
Proof.
  revert th. induction lines as [|line rest IH]; intros th; [done|].
  cbn [ingest_lines line_tasks].
  pose proof (_parse_task_thought line th) as Hp.
  destruct (_parse_task literal_eval tools line th) as [[task th']|e].
  - destruct Hp as [th0 ->]. destruct (IH th') as [IH1 IH2].
    destruct task as [t|]; cbn; by rewrite ?IH1, IH2.
  - by rewrite Hp.
Qed.

Lemma line_tasks_app l1 l2 :
  line_tasks literal_eval tools (l1 ++ l2)
    = match raised (line_tasks literal_eval tools l1) with
      | Some e => line_tasks literal_eval tools l1
      | None =>
          {| items := items (line_tasks literal_eval tools l1)
                      ++ items (line_tasks literal_eval tools l2);
             raised := raised (line_tasks literal_eval tools l2) |}
      end.
Proof.
  induction l1 as [|line rest IH].
  - cbn. by destruct (line_tasks literal_eval tools l2).
  - cbn [app line_tasks].
    destruct (_parse_task literal_eval tools line None) as [[task th']|e];
      [|done].
    rewrite IH. cbn [raised].
    destruct (raised (line_tasks literal_eval tools rest)) eqn:Hr; cbn [items raised].
    + by rewrite Hr.
    + by rewrite app_assoc.
Qed.

(** [_transform] emits the tasks of the lines of the joined fragments,
    annotations apart, and ends in the exception of the first line that
    raises: the buffered text [texts] holds no newline. *)
Lemma transform_chunks_line_tasks chunks texts th :
  chr_nl ∉ mjoin texts →
  let r := transform_chunks literal_eval tools chunks texts th in
  map no_thought (items r)
    = items (line_tasks literal_eval tools (split_nl (mjoin texts ++ mjoin chunks)))
  ∧ raised r = raised (line_tasks literal_eval tools (split_nl (mjoin texts ++ mjoin chunks))).
Proof.
  revert texts th. induction chunks as [|chunk rest IH]; intros texts th Hnl.
  - cbn [transform_chunks mjoin]. rewrite app_nil_r.
    rewrite split_nl_one_line by done. cbn [line_tasks].
    destruct texts as [|t0 ts].
    + by vm_compute.
    + pose proof (_parse_task_thought (mjoin (t0 :: ts)) th) as Hp.
      destruct (_parse_task literal_eval tools (mjoin (t0 :: ts)) th)
        as [[task th']|e].
      * destruct Hp as [th0 ->]. destruct task; cbn; by rewrite ?app_nil_r.
      * by rewrite Hp.
  - cbn [transform_chunks]. unfold ingest_token.
    change (mjoin (chunk :: rest)) with (chunk ++ mjoin rest).
    case_bool_decide as Hc.
    + set (lines := split_nl (mjoin (texts ++ [chunk]))).
      assert (mjoin texts ++ chunk ++ mjoin rest
              = mjoin (texts ++ [chunk]) ++ mjoin rest) as ->.
      { rewrite join_app. cbn. by rewrite app_nil_r, app_assoc. }
      rewrite split_nl_app. fold lines.
      rewrite line_tasks_app.
      destruct (ingest_lines_line_tasks (but_last lines) th) as [Hi Hr].
      cbn zeta in Hi, Hr.
      destruct (raised (ingest_lines literal_eval tools (but_last lines) th))
        as [e|] eqn:Hraise.
      * rewrite Hraise. rewrite <- Hr. cbn [items raised].
        rewrite <- Hi. by rewrite map_map.
      * rewrite Hraise. rewrite <- Hr. cbn [items raised].
        edestruct (IH [last_item [] lines]) as [IH1 IH2].
        { cbn. rewrite app_nil_r. apply split_nl_lines with
            (s := mjoin (texts ++ [chunk])).
          apply last_item_elem, split_nl_not_nil. }
        cbn zeta in IH1, IH2. cbn [mjoin list_join] in IH1, IH2.
        rewrite app_nil_r in IH1, IH2.
        rewrite map_app, map_map.
        change (λ x : Task * option text, no_thought x.1)
          with (no_thought ∘ (fst : Task * option text → Task)).
        rewrite Hi. by rewrite IH1, IH2.
    + cbn [raised items map app].
      edestruct (IH (texts ++ [chunk])) as [IH1 IH2].
      { rewrite join_app. cbn. rewrite app_nil_r.
        intros [?|?]%elem_of_app; done. }
      cbn zeta in IH1, IH2.
      rewrite join_app in IH1, IH2. cbn [mjoin list_join] in IH1, IH2.
      rewrite app_nil_r, <- app_assoc in IH1, IH2.
      by rewrite IH1, IH2.
Qed.

End Transform.

Section TransformClaims.

Import Re OutputParser.
Variable literal_eval : text → option Value.
Variable tools : list BaseTool.

Lemma _transform_line_tasks input :
  let r := _transform literal_eval tools input in
  map no_thought (items r)
    = items (line_tasks literal_eval tools (split_nl (mjoin (input_chunks input))))
  ∧ raised r
    = raised (line_tasks literal_eval tools (split_nl (mjoin (input_chunks input)))).
Proof.
  apply (transform_chunks_line_tasks literal_eval tools (input_chunks input) [] None).
  apply not_elem_of_nil.
Qed.

(** Splitting a plan text into fragments changes neither the ids, tools,
    arguments and dependencies of the tasks emitted, nor their order,
    nor the exception that ends the parse. *)
Lemma fragments_same_tasks_but_thought (chunks : list text) (whole : text) :
  mjoin chunks = whole →
  map no_thought (items (_transform literal_eval tools (InList chunks)))
    = map no_thought (items (_transform literal_eval tools (InStr whole)))
  ∧ raised (_transform literal_eval tools (InList chunks))
    = raised (_transform literal_eval tools (InStr whole)).
Proof.
  intros <-.
  destruct (_transform_line_tasks (InList chunks)) as [-> ->].
  destruct (_transform_line_tasks (InStr (mjoin chunks))) as [-> ->].
  cbn [input_chunks mjoin list_join]. by rewrite app_nil_r.
Qed.

(** C1. The thought annotation does not survive a fragment boundary: a
    [Thought:] line delivered in one fragment and its action delivered
    in the next give a task without annotation, while the same text in
    one fragment gives the annotated task. *)
Theorem thought_lost_between_fragments :
  _transform literal_eval tools
    (InList ["Thought: x" ++ NL; "1. join()" ++ NL])
    = {| items := [{| idx := 1; tool := ToolStr "join"; args := [];
                      dependencies := []; thought := None |}];
         raised := None |}
  ∧ _transform literal_eval tools
      (InStr ("Thought: x" ++ NL ++ "1. join()" ++ NL))
    = {| items := [{| idx := 1; tool := ToolStr "join"; args := [];
                      dependencies := []; thought := Some "x" |}];
         raised := None |}
  ∧ _transform literal_eval tools
      (InList ["Thought: x" ++ NL; "1. join()" ++ NL])
    ≠ _transform literal_eval tools
        (InStr (mjoin ["Thought: x" ++ NL; "1. join()" ++ NL])).
Proof.
  split_and!; [by vm_compute|by vm_compute|].
  vm_compute. intros [=].
Qed.

Lemma match_action_not_thought line :
  is_Some (match_action line) → match_thought line = None.
Proof.
  intros Hact. unfold match_thought.
  destruct (starts_with "Thought: " line) eqn:Hs; [|done].
  destruct line as [|c r]; [done|].
  cbn [starts_with] in Hs. apply andb_prop in Hs as [Hc _].
  apply bool_decide_eq_true_1 in Hc as <-.
  by destruct Hact as [x [=]].
Qed.

Lemma _parse_task_unknown_tool line n tname a th :
  match_action line = Some (n, tname, a) →
  tname ≠ "join" →
  lookup_tool tools tname = None →
  _parse_task literal_eval tools line th
    = Raise (OutputParserException ("Tool " ++ tname ++ " not found.")).
Proof.
  intros Hact Hjoin Hlook. unfold _parse_task.
  rewrite match_action_not_thought by (by rewrite Hact).
  rewrite Hact. unfold instantiate_task.
  rewrite bool_decide_eq_false_2 by done. by rewrite Hlook.
Qed.

Lemma _parse_task_raises line th e :
  _parse_task literal_eval tools line th = Raise e →
  ∃ msg, e = OutputParserException msg.
Proof.
  unfold _parse_task. destruct (match_thought line); [done|].
  destruct (match_action line) as [[[n tname] a]|]; [|done].
  unfold instantiate_task.
  destruct (bool_decide (tname = "join")); [done|].
  destruct (lookup_tool tools tname); [done|].
  intros [= <-]. by eexists.
Qed.

(** The tasks emitted before an exception are those of the lines before
    the line that raised it. *)
Lemma line_tasks_raised lines e :
  raised (line_tasks literal_eval tools lines) = Some e →
  ∃ k bad,
    lines !! k = Some bad
    ∧ _parse_task literal_eval tools bad None = Raise e
    ∧ raised (line_tasks literal_eval tools (take k lines)) = None
    ∧ items (line_tasks literal_eval tools (take k lines))
      = items (line_tasks literal_eval tools lines).
Proof.
  induction lines as [|line rest IH]; [done|].
  cbn [line_tasks].
  destruct (_parse_task literal_eval tools line None) as [[task th']|e']
    eqn:Hp.
  - cbn [raised items]. intros Hr.
    destruct (IH Hr) as (k & bad & Hk & Hbad & Hnone & Hitems).
    exists (S k), bad. cbn [take line_tasks]. rewrite Hp. cbn [raised items].
    by rewrite Hitems.
  - cbn [raised]. intros [= ->]. by exists 0, line.
Qed.


End TransformClaims.

(** ** The scheduling pass *)

Section Pass.

Import OutputParser TaskFetching.

Lemma unmet_false deps (obs : Observations) :
  unmet deps obs = false → ∀ d, d ∈ deps → is_Some (obs !! d).
Proof.
  intros Hu d Hd. destruct deps as [|d0 deps]; [by apply elem_of_nil in Hd|].
  unfold unmet in Hu.
  destruct (obs !! d) eqn:Hl; [done|]. exfalso.
  assert (existsb (λ dep, bool_decide (obs !! dep = None)) (d0 :: deps) = true)
    as Hex; [|by rewrite Hex in Hu].
  apply existsb_exists. exists d. split; [by apply list_elem_of_In|].
  by apply bool_decide_eq_true_2.
Qed.

Lemma held_by_worker_insert fs i t pc pc' :
  fs !! i = Some (t, pc) →
  pc ≠ WDone →
  fs ≫= held_by_worker
    ≡ₚ t :: (<[i := (t, pc')]> fs ≫= held_by_worker)
       ∧ pc' = WDone
  ∨ fs ≫= held_by_worker = <[i := (t, pc')]> fs ≫= held_by_worker
    ∧ pc' ≠ WDone.
Proof.
  intros Hi Hpc.
  rewrite <- (take_drop_middle fs i (t, pc)) at 1 3 by done.
  rewrite insert_take_drop by (by eapply lookup_lt_Some).
  rewrite !bind_app, !bind_cons.
  assert (held_by_worker (t, pc) = [t]) as -> by (by destruct pc).
  assert (pc' = WDone ∨ pc' ≠ WDone) as [->|Hpc']
    by (destruct pc'; (by left) || by right).
  - left. split; [|done]. cbn [held_by_worker snd app].
    by rewrite <- Permutation_middle.
  - right. split; [|done].
    assert (held_by_worker (t, pc') = [t]) as -> by (by destruct pc').
    done.
Qed.

(** *** What every reachable state satisfies *)

Lemma names_of_snoc ts t :
  names_of (ts ++ [t]) = <[idx t := tool_name t]> (names_of ts).
Proof. unfold names_of. by rewrite foldl_app. Qed.

Lemma written_app evs ev : written (evs ++ ev) = written evs ++ written ev.
Proof. unfold written. apply omap_app. Qed.

Lemma Reachable_init messages tasks raises :
  Reachable messages tasks raises [] (init messages tasks raises).
Proof.
  split; unfold init; cbn [originals tasks_iter_raises tasks_iter task_names
    observations futures main written omap in_flight held_by_main].
  - done.
  - done.
  - by exists [].
  - cbn. by rewrite (right_id_L ∅ (∪)).
  - intros t tbl d Hin. by apply elem_of_nil in Hin.
  - done.
  - intros i t d Hi. done.
  - intros t tbl Hin. by apply elem_of_nil in Hin.
  - done.
  - done.
Qed.


Ltac step_cases Hstep :=
  match type of Hstep with
  | step ?th ?s = _ =>
      destruct s as [obs names orig iter raises futs pc];
      destruct th as [|i];
      unfold step, step_main, step_worker, set_main, set_future,
        set_observations in Hstep;
      cbn [main tasks_iter observations task_names originals
           tasks_iter_raises futures] in *;
      repeat case_match; simplify_eq;
      cbn [main tasks_iter observations task_names originals
           tasks_iter_raises futures] in *
  end.

Lemma step_dom messages th s ev s' evs :
  dom (observations s)
    = dom (_get_observations messages) ∪ list_to_set (idx <$> written evs) →
  step th s = Some (ev, s') →
  dom (observations s')
    = dom (_get_observations messages)
      ∪ list_to_set (idx <$> written (evs ++ ev)).
Proof.
  intros Hdom Hstep. step_cases Hstep;
    rewrite written_app; cbn [written omap]; rewrite ?app_nil_r; try done.
  all: rewrite fmap_app, list_to_set_app_L, dom_insert_L, Hdom.
  all: match goal with
       | |- context [written [Wrote ?t ?o]] =>
           change (list_to_set (idx <$> written [Wrote t o]) : gset Z)
             with ({[idx t]} ∪ ∅ : gset Z)
       end.
  all: by rewrite (right_id_L ∅ (∪)), (comm_L (∪) {[_]}), (assoc_L (∪)).
Qed.


Lemma step_constants th s ev s' :
  step th s = Some (ev, s') →
  originals s' = originals s ∧ tasks_iter_raises s' = tasks_iter_raises s.
Proof. intros Hstep. by step_cases Hstep. Qed.

(** No step removes a key of the table. *)
Lemma step_keys_grow th s ev s' :
  step th s = Some (ev, s') → dom (observations s) ⊆ dom (observations s').
Proof.
  intros Hstep. step_cases Hstep; try done.
  all: rewrite dom_insert_L; apply union_subseteq_r.
Qed.

Lemma is_Some_grow (o o' : Observations) d :
  dom o ⊆ dom o' → is_Some (o !! d) → is_Some (o' !! d).
Proof. intros Hsub H%elem_of_dom. apply elem_of_dom. by apply Hsub. Qed.

Lemma step_ready_main th s ev s' :
  ready_main s → step th s = Some (ev, s') → ready_main s'.
Proof.
  unfold ready_main. intros Hm Hstep t0 d.
  pose proof (step_keys_grow _ _ _ _ Hstep) as Hgrow.
  step_cases Hstep; try done; try (intros; eapply is_Some_grow; eauto; fail).
  destruct (unmet _ _) eqn:Hu; [done|].
  intros [= ->]. by apply unmet_false.
Qed.

Lemma step_ready_worker th s ev s' :
  ready_worker s → step th s = Some (ev, s') → ready_worker s'.
Proof.
  unfold ready_worker. intros Hw Hstep j t0 d.
  pose proof (step_keys_grow _ _ _ _ Hstep) as Hgrow.
  step_cases Hstep; try (intros; eapply is_Some_grow; eauto; fail).
  - destruct (unmet _ _) eqn:Hu; [|by eauto].
    intros [Hj|[_ Hj]]%lookup_app_Some; [by eauto|].
    by destruct (j - length futs) as [|[|n]].
  - destruct (decide (i = j)) as [->|Hne].
    + rewrite list_lookup_insert_eq by (by eapply lookup_lt_Some). done.
    + rewrite list_lookup_insert_ne by done. eauto.
  - destruct (decide (i = j)) as [->|Hne].
    + rewrite list_lookup_insert_eq by (by eapply lookup_lt_Some).
      intros [= ->]. by apply unmet_false.
    + rewrite list_lookup_insert_ne by done. eauto.
  - destruct (decide (i = j)) as [->|Hne].
    + rewrite list_lookup_insert_eq by (by eapply lookup_lt_Some). done.
    + rewrite list_lookup_insert_ne by done. eauto.
  - destruct (decide (i = j)) as [->|Hne].
    + rewrite list_lookup_insert_eq by (by eapply lookup_lt_Some). done.
    + rewrite list_lookup_insert_ne by done.
      intros. eapply is_Some_grow; eauto.
Qed.

(** A step begins the execution of a task only when the thread had the
    dependencies checked, and they are still there. *)
Lemma step_began th s ev s' t tbl d :
  ready_main s → ready_worker s →
  step th s = Some (ev, s') →
  Began t tbl ∈ ev → d ∈ dependencies t → is_Some (tbl !! d).
Proof.
  intros Hm Hw Hstep. unfold ready_main, ready_worker in *.
  step_cases Hstep; try (by intros ?%elem_of_nil);
    intros Hin%list_elem_of_singleton; simplify_eq; eauto.
Qed.

Lemma step_wrote th s ev s' t tbl :
  step th s = Some (ev, s') →
  Wrote t tbl ∈ ev →
  tbl = observations s
  ∧ t ∈ in_flight s
  ∧ ∃ v, observations s' = <[idx t := v]> (observations s).
Proof.
  intros Hstep. unfold in_flight.
  step_cases Hstep; try (by intros ?%elem_of_nil);
    intros Hin%list_elem_of_singleton; simplify_eq.
  - split_and!; [done|left|by eexists].
  - split_and!; [done| |by eexists].
    apply elem_of_app. right. apply list_elem_of_bind.
    eexists. split; [|by eapply list_elem_of_lookup_2]. left.
Qed.


Lemma step_consumed tasks th s ev s' evs :
  consumed_ok tasks evs s →
  step th s = Some (ev, s') →
  consumed_ok tasks (evs ++ ev) s'.
Proof.
  intros (consumed & Htasks & Hnames & Hperm) Hstep.
  unfold consumed_ok, in_flight in *. rewrite written_app.
  step_cases Hstep; cbn [written omap held_by_main app] in *;
    rewrite ?app_nil_r.
  all: try (exists consumed; split_and!; rewrite ?app_nil_r; done).
  all: try match goal with
       | |- ∃ _, _ ++ ?t :: ?l = _ ++ ?l ∧ _ =>
           exists (consumed ++ [t]);
           rewrite <- app_assoc, names_of_snoc;
           split_and!; [done|done|]; rewrite Hperm
       end.
  - rewrite bind_app, bind_singleton. cbn. by rewrite !app_assoc.
  - rewrite <- (Permutation_middle (written evs)).
    apply (Permutation_app_comm _ [_]).
  - exists consumed. split_and!; [done..|].
    change (written [Wrote task obs]) with [task].
    rewrite Hperm. by rewrite <- app_assoc.
  - (* queued to polling *)
    destruct (held_by_worker_insert futs i t WQueued WPolling) as [[_ ?]|[<- _]];
      [done..|].
    by exists consumed.
  - (* polling to ready *)
    destruct (held_by_worker_insert futs i t WPolling WReady) as [[_ ?]|[<- _]];
      [done..|].
    by exists consumed.
  - (* ready to executed *)
    match goal with
    | |- context [(t, WExecuted ?v)] =>
        destruct (held_by_worker_insert futs i t WReady (WExecuted v))
          as [[_ ?]|[<- _]]; [done..|]
    end.
    by exists consumed.
  - (* the worker writes *)
    match goal with
    | H : futs !! i = Some (t, WExecuted ?v) |- _ =>
        destruct (held_by_worker_insert futs i t (WExecuted v) WDone H)
          as [[Hp _]|[_ ?]]; [done| |done]
    end.
    exists consumed. split_and!; [done..|].
    change (written [Wrote t obs]) with [t].
    rewrite Hperm, Hp.
    rewrite <- !app_assoc. cbn [app].
    by rewrite <- !Permutation_middle.
Qed.


Lemma step_loop_over th s ev s' :
  loop_over s → step th s = Some (ev, s') → loop_over s'.
Proof.
  unfold loop_over. intros Hover Hstep.
  step_cases Hstep; cbn [held_by_main] in *; try done; auto.
Qed.

Lemma all_done_lookup fs i t pc :
  all_done fs = true → fs !! i = Some (t, pc) → pc = WDone.
Proof.
  unfold all_done. rewrite forallb_forall. intros Hall Hi.
  apply list_elem_of_lookup_2, list_elem_of_In, Hall in Hi.
  by destruct pc.
Qed.

Lemma step_returned th s ev s' :
  returned_ok s → step th s = Some (ev, s') → returned_ok s'.
Proof.
  unfold returned_ok. intros Hret Hstep ms.
  step_cases Hstep; try done.
  all: try (by intros [= <-]).
  all: intros ->; destruct (Hret _ eq_refl) as [Hall _];
    by pose proof (all_done_lookup _ _ _ _ Hall ltac:(eassumption)).
Qed.

Lemma Reachable_step messages tasks raises th s ev s' evs :
  Reachable messages tasks raises evs s →
  step th s = Some (ev, s') →
  Reachable messages tasks raises (evs ++ ev) s'.
Proof.
  intros [] Hstep.
  destruct (step_constants _ _ _ _ Hstep) as [Ho Hr].
  pose proof (step_keys_grow _ _ _ _ Hstep) as Hgrow.
  split.
  - by rewrite Ho.
  - by rewrite Hr.
  - by eapply step_consumed.
  - by eapply step_dom.
  - intros t tbl d [Hin|Hin]%elem_of_app; [by eauto|].
    by eapply step_began.
  - by eapply step_ready_main.
  - by eapply step_ready_worker.
  - intros t tbl [Hin|Hin]%elem_of_app.
    + transitivity (dom (observations s)); [by eapply r_wrote0|done].
    + destruct (step_wrote _ _ _ _ _ _ Hstep Hin) as (-> & _ & _). done.
  - by eapply step_loop_over.
  - by eapply step_returned.
Qed.

Lemma Reachable_run_from messages tasks raises schedule evs s evs' s' :
  Reachable messages tasks raises evs s →
  run schedule evs s = Some (evs', s') →
  Reachable messages tasks raises evs' s'.
Proof.
  revert evs s. induction schedule as [|th rest IH]; intros evs s Hinv.
  - by intros [= <- <-].
  - cbn [run]. destruct (step th s) as [[ev s1]|] eqn:Hstep; [|done].
    apply IH. by eapply Reachable_step.
Qed.

Lemma Reachable_run messages tasks raises schedule evs s :
  schedule_tasks_run messages tasks raises schedule = Some (evs, s) →
  Reachable messages tasks raises evs s.
Proof. apply Reachable_run_from, Reachable_init. Qed.

(** A step leaves the table alone, or is the write, by the thread that
    holds it, of the observation of a task in flight. *)
Lemma step_observations th s ev s' :
  step th s = Some (ev, s') →
  (observations s' = observations s ∧ ∀ t tbl, Wrote t tbl ∉ ev)
  ∨ ∃ t v,
      ev = [Wrote t (observations s)]
      ∧ observations s' = <[idx t := v]> (observations s)
      ∧ t ∈ in_flight s
      ∧ holds_result s t v.
Proof.
  intros Hstep. unfold in_flight, holds_result.
  step_cases Hstep;
    first
      [ left; split; [done|]; intros t0 tbl0 Hin;
        (by apply elem_of_nil in Hin)
        || (by apply list_elem_of_singleton in Hin)
      | right; eexists _, _; split_and!; [done|done|..] ].
  - left.
  - by left.
  - apply elem_of_app. right. apply list_elem_of_bind.
    eexists. split; [|by eapply list_elem_of_lookup_2]. left.
  - right. by eexists.
Qed.

Lemma holds_result_step th s ev s' t v :
  step th s = Some (ev, s') →
  holds_result s' t v →
  holds_result s t v
  ∨ ev = [Began t (observations s)] ∧ v = _execute_task t (observations s).
Proof.
  unfold holds_result. intros Hstep.
  step_cases Hstep; (intros [Hm|[j Hj]]; [by simplify_eq; auto|]).
  all: try (left; right; by exists j).
  all: try match goal with
       | H : (_ ++ _) !! _ = Some _ |- _ =>
           apply lookup_app_Some in H as [?|[_ H]];
           [left; right; by exists j
           |by destruct (j - length futs) as [|[|?]]]
       end.
  all: destruct (decide (i = j)) as [->|Hne];
    [rewrite list_lookup_insert_eq in Hj by (by eapply lookup_lt_Some);
     simplify_eq; by auto
    |rewrite list_lookup_insert_ne in Hj by done; left; right; by exists j].
Qed.

Lemma executed_ok_step th s ev s' evs :
  executed_ok evs s → step th s = Some (ev, s') → executed_ok (evs ++ ev) s'.
Proof.
  intros Hok Hstep t v Hholds.
  destruct (holds_result_step _ _ _ _ _ _ Hstep Hholds) as [Hold|[-> ->]].
  - destruct (Hok _ _ Hold) as (tbl0 & Hin & ->).
    exists tbl0. split; [|done]. apply elem_of_app. by left.
  - eexists. split; [|done]. apply elem_of_app. right. left.
Qed.

Lemma executed_ok_run_from schedule evs s evs' s' :
  executed_ok evs s → run schedule evs s = Some (evs', s') →
  executed_ok evs' s'.
Proof.
  revert evs s. induction schedule as [|th rest IH]; intros evs s Hok.
  - by intros [= <- <-].
  - cbn [run]. destruct (step th s) as [[ev s1]|] eqn:Hstep; [|done].
    apply IH. by eapply executed_ok_step.
Qed.

Lemma step_began_table th s ev s' t tbl :
  step th s = Some (ev, s') → Began t tbl ∈ ev → tbl = observations s.
Proof.
  intros Hstep. step_cases Hstep; try (by intros ?%elem_of_nil);
    intros Hin%list_elem_of_singleton; by simplify_eq.
Qed.

Lemma written_no_wrote ev : (∀ t tbl, Wrote t tbl ∉ ev) → written ev = [].
Proof.
  induction ev as [|[t tbl|t tbl] ev IH]; intros Hno; [done|..].
  - cbn. apply IH. intros t' tbl' Hin. apply (Hno t' tbl'). by right.
  - destruct (Hno t tbl). left.
Qed.

(** When the pass has returned, the tasks that wrote are the tasks of the
    stream. *)
Lemma returned_written messages tasks raises evs s ms :
  Reachable messages tasks raises evs s →
  main s = MReturned ms →
  written evs ≡ₚ tasks.
Proof.
  intros Hr Hmain.
  destruct (r_consumed _ _ _ _ _ Hr) as (consumed & -> & _ & ->).
  destruct (r_returned _ _ _ _ _ Hr ms Hmain) as [Hdone _].
  rewrite (r_loop_over _ _ _ _ _ Hr) by (by rewrite Hmain).
  unfold in_flight. rewrite Hmain. cbn [held_by_main app].
  assert (futures s ≫= held_by_worker = []) as ->; [|by rewrite !app_nil_r].
  clear -Hdone. induction (futures s) as [|[t pc] fs IH]; [done|].
  cbn [all_done forallb] in Hdone. apply andb_prop in Hdone as [Hpc Hall].
  rewrite bind_cons, IH by done. by destruct pc.
Qed.

Lemma executed_ok_init messages tasks raises :
  executed_ok [] (init messages tasks raises).
Proof. intros t v [[=]|[i Hi]]. done. Qed.

End Pass.

(** ** What the scheduler guarantees *)

Section PassClaims.

Import OutputParser TaskFetching.

(** C3. In every run of a scheduling pass, under every interleaving, a
    task begins its execution on a table that holds every id of its
    dependency list. The main thread hands a pulled task whose
    dependencies are unmet to a worker and executes it itself
    otherwise; a polling worker whose task has unmet dependencies
    sleeps and checks again, and passes on only when they are all
    present. *)
Theorem execution_waits_for_dependencies
    (messages : list BaseMessage) (tasks : list Task) (raises : option Exn)
    (schedule : list Thread) (evs : list Event) (s : Sched) :
  schedule_tasks_run messages tasks raises schedule = Some (evs, s) →
  (∀ t tbl d, Began t tbl ∈ evs → d ∈ dependencies t → d ∈ dom tbl)
  ∧ (∀ s0 t rest,
       main s0 = MLoop → tasks_iter s0 = t :: rest →
       ∃ s1, step Main s0 = Some ([], s1)
             ∧ tasks_iter s1 = rest
             ∧ if unmet (dependencies t) (observations s0)
               then main s1 = MLoop
                    ∧ futures s1 = futures s0 ++ [(t, WQueued)]
               else main s1 = MReady t ∧ futures s1 = futures s0)
  ∧ (∀ s0 i t,
       futures s0 !! i = Some (t, WPolling) →
       if unmet (dependencies t) (observations s0)
       then step (Worker i) s0 = Some ([], s0)
       else ∃ s1, step (Worker i) s0 = Some ([], s1)
                  ∧ futures s1 !! i = Some (t, WReady)).
Proof.
  intros Hrun. apply Reachable_run in Hrun. split_and!.
  - intros t tbl d Hin Hd. apply elem_of_dom. by eapply r_began.
  - intros s0 t rest Hmain Hiter. unfold step, step_main.
    rewrite Hmain, Hiter. eexists. split; [done|]. cbn.
    by destruct (unmet _ _).
  - intros s0 i t Hi. unfold step, step_worker. rewrite Hi.
    destruct (unmet _ _); [done|]. eexists. split; [done|]. cbn.
    apply list_lookup_insert_eq. by eapply lookup_lt_Some.
Qed.

(** *** The records returned *)

Lemma tool_messages_for_spec obs names keys ms :
  tool_messages_for obs names keys = Ok ms →
  Forall2
    (λ i m, fm_idx m = Some i
            ∧ names !! i = Some (fm_name m)
            ∧ (∃ v, obs !! i = Some v ∧ fm_content m = py_str v)
            ∧ fm_tool_call_id m = str_int i)
    keys ms.
Proof.
  revert ms. induction keys as [|i keys IH]; intros ms; cbn.
  - intros [= <-]. constructor.
  - destruct (names !! i) as [n|] eqn:Hn; [|done].
    destruct (obs !! i) as [v|] eqn:Hv; [|done].
    destruct (tool_messages_for obs names keys) as [ms'|e]; [|done].
    intros [= <-]. constructor; [|by apply IH].
    cbn. split_and!; [done..| |done]. by exists v.
Qed.

Lemma tool_messages_for_total obs names keys :
  (∀ i, i ∈ keys → is_Some (names !! i) ∧ is_Some (obs !! i)) →
  ∃ ms, tool_messages_for obs names keys = Ok ms.
Proof.
  induction keys as [|i keys IH]; intros Hall; cbn; [by eexists|].
  destruct (Hall i) as [[n ->] [v ->]]; [left|].
  destruct IH as [ms ->]; [|by eexists].
  intros j Hj. apply Hall. by right.
Qed.

Lemma elem_of_new_keys (obs : Observations) (orig : gset Z) i :
  i ∈ new_keys obs orig ↔ i ∈ dom obs ∧ i ∉ orig.
Proof.
  unfold new_keys.
  rewrite (merge_sort_Permutation Z.le), elem_of_elements.
  apply elem_of_difference.
Qed.

Lemma NoDup_idx_eq (ts : list Task) t1 t2 :
  NoDup (idx <$> ts) → t1 ∈ ts → t2 ∈ ts → idx t1 = idx t2 → t1 = t2.
Proof.
  induction ts as [|t ts IH]; [by intros _ ?%elem_of_nil|].
  rewrite fmap_cons. intros [Ht Hnd]%NoDup_cons.
  intros [->|H1]%elem_of_cons [->|H2]%elem_of_cons Heq; [done|..].
  - destruct Ht. rewrite Heq. by apply list_elem_of_fmap_2.
  - destruct Ht. rewrite <- Heq. by apply list_elem_of_fmap_2.
  - by apply IH.
Qed.

Lemma names_of_lookup ts i n :
  names_of ts !! i = Some n → ∃ t, t ∈ ts ∧ idx t = i ∧ tool_name t = n.
Proof.
  induction ts as [|t ts IH] using rev_ind; [done|].
  rewrite names_of_snoc.
  destruct (decide (idx t = i)) as [<-|Hne].
  - rewrite lookup_insert_eq. intros [= <-]. exists t.
    split_and!; [|done..]. apply elem_of_app. right. left.
  - rewrite lookup_insert_ne by done. intros (t' & Hin & Hi & Hn)%IH.
    exists t'. split_and!; [|done..]. apply elem_of_app. by left.
Qed.

Lemma names_of_dom ts t : t ∈ ts → is_Some (names_of ts !! idx t).
Proof.
  induction ts as [|t' ts IH] using rev_ind;
    [by intros ?%elem_of_nil|].
  rewrite names_of_snoc.
  intros [Hin|Hin]%elem_of_app;
    [|apply list_elem_of_singleton in Hin as ->].
  - destruct (decide (idx t' = idx t)) as [->|Hne].
    + rewrite lookup_insert_eq. by eexists.
    + rewrite lookup_insert_ne by done. by apply IH.
  - rewrite lookup_insert_eq. by eexists.
Qed.

(** What the list a pass returns is, in terms of the final table. *)
Lemma returned_records messages tasks raises evs s ms :
  Reachable messages tasks raises evs s →
  main s = MReturned ms →
  Forall2
    (λ i m, fm_idx m = Some i
            ∧ names_of tasks !! i = Some (fm_name m)
            ∧ (∃ v, observations s !! i = Some v ∧ fm_content m = py_str v)
            ∧ fm_tool_call_id m = str_int i)
    (new_keys (observations s) (dom (_get_observations messages))) ms.
Proof.
  intros Hr Hmain.
  destruct (r_returned _ _ _ _ _ Hr ms Hmain) as [_ Hms].
  unfold tool_messages in Hms. apply tool_messages_for_spec in Hms.
  rewrite (r_originals _ _ _ _ _ Hr) in Hms.
  destruct (r_consumed _ _ _ _ _ Hr) as (consumed & Htasks & Hnames & _).
  rewrite (r_loop_over _ _ _ _ _ Hr), app_nil_r in Htasks
    by (by rewrite Hmain).
  by rewrite Hnames, <- Htasks in Hms.
Qed.

End PassClaims.

(** ** Writes to the observation table *)

Section Writes.

Import OutputParser TaskFetching.


(** A task whose id is a key of the seeded table is executed all the
    same, and its write replaces the seeded observation. *)
Example seeded_id_is_rewritten :
  let seed :=
    [Function {| fm_name := "search"; fm_content := "seed";
                 fm_idx := Some 1%Z; fm_tool_call_id := "1" |}] in
  _get_observations seed !! 1%Z = Some (VStr "seed")
  ∧ (snd <$> schedule_tasks_run seed [join_task 1] None (replicate 5 Main))
    = Some {| observations := {[1%Z := VStr "join"]};
              task_names := {[1%Z := "join"]};
              originals := {[1%Z]}; tasks_iter := [];
              tasks_iter_raises := None; futures := [];
              main := MReturned [] |}.
Proof. split; by vm_compute. Qed.


Lemma wrote_written evs t tbl : Wrote t tbl ∈ evs → t ∈ written evs.
Proof. intros Hin. apply list_elem_of_omap. by exists (Wrote t tbl). Qed.

Lemma all_done_no_worker fs :
  all_done fs = true → fs ≫= held_by_worker = [].
Proof.
  induction fs as [|[t pc] fs IH]; [done|]. cbn [all_done forallb].
  intros [Hpc Hall]%andb_prop. rewrite bind_cons, IH by done.
  by destruct pc.
Qed.

Section DistinctIds.

Variable messages : list BaseMessage.
Variable tasks : list Task.
Variable raises : option Exn.
Hypothesis ids_distinct : NoDup (idx <$> tasks).
Hypothesis ids_new :
  ∀ t, t ∈ tasks → idx t ∉ dom (_get_observations messages).

(** A task in flight has no observation yet. *)
Lemma in_flight_unwritten evs s t :
  Reachable messages tasks raises evs s →
  t ∈ in_flight s →
  observations s !! idx t = None.
Proof.
  intros Hr Hin.
  destruct (r_consumed _ _ _ _ _ Hr) as (consumed & Htasks & _ & Hperm).
  assert (t ∈ consumed) as Hc
    by (rewrite Hperm; apply elem_of_app; by right).
  assert (NoDup (idx <$> (written evs ++ in_flight s))) as Hnd.
  { rewrite <- Hperm. pose proof ids_distinct as Hd.
    rewrite Htasks, fmap_app in Hd. by apply NoDup_app in Hd as [? _]. }
  rewrite fmap_app in Hnd. apply NoDup_app in Hnd as (_ & Hdisj & _).
  apply not_elem_of_dom. rewrite (r_dom _ _ _ _ _ Hr).
  intros [Hseed|Hw]%elem_of_union.
  - eapply ids_new; [|done]. rewrite Htasks. apply elem_of_app. by left.
  - apply elem_of_list_to_set in Hw.
    apply (Hdisj _ Hw). by apply list_elem_of_fmap_2.
Qed.

Lemma writes_fresh_step th s ev s' evs :
  Reachable messages tasks raises evs s →
  writes_fresh messages evs s →
  step th s = Some (ev, s') →
  writes_fresh messages (evs ++ ev) s'.
Proof.
  intros Hr [Hseed Hw] Hstep. unfold writes_fresh.
  destruct (step_observations _ _ _ _ Hstep)
    as [[Hobs Hno]|(t & v & -> & Hobs & Hin & _)].
  - rewrite Hobs. split; [done|].
    intros t tbl [Hin|Hin]%elem_of_app; [by apply Hw|].
    by apply Hno in Hin.
  - pose proof (in_flight_unwritten _ _ _ Hr Hin) as Hnone.
    assert (observations s ⊆ observations s') as Hsub
      by (rewrite Hobs; by apply insert_subseteq).
    split; [by etrans|].
    intros t' tbl [Hin'|Hin']%elem_of_app.
    + destruct (Hw _ _ Hin') as [? ?]. split; [done|by etrans].
    + apply list_elem_of_singleton in Hin'. by simplify_eq.
Qed.

Lemma writes_fresh_run_from schedule evs s evs' s' :
  Reachable messages tasks raises evs s →
  writes_fresh messages evs s →
  run schedule evs s = Some (evs', s') →
  writes_fresh messages evs' s'.
Proof.
  revert evs s. induction schedule as [|th rest IH]; intros evs s Hr Hw.
  - by intros [= <- <-].
  - cbn [run]. destruct (step th s) as [[ev s1]|] eqn:Hstep; [|done].
    apply IH; [by eapply Reachable_step|by eapply writes_fresh_step].
Qed.

Lemma values_ok_step th s ev s' evs :
  Reachable messages tasks raises evs s →
  executed_ok evs s →
  values_ok evs s →
  step th s = Some (ev, s') →
  values_ok (evs ++ ev) s'.
Proof.
  intros Hr Hex [Hb Hv] Hstep. unfold values_ok.
  destruct (step_observations _ _ _ _ Hstep)
    as [[Hobs Hno]|(t & v & -> & Hobs & Hin & Hholds)].
  - rewrite Hobs, written_app, (written_no_wrote ev), app_nil_r by done.
    split.
    + intros t tbl0 [Hin|Hin]%elem_of_app; [by eapply Hb|].
      by rewrite (step_began_table _ _ _ _ _ _ Hstep Hin).
    + intros t Hin. destruct (Hv _ Hin) as (tbl0 & ? & ?).
      exists tbl0. split; [|done]. apply elem_of_app. by left.
  - pose proof (in_flight_unwritten _ _ _ Hr Hin) as Hnone.
    assert (observations s ⊆ observations s') as Hsub
      by (rewrite Hobs; by apply insert_subseteq).
    split.
    + intros t' tbl0 [Hin'|Hin']%elem_of_app.
      * etrans; [by eapply Hb|done].
      * by apply list_elem_of_singleton in Hin'.
    + rewrite written_app. intros t' [Hin'|Hin']%elem_of_app.
      * destruct (Hv _ Hin') as (tbl0 & ? & ?). exists tbl0. split.
        -- apply elem_of_app. by left.
        -- by eapply lookup_weaken.
      * apply list_elem_of_singleton in Hin' as ->.
        destruct (Hex _ _ Hholds) as (tbl0 & ? & ->). exists tbl0. split.
        -- apply elem_of_app. by left.
        -- by rewrite Hobs, lookup_insert_eq.
Qed.

Lemma values_ok_run_from schedule evs s evs' s' :
  Reachable messages tasks raises evs s →
  executed_ok evs s →
  values_ok evs s →
  run schedule evs s = Some (evs', s') →
  values_ok evs' s'.
Proof.
  revert evs s. induction schedule as [|th rest IH]; intros evs s Hr Hex Hv.
  - by intros [= <- <-].
  - cbn [run]. destruct (step th s) as [[ev s1]|] eqn:Hstep; [|done].
    apply IH; [by eapply Reachable_step|by eapply executed_ok_step
              |by eapply values_ok_step].
Qed.

(** The record of every task of a pass that has returned: its content is
    the result of the task's own execution, on a table that is part of
    the final one. *)
Lemma returned_record_of_task schedule evs s ms t :
  schedule_tasks_run messages tasks raises schedule = Some (evs, s) →
  main s = MReturned ms →
  t ∈ tasks →
  ∃ m tbl0,
    m ∈ ms
    ∧ fm_idx m = Some (idx t)
    ∧ fm_name m = tool_name t
    ∧ fm_content m = py_str (_execute_task t tbl0)
    ∧ Began t tbl0 ∈ evs
    ∧ tbl0 ⊆ observations s.
Proof.
  intros Hrun Hmain Ht.
  pose proof (Reachable_run _ _ _ _ _ _ Hrun) as Hr.
  destruct (values_ok_run_from schedule [] _ evs s
              (Reachable_init _ _ _) (executed_ok_init _ _ _)) as [Hb Hv];
    [|done|].
  { split; [intros ?? Hin|intros ? Hin]; by apply elem_of_nil in Hin. }
  rewrite <- (returned_written _ _ _ _ _ _ Hr Hmain) in Ht.
  destruct (Hv _ Ht) as (tbl0 & Hbegan & Hobs).
  pose proof (returned_records _ _ _ _ _ _ Hr Hmain) as Hrec.
  assert (idx t ∈ new_keys (observations s) (dom (_get_observations messages)))
    as Hkey.
  { apply elem_of_new_keys. split; [by apply elem_of_dom|].
    apply ids_new. by rewrite <- (returned_written _ _ _ _ _ _ Hr Hmain). }
  apply list_elem_of_lookup in Hkey as [k Hk].
  destruct (Forall2_lookup_l _ _ _ _ _ Hrec Hk)
    as (m & Hm & Hidx & Hname & (v & Hv' & Hcontent) & _).
  exists m, tbl0. split_and!; [by eapply list_elem_of_lookup_2|done| | |done|].
  - destruct (names_of_lookup _ _ _ Hname) as (t0 & Hin0 & Hi0 & <-).
    f_equal. apply (NoDup_idx_eq tasks); [done..| |done].
    by rewrite <- (returned_written _ _ _ _ _ _ Hr Hmain).
  - rewrite Hcontent. rewrite Hobs in Hv'. by injection Hv' as <-.
  - by eapply Hb.
Qed.

End DistinctIds.


End Writes.

(** ** Progress of a pass *)

Section Progress.

Import OutputParser TaskFetching.

Lemma run_app sched1 sched2 evs s :
  run (sched1 ++ sched2) evs s
    = match run sched1 evs s with
      | Some (evs1, s1) => run sched2 evs1 s1
      | None => None
      end.
Proof.
  revert evs s. induction sched1 as [|th rest IH]; intros evs s; [done|].
  cbn [app run]. destruct (step th s) as [[ev s1]|]; [apply IH|done].
Qed.

(** Once every pulled task has written, the closing loop finds a name
    for every new key. *)
Lemma tool_messages_total messages tasks raises evs s :
  Reachable messages tasks raises evs s →
  in_flight s = [] →
  ∃ ms, tool_messages (observations s) (task_names s) (originals s) = Ok ms.
Proof.
  intros Hr Hfl. apply tool_messages_for_total.
  intros i [Hdom Horig]%elem_of_new_keys. split; [|by apply elem_of_dom].
  rewrite (r_originals _ _ _ _ _ Hr) in Horig.
  rewrite (r_dom _ _ _ _ _ Hr) in Hdom.
  apply elem_of_union in Hdom as [?|Hw]; [done|].
  apply elem_of_list_to_set, list_elem_of_fmap in Hw as (t & -> & Ht).
  destruct (r_consumed _ _ _ _ _ Hr) as (consumed & _ & -> & Hperm).
  apply names_of_dom. rewrite Hperm, Hfl, app_nil_r. done.
Qed.


(** *** A pass can return *)

Lemma unmet_false_2 deps (obs : Observations) :
  (∀ d, d ∈ deps → is_Some (obs !! d)) → unmet deps obs = false.
Proof.
  intros Hall. destruct deps as [|d0 deps]; [done|]. unfold unmet.
  apply not_true_is_false. intros (d & Hd & Hnone)%existsb_exists.
  apply list_elem_of_In, Hall in Hd as [v Hv].
  apply bool_decide_eq_true_1 in Hnone. congruence.
Qed.

(** The main thread can always finish the task it holds and pull what is
    left of the stream. *)
Lemma main_drains n evs s :
  main_rank s ≤ n → main_working s →
  ∃ sched evs' s',
    run sched evs s = Some (evs', s')
    ∧ main s' = MLoop ∧ tasks_iter s' = []
    ∧ tasks_iter_raises s' = tasks_iter_raises s.
Proof.
  revert evs s. induction n as [|n IH]; intros evs s Hn Hw;
    destruct s as [obs names orig iter raises futs pc];
    unfold main_rank, main_working in Hn, Hw; cbn [main tasks_iter] in Hn, Hw.
  - destruct iter; [|cbn in Hn; lia].
    destruct pc; try done; try lia. eexists [], evs, _. by split_and!.
  - destruct pc as [|t|t v| | | |]; try done.
    + destruct iter as [|t ts]; [eexists [], evs, _; by split_and!|].
      destruct (step Main {| observations := obs; task_names := names;
                             originals := orig; tasks_iter := t :: ts;
                             tasks_iter_raises := raises; futures := futs;
                             main := MLoop |}) as [[ev s1]|] eqn:Hstep;
        [|done].
      destruct (IH (evs ++ ev) s1) as (sched & evs' & s' & Hrun & ? & ? & Hr).
      * cbn in Hstep. injection Hstep as <- <-.
        unfold main_rank. cbn [main tasks_iter length] in *.
        destruct (unmet _ _); lia.
      * cbn in Hstep. injection Hstep as <- <-.
        unfold main_working. cbn [main]. by destruct (unmet _ _).
      * exists (Main :: sched), evs', s'. cbn [run]. rewrite Hstep.
        split_and!; [done..|]. rewrite Hr.
        cbn in Hstep. by injection Hstep as <- <-.
    + edestruct (IH (evs ++ [Began t obs]))
        as (sched & evs' & s' & Hrun & ? & ? & Hr);
        [| |exists (Main :: sched), evs', s'; cbn [run step step_main main];
            split_and!; [exact Hrun|done..]].
      * unfold main_rank, set_main. cbn [main tasks_iter] in *. lia.
      * done.
    + edestruct (IH (evs ++ [Wrote t obs]))
        as (sched & evs' & s' & Hrun & ? & ? & Hr);
        [| |exists (Main :: sched), evs', s'; cbn [run step step_main main];
            split_and!; [exact Hrun|done..]].
      * unfold main_rank, set_main, set_observations.
        cbn [main tasks_iter] in *. lia.
      * done.
Qed.


Lemma unmet_grow deps (o o' : Observations) :
  dom o ⊆ dom o' → unmet deps o = false → unmet deps o' = false.
Proof.
  intros Hsub Hu. apply unmet_false_2. intros d Hd.
  eapply is_Some_grow; [done|]. by eapply unmet_false.
Qed.

(** A worker whose task has its dependencies moves on. *)
Lemma worker_advances s i t pc :
  futures s !! i = Some (t, pc) →
  pc ≠ WDone →
  unmet (dependencies t) (observations s) = false →
  ∃ ev s1 pc1,
    step (Worker i) s = Some (ev, s1)
    ∧ futures s1 = <[i := (t, pc1)]> (futures s)
    ∧ main s1 = main s
    ∧ tasks_iter s1 = tasks_iter s
    ∧ tasks_iter_raises s1 = tasks_iter_raises s
    ∧ pc_rank pc1 < pc_rank pc
    ∧ dom (observations s) ⊆ dom (observations s1).
Proof.
  intros Hi Hpc Hu. unfold step, step_worker. rewrite Hi.
  destruct pc as [| | |v|]; [..|done]; rewrite ?Hu;
    eexists _, _, _; (split; [reflexivity|]); cbn; split_and!; try done;
    try (cbn [pc_rank]; lia).
  rewrite dom_insert_L. apply union_subseteq_r.
Qed.

Lemma worker_finishes n evs s i t pc :
  pc_rank pc ≤ n →
  futures s !! i = Some (t, pc) →
  unmet (dependencies t) (observations s) = false →
  ∃ sched evs' s',
    run sched evs s = Some (evs', s')
    ∧ futures s' = <[i := (t, WDone)]> (futures s)
    ∧ main s' = main s
    ∧ tasks_iter s' = tasks_iter s
    ∧ tasks_iter_raises s' = tasks_iter_raises s.
Proof.
  revert evs s pc. induction n as [|n IH]; intros evs s pc Hn Hi Hu.
  - destruct pc; cbn in Hn; try lia.
    exists [], evs, s. split_and!; [done| |done..].
    by rewrite list_insert_id.
  - destruct (decide (pc_rank pc = 0)) as [H0|H0].
    { destruct pc; cbn in H0; try lia.
      exists [], evs, s. split_and!; [done| |done..].
      by rewrite list_insert_id. }
    destruct (worker_advances s i t pc Hi) as
      (ev & s1 & pc1 & Hstep & Hf & Hm & Hit & Hr & Hrank & Hdom).
    { by intros ->. }
    { done. }
    destruct (IH (evs ++ ev) s1 pc1) as (sched & evs' & s' & Hrun & Hf' & ? & ? & ?).
    + lia.
    + rewrite Hf. apply list_lookup_insert_eq. by eapply lookup_lt_Some.
    + by eapply unmet_grow.
    + exists (Worker i :: sched), evs', s'. cbn [run]. rewrite Hstep.
      split_and!; [done| |congruence..].
      by rewrite Hf', Hf, list_insert_insert_eq.
Qed.

Lemma least_task (l : list Task) :
  l ≠ [] → ∃ t, t ∈ l ∧ ∀ t', t' ∈ l → (idx t ≤ idx t')%Z.
Proof.
  induction l as [|x l IH]; [done|]. intros _.
  destruct l as [|y l].
  - exists x. split; [left|]. by intros t' ->%list_elem_of_singleton.
  - destruct IH as (t & Hin & Hle); [done|].
    destruct (decide (idx x ≤ idx t)%Z).
    + exists x. split; [left|].
      intros t' [->|Hin']%elem_of_cons; [done|].
      specialize (Hle _ Hin'). lia.
    + exists t. split; [by right|].
      intros t' [->|Hin']%elem_of_cons; [lia|by apply Hle].
Qed.

Lemma held_by_worker_lookup fs t :
  t ∈ fs ≫= held_by_worker → ∃ i pc, fs !! i = Some (t, pc) ∧ pc ≠ WDone.
Proof.
  intros ([t' pc] & Hin & Hf)%list_elem_of_bind.
  apply list_elem_of_lookup in Hf as [i Hi].
  unfold held_by_worker in Hin. cbn in Hin.
  destruct pc; try (by apply elem_of_nil in Hin);
    apply list_elem_of_singleton in Hin as ->; by eexists i, _.
Qed.

Lemma no_worker_all_done fs :
  fs ≫= held_by_worker = [] → all_done fs = true.
Proof.
  induction fs as [|[t pc] fs IH]; [done|]. rewrite bind_cons.
  intros [H1 H2]%app_eq_nil. cbn [all_done forallb].
  fold (all_done fs). rewrite IH by done. by destruct pc.
Qed.

Section WellFounded.

Variable messages : list BaseMessage.
Variable tasks : list Task.
Variable raises : option Exn.
Hypothesis plan_wf : plan_well_founded (_get_observations messages) tasks.

(** With the stream pulled to its end, the task of least id among those
    in flight has all its dependencies in the table. *)
Lemma least_in_flight_ready evs s t :
  Reachable messages tasks raises evs s →
  tasks_iter s = [] →
  t ∈ in_flight s →
  (∀ t', t' ∈ in_flight s → (idx t ≤ idx t')%Z) →
  unmet (dependencies t) (observations s) = false.
Proof.
  intros Hr Hiter Hin Hleast. apply unmet_false_2. intros d Hd.
  destruct (r_consumed _ _ _ _ _ Hr) as (consumed & Htasks & _ & Hperm).
  rewrite Hiter, app_nil_r in Htasks. subst consumed.
  apply elem_of_dom. rewrite (r_dom _ _ _ _ _ Hr).
  destruct (plan_wf t d) as [Hseed|(t' & Ht' & <- & Hlt)]; [|done| |].
  - rewrite Hperm. apply elem_of_app. by right.
  - apply elem_of_union. by left.
  - apply elem_of_union. right. apply elem_of_list_to_set.
    apply list_elem_of_fmap_2.
    rewrite Hperm in Ht'. apply elem_of_app in Ht' as [?|Hfl]; [done|].
    specialize (Hleast _ Hfl). lia.
Qed.

(** With the stream pulled to its end, the workers can all finish, the
    one whose task has the least id first. *)
Lemma workers_finish n evs s :
  length (futures s ≫= held_by_worker) ≤ n →
  Reachable messages tasks raises evs s →
  main s = MLoop → tasks_iter s = [] →
  ∃ sched evs' s',
    run sched evs s = Some (evs', s')
    ∧ main s' = MLoop ∧ tasks_iter s' = []
    ∧ tasks_iter_raises s' = tasks_iter_raises s
    ∧ all_done (futures s') = true.
Proof.
  revert evs s. induction n as [|n IH]; intros evs s Hn Hr Hm Hi.
  - exists [], evs, s. split_and!; [done..|].
    apply no_worker_all_done. by apply nil_length_inv, Nat.le_0_r.
  - destruct (futures s ≫= held_by_worker) as [|t0 l0] eqn:Hfl.
    { exists [], evs, s. split_and!; [done..|]. by apply no_worker_all_done. }
    destruct (least_task (t0 :: l0)) as (t & Hin & Hleast); [done|].
    rewrite <- Hfl in Hin, Hleast.
    destruct (held_by_worker_lookup _ _ Hin) as (i & pc & Hlook & Hpc).
    assert (in_flight s = futures s ≫= held_by_worker) as Hinfl
      by (unfold in_flight; by rewrite Hm).
    destruct (worker_finishes (pc_rank pc) evs s i t pc)
      as (sched1 & evs1 & s1 & Hrun1 & Hf1 & Hm1 & Hi1 & Hr1); [done..| |].
    { eapply least_in_flight_ready; rewrite ?Hinfl; done. }
    destruct (IH evs1 s1) as (sched2 & evs2 & s2 & Hrun2 & ? & ? & ? & ?).
    + destruct (held_by_worker_insert (futures s) i t pc WDone Hlook Hpc)
        as [[Hperm _]|[_ ?]]; [|done].
      rewrite Hf1. apply Permutation_length in Hperm.
      rewrite Hfl in Hperm. cbn [length] in Hperm, Hn. lia.
    + by eapply Reachable_run_from.
    + congruence.
    + congruence.
    + exists (sched1 ++ sched2), evs2, s2. rewrite run_app, Hrun1.
      split_and!; [done..|congruence|done].
Qed.

End WellFounded.

(** A pass over a plan in which every dependency is seeded or is the id
    of a task of a lesser id can return, from every state in which the
    main thread is still at work: the main thread pulls the stream to its
    end, the workers finish in the order of their ids, and the closing
    loop finds every name it asks for. *)
Lemma pass_can_return messages tasks evs s :
  plan_well_founded (_get_observations messages) tasks →
  Reachable messages tasks None evs s →
  main_working s →
  ∃ sched evs' s' ms,
    run sched evs s = Some (evs', s') ∧ main s' = MReturned ms.
Proof.
  intros Hwf Hr Hw.
  destruct (main_drains (main_rank s) evs s)
    as (sched1 & evs1 & s1 & Hrun1 & Hm1 & Hi1 & Hr1); [done..|].
  pose proof (Reachable_run_from _ _ _ _ _ _ _ _ Hr Hrun1) as Hreach1.
  destruct (workers_finish messages tasks None Hwf
              (length (futures s1 ≫= held_by_worker)) evs1 s1)
    as (sched2 & evs2 & s2 & Hrun2 & Hm2 & Hi2 & Hr2 & Hdone); [done..|].
  pose proof (Reachable_run_from _ _ _ _ _ _ _ _ Hreach1 Hrun2) as Hreach2.
  rewrite (r_raises _ _ _ _ _ Hreach1) in Hr2.
  destruct (tool_messages_total _ _ _ _ _ Hreach2) as [ms Hms].
  { unfold in_flight. rewrite Hm2. cbn [held_by_main app].
    clear -Hdone. induction (futures s2) as [|[t pc] fs IH]; [done|].
    cbn [all_done forallb] in Hdone. apply andb_prop in Hdone as [Hpc Hall].
    rewrite bind_cons, IH by done. by destruct pc. }
  destruct s2 as [obs names orig iter raises futs pc].
  cbn [main tasks_iter tasks_iter_raises futures observations task_names
       originals] in *. subst pc iter raises.
  eexists (sched1 ++ sched2 ++ [Main; Main]), _, _, ms.
  rewrite run_app, Hrun1, run_app, Hrun2.
  cbn [run step step_main main tasks_iter tasks_iter_raises set_main futures
       observations task_names originals].
  rewrite Hdone, Hms. done.
Qed.

(** From its first state such a pass can return. *)
Lemma schedule_tasks_can_return messages tasks :
  plan_well_founded (_get_observations messages) tasks →
  ∃ schedule evs s ms,
    schedule_tasks_run messages tasks None schedule = Some (evs, s)
    ∧ main s = MReturned ms.
Proof.
  intros Hwf. apply (pass_can_return messages tasks); [done| |done].
  apply Reachable_init.
Qed.


End Progress.

(** ** Failing tools *)

Section Failures.

Import OutputParser TaskFetching.

Lemma _execute_task_raise task tl repr_e obs :
  tool task = ToolObj tl →
  invoke tl (resolve_args (args task) obs) = Raise repr_e →
  _execute_task task obs
    = VStr ("ERROR: Failed to execute " ++ name tl ++ ". " ++ repr_e).
Proof.
  intros Htool Hinv. unfold _execute_task, execute_resolved.
  by rewrite Htool, Hinv.
Qed.

(** A pass over a stream that does not raise never raises: no step
    takes the main thread to the unwinding of the pool or to an
    exception. *)
Lemma step_never_raises messages tasks evs th s ev s' :
  Reachable messages tasks None evs s →
  (∀ e, main s ≠ MUnwind e ∧ main s ≠ MRaised e) →
  step th s = Some (ev, s') →
  ∀ e, main s' ≠ MUnwind e ∧ main s' ≠ MRaised e.
Proof.
  intros Hr Hq Hstep e.
  destruct th as [|i]; cbn [step] in Hstep.
  - unfold step_main in Hstep.
    destruct (main s) eqn:Hmain.
    + destruct (tasks_iter s) as [|t rest].
      * rewrite (r_raises _ _ _ _ _ Hr) in Hstep. by simplify_eq.
      * simplify_eq. cbn [main]. by destruct (unmet _ _).
    + by simplify_eq.
    + by simplify_eq.
    + destruct (all_done (futures s)) eqn:Hdone; [|done].
      destruct (tool_messages_total _ _ _ _ _ Hr) as [ms Hms].
      { unfold in_flight. rewrite Hmain. cbn [held_by_main app].
        by apply all_done_no_worker. }
      rewrite Hms in Hstep. by simplify_eq.
    + by destruct (Hq e0) as [? _].
    + done.
    + done.
  - unfold step_worker in Hstep.
    destruct (futures s !! i) as [[t pc]|]; [|done].
    destruct pc; try destruct (unmet _ _); simplify_eq; apply Hq.
Qed.

Lemma run_never_raises messages tasks schedule evs s evs' s' :
  Reachable messages tasks None evs s →
  (∀ e, main s ≠ MUnwind e ∧ main s ≠ MRaised e) →
  run schedule evs s = Some (evs', s') →
  ∀ e, main s' ≠ MUnwind e ∧ main s' ≠ MRaised e.
Proof.
  revert evs s. induction schedule as [|th rest IH]; intros evs s Hr Hq.
  - by intros [= <- <-].
  - cbn [run]. destruct (step th s) as [[ev s1]|] eqn:Hstep; [|done].
    apply IH; [by eapply Reachable_step|by eapply step_never_raises].
Qed.


End Failures.

(** ** Placeholders in stringified values *)

Section Stoppers.

Import Re.

Lemma take_while_app_stop {A} (p : A → bool) x c b :
  p c = false → take_while p (x ++ c :: b) = take_while p x.
Proof.
  intros Hc. induction x as [|a x IH]; cbn; [by rewrite Hc|].
  destruct (p a); [by rewrite IH|done].
Qed.

Lemma take_while_length {A} (p : A → bool) x :
  length (take_while p x) ≤ length x.
Proof. induction x as [|a x IH]; cbn; [done|]. destruct (p a); cbn; lia. Qed.

Lemma match_id_unfold s :
  match_id s
    = match s with
      | c :: r =>
          if bool_decide (c = "$"%char) then
            match r with
            | b :: r' =>
                if bool_decide (b = "{"%char)
                then (λ gn : text * nat, (gn.1, 2 + gn.2)) <$> digits_and_brace r'
                else (λ gn : text * nat, (gn.1, 1 + gn.2)) <$> digits_and_brace r
            | [] => None
            end
          else None
      | [] => None
      end.
Proof.
  destruct s as [|c r]; [done|]. cbn [match_id].
  case_bool_decide; [|done].
  destruct r as [|b r']; [done|].
  unfold digits_and_brace.
  case_bool_decide; (destruct (take_while _ _); [done|]); cbn;
    do 2 f_equal; lia.
Qed.

Lemma digits_and_brace_app_stop x c b :
  stopper c → digits_and_brace (x ++ c :: b) = digits_and_brace x.
Proof.
  intros (_ & _ & Hb & Hd). unfold digits_and_brace.
  rewrite take_while_app_stop by done.
  destruct (take_while is_digit x) as [|d ds] eqn:Hds; [done|].
  pose proof (take_while_length is_digit x) as Hlen. rewrite Hds in Hlen.
  rewrite drop_app_le by done.
  destruct (drop (length (d :: ds)) x); [|done].
  cbn. by rewrite bool_decide_eq_false_2.
Qed.

Lemma digits_and_brace_length x g n :
  digits_and_brace x = Some (g, n) → n ≤ length x.
Proof.
  unfold digits_and_brace.
  destruct (take_while is_digit x) as [|d ds] eqn:Hds; [done|].
  intros [= <- <-].
  pose proof (take_while_length is_digit x) as Hlen. rewrite Hds in Hlen.
  pose proof (length_drop x (length (d :: ds))) as Hdrop.
  cbn [length] in *.
  destruct (drop (S (length ds)) x) as [|b0 rest]; cbn [length] in *;
    [lia|].
  case_bool_decide; lia.
Qed.

Lemma match_id_app_stop a c b :
  stopper c → a ≠ [] → match_id (a ++ c :: b) = match_id a.
Proof.
  intros Hc Ha. rewrite !match_id_unfold.
  destruct a as [|d r]; [done|]. cbn [app].
  case_bool_decide; [|done].
  destruct r as [|b0 r'].
  - cbn [app]. destruct Hc as (_ & Hl & _ & Hd).
    rewrite bool_decide_eq_false_2 by done.
    unfold digits_and_brace. cbn. by rewrite Hd.
  - change ((b0 :: r') ++ c :: b) with (b0 :: (r' ++ c :: b)).
    cbn beta iota. case_bool_decide.
    + by rewrite digits_and_brace_app_stop.
    + change (b0 :: (r' ++ c :: b)) with ((b0 :: r') ++ c :: b).
      by rewrite digits_and_brace_app_stop.
Qed.

Lemma match_id_bound a g len : match_id a = Some (g, len) → len ≤ length a.
Proof.
  rewrite match_id_unfold. destruct a as [|d r]; [done|].
  case_bool_decide; [|done]. destruct r as [|b0 r']; [done|].
  case_bool_decide.
  - destruct (digits_and_brace r') as [[g' n]|] eqn:Hd; [|done].
    intros [= <- <-]. apply digits_and_brace_length in Hd. cbn in *. lia.
  - destruct (digits_and_brace (b0 :: r')) as [[g' n]|] eqn:Hd; [|done].
    intros [= <- <-]. apply digits_and_brace_length in Hd. cbn in *. lia.
Qed.

Lemma match_id_not_dollar c r : c ≠ "$"%char → match_id (c :: r) = None.
Proof. intros Hc. cbn. by rewrite bool_decide_eq_false_2. Qed.

(** A stopper ends whatever match is under way: the scan of the text
    before it does not depend on what follows. *)
Lemma scan_ids_app_stop a c b skip :
  stopper c → skip ≤ length a →
  scan_ids skip (a ++ c :: b) = scan_ids skip a ++ Lit c :: scan_ids 0 b.
Proof.
  intros Hc. revert skip. induction a as [|x r IH]; intros skip Hskip.
  - destruct skip; [|cbn in Hskip; lia]. cbn [app].
    rewrite scan_ids_cons, match_id_not_dollar by apply Hc. done.
  - destruct skip as [|k].
    + change ((x :: r) ++ c :: b) with (x :: (r ++ c :: b)).
      rewrite !scan_ids_cons.
      change (x :: (r ++ c :: b)) with ((x :: r) ++ c :: b).
      rewrite match_id_app_stop by done.
      destruct (match_id (x :: r)) as [[g len]|] eqn:Hm.
      * pose proof (match_id_bound _ _ _ Hm) as Hlen.
        pose proof (match_id_length _ _ _ Hm) as Hlen2.
        rewrite take_app_le by done.
        rewrite IH by (cbn in Hlen; lia). done.
      * by rewrite IH by lia.
    + cbn [app scan_ids]. apply IH. cbn in Hskip. lia.
Qed.

Lemma findall_ids_app_stop a c b :
  stopper c → findall_ids (a ++ c :: b) = findall_ids a ++ findall_ids b.
Proof.
  intros Hc. unfold findall_ids.
  rewrite scan_ids_app_stop by (done || lia).
  by rewrite omap_app.
Qed.

(** Text without a dollar sign holds no match and ends none. *)
Lemma findall_ids_inert x b :
  "$"%char ∉ x → findall_ids (x ++ b) = findall_ids b.
Proof.
  induction x as [|c x IH]; [done|].
  intros [Hc Hx]%not_elem_of_cons. cbn [app]. unfold findall_ids.
  rewrite scan_ids_cons, match_id_not_dollar by done. cbn [omap].
  by apply IH.
Qed.

End Stoppers.

Section ReprFacts.

Import Re.

Lemma nonprintable_stopper c : is_printable c = false → stopper c.
Proof.
  destruct c as [[] [] [] [] [] [] [] []]; vm_compute; intros Hp;
    try discriminate Hp; split_and!; done.
Qed.

Lemma hex_digit_not_dollar n : hex_digit n ≠ "$"%char.
Proof.
  unfold hex_digit. generalize (N.to_nat n) as k. intros k.
  do 16 (destruct k as [|k]; [done|]). by destruct k.
Qed.

Lemma stopper_backslash : stopper chr_backslash.
Proof. by vm_compute. Qed.

Lemma stopper_repr_quote s : stopper (repr_quote s).
Proof. unfold repr_quote. destruct (_ && _); by vm_compute. Qed.

(** [repr] writes a character as itself, or as an escape that begins
    with a backslash and holds no dollar sign; it escapes no character
    that a placeholder is made of. *)
Lemma repr_char_cases q c :
  stopper q →
  repr_char q c = [c]
  ∨ stopper c
    ∧ ∃ rest, repr_char q c = chr_backslash :: rest ∧ "$"%char ∉ rest.
Proof.
  intros Hq. unfold repr_char.
  destruct (decide (c = q)) as [->|Hcq].
  { rewrite bool_decide_eq_true_2 by done. cbn [orb]. right.
    split; [done|]. exists [q]. split; [done|].
    intros Heq%list_elem_of_singleton. destruct Hq as [Hq _]. by apply Hq. }
  rewrite (bool_decide_eq_false_2 (c = q)) by done. cbn [orb].
  destruct (decide (c = chr_backslash)) as [->|Hcb].
  { rewrite bool_decide_eq_true_2 by done. right.
    split; [apply stopper_backslash|]. exists [chr_backslash].
    split; [done|]. by intros ?%list_elem_of_singleton. }
  rewrite (bool_decide_eq_false_2 (c = chr_backslash)) by done.
  destruct (decide (c = chr_tab)) as [->|Hct].
  { rewrite bool_decide_eq_true_2 by done. right.
    split; [by vm_compute|]. exists ["t"%char].
    split; [done|]. by intros ?%list_elem_of_singleton. }
  rewrite (bool_decide_eq_false_2 (c = chr_tab)) by done.
  destruct (decide (c = chr_nl)) as [->|Hcn].
  { rewrite bool_decide_eq_true_2 by done. right.
    split; [by vm_compute|]. exists ["n"%char].
    split; [done|]. by intros ?%list_elem_of_singleton. }
  rewrite (bool_decide_eq_false_2 (c = chr_nl)) by done.
  destruct (decide (c = chr_cr)) as [->|Hcr].
  { rewrite bool_decide_eq_true_2 by done. right.
    split; [by vm_compute|]. exists ["r"%char].
    split; [done|]. by intros ?%list_elem_of_singleton. }
  rewrite (bool_decide_eq_false_2 (c = chr_cr)) by done.
  destruct (is_printable c) eqn:H5; [by left|].
  right. split; [by apply nonprintable_stopper|].
  exists ("x"%char :: hex2 c). split; [done|]. unfold hex2.
  intros [?|[Hh|[Hh|Hh]%elem_of_cons]%elem_of_cons]%elem_of_cons;
    [done|by eapply hex_digit_not_dollar..|by apply elem_of_nil in Hh].
Qed.

(** Escaping a text for [repr] changes none of its placeholders. *)
Lemma findall_ids_escaped q s p :
  stopper q →
  findall_ids (p ++ (s ≫= repr_char q)) = findall_ids (p ++ s).
Proof.
  intros Hq. revert p. induction s as [|c r IH]; intros p; [done|].
  rewrite bind_cons.
  destruct (repr_char_cases q c Hq) as [->|(Hc & rest & -> & Hrest)].
  - cbn [app]. rewrite (cons_middle c p), (cons_middle c p r).
    rewrite !app_assoc. apply IH.
  - cbn [app]. rewrite !findall_ids_app_stop by (done || apply stopper_backslash).
    f_equal. rewrite findall_ids_inert by done. apply (IH []).
Qed.

Lemma findall_ids_repr_str s b :
  findall_ids (repr_str s ++ b) = findall_ids s ++ findall_ids b.
Proof.
  unfold repr_str. pose proof (stopper_repr_quote s) as Hq.
  set (q := repr_quote s) in *.
  change ((q :: (s ≫= repr_char q) ++ [q]) ++ b)
    with ([q] ++ (((s ≫= repr_char q) ++ [q]) ++ b)).
  rewrite findall_ids_inert.
  - rewrite <- app_assoc. cbn [app].
    rewrite findall_ids_app_stop by done. f_equal.
    by apply (findall_ids_escaped _ _ []).
  - intros Hin%list_elem_of_singleton. destruct Hq as [Hq _]. by apply Hq.
Qed.

Lemma text_of_uint_inert d : "$"%char ∉ text_of_uint d.
Proof.
  induction d; cbn; try apply not_elem_of_nil;
    (apply not_elem_of_cons; split; [done|assumption]).
Qed.

Lemma str_int_inert z : "$"%char ∉ str_int z.
Proof.
  unfold str_int. destruct (Z.to_int z).
  - apply text_of_uint_inert.
  - apply not_elem_of_cons. split; [done|apply text_of_uint_inert].
Qed.

End ReprFacts.

(** ** Dependencies of a task *)

Section Dependencies.

Import Re OutputParser.

Lemma Value_nested_ind (P : Value → Prop) :
  (∀ s, P (VStr s)) → (∀ z, P (VInt z)) → (∀ b, P (VBool b)) → P VNone →
  (∀ items, Forall P items → P (VList items)) →
  (∀ entries, Forall (λ kv, P kv.1 ∧ P kv.2) entries → P (VDict entries)) →
  ∀ v, P v.
Proof.
  intros Hs Hi Hb Hn Hl Hd.
  fix IH 1. intros [s|z|b| |items|entries]; [by auto..| |].
  - apply Hl. induction items as [|x items IHi]; constructor; [apply IH|done].
  - apply Hd. induction entries as [|[k x] entries IHe]; constructor;
      [split; apply IH|done].
Qed.

Lemma findall_ids_join sep (reprs : list text) (ids : list (list text)) :
  "$"%char ∉ sep →
  Forall2 (λ r i, ∀ b, findall_ids (r ++ b) = i ++ findall_ids b) reprs ids →
  ∀ b, findall_ids (join sep reprs ++ b) = concat ids ++ findall_ids b.
Proof.
  intros Hsep. induction 1 as [|r i reprs ids Hr Hrest IH]; intros b; [done|].
  destruct Hrest as [|r2 i2 reprs ids Hr2 Hrest].
  - cbn [join concat]. by rewrite Hr, app_nil_r.
  - change (join sep (r :: r2 :: reprs))
      with (r ++ sep ++ join sep (r2 :: reprs)).
    rewrite <- !app_assoc, Hr, findall_ids_inert by done.
    rewrite IH. cbn [concat]. by rewrite !app_assoc.
Qed.

(** The matches in the [repr] of a value are the placeholders of the
    value, in order, and the [repr] ends every match it begins. *)
Lemma findall_ids_py_repr v b :
  findall_ids (py_repr v ++ b) = placeholder_ids v ++ findall_ids b.
Proof.
  revert b. induction v as [s|z|[]| |items IH|entries IH]
    using Value_nested_ind; intros b; cbn [py_repr placeholder_ids].
  - apply findall_ids_repr_str.
  - apply findall_ids_inert, str_int_inert.
  - apply findall_ids_inert. compute_done.
  - apply findall_ids_inert. compute_done.
  - apply findall_ids_inert. compute_done.
  - rewrite <- !app_assoc, (findall_ids_inert "[") by compute_done.
    rewrite (findall_ids_join ", " _ (map placeholder_ids items)).
    + rewrite (findall_ids_inert "]") by compute_done.
      by rewrite flat_map_concat_map.
    + compute_done.
    + induction IH as [|x items Hx _ IHf]; constructor; [exact Hx|done].
  - rewrite <- !app_assoc, (findall_ids_inert "{") by compute_done.
    rewrite (findall_ids_join ", " _
               (map (λ '(k, x), placeholder_ids k ++ placeholder_ids x)
                    entries)).
    + rewrite (findall_ids_inert "}") by compute_done.
      by rewrite flat_map_concat_map.
    + compute_done.
    + induction IH as [|[k x] entries [Hk Hx] _ IHf]; constructor; [|done].
      intros b'. cbn [fst snd] in *.
      rewrite <- !app_assoc, Hk, (findall_ids_inert ": ") by
        compute_done.
      by rewrite Hx, app_assoc.
Qed.

Lemma findall_ids_py_str v : findall_ids (py_str v) = placeholder_ids v.
Proof.
  destruct v as [s|z|b| |items|entries]; [done|..];
    unfold py_str;
    match goal with
    | |- findall_ids (py_repr ?v) = _ =>
        rewrite <- (app_nil_r (py_repr v)), findall_ids_py_repr;
        apply app_nil_r
    end.
Qed.


End Dependencies.

(** ** Executions, deadlocks and exceptions of a pass *)

Section Once.

Import OutputParser TaskFetching.

Ltac pass_step Hstep :=
  match type of Hstep with
  | step ?th ?s = _ =>
      destruct s as [obs names orig iter raises futs pc];
      destruct th as [|i];
      unfold step, step_main, step_worker, set_main, set_future,
        set_observations in Hstep;
      cbn [main tasks_iter observations task_names originals
           tasks_iter_raises futures] in *;
      repeat case_match; simplify_eq;
      cbn [main tasks_iter observations task_names originals
           tasks_iter_raises futures] in *
  end.

Lemma began_app evs ev : began (evs ++ ev) = began evs ++ began ev.
Proof. unfold began. apply omap_app. Qed.

Lemma bind_insert_middle {A B} (g : A → list B) (fs : list A) i x y :
  fs !! i = Some x →
  ∃ rest, fs ≫= g ≡ₚ g x ++ rest ∧ <[i := y]> fs ≫= g ≡ₚ g y ++ rest.
Proof.
  intros Hi. exists ((take i fs ++ drop (S i) fs) ≫= g).
  rewrite <- (take_drop_middle fs i x) at 1 by done.
  rewrite insert_take_drop by (by eapply lookup_lt_Some).
  rewrite !bind_app, !bind_cons. split.
  - by rewrite (assoc (++)), (comm (++) _ (g x)), <- (assoc (++)).
  - by rewrite (assoc (++)), (comm (++) _ (g y)), <- (assoc (++)).
Qed.

(** The executions begun are those written and those whose observation
    a thread still holds. *)
Lemma began_step th s ev s' evs :
  began evs ≡ₚ written evs ++ executed_unwritten s →
  step th s = Some (ev, s') →
  began (evs ++ ev) ≡ₚ written (evs ++ ev) ++ executed_unwritten s'.
Proof.
  intros Hb Hstep. rewrite began_app, written_app.
  unfold executed_unwritten in *.
  pass_step Hstep;
    cbn [began written omap result_of_main app] in *; rewrite ?app_nil_r.
  all: try done.
  all: repeat match goal with
       | |- context [began [Began ?t ?o]] =>
           change (began [Began t o]) with [t]
       | |- context [written [Wrote ?t ?o]] =>
           change (written [Wrote t o]) with [t]
       end.
  - rewrite bind_app, bind_singleton. cbn. by rewrite app_nil_r.
  - rewrite Hb. by rewrite <- !Permutation_middle, app_nil_r.
  - rewrite Hb. rewrite <- !app_assoc. cbn. by rewrite <- Permutation_middle.
  - destruct (bind_insert_middle result_of_worker futs i _ (t, WPolling)
                ltac:(eassumption)) as (rest & Hold & Hnew).
    by rewrite Hb, Hold, Hnew.
  - destruct (bind_insert_middle result_of_worker futs i _ (t, WReady)
                ltac:(eassumption)) as (rest & Hold & Hnew).
    by rewrite Hb, Hold, Hnew.
  - match goal with
    | |- context [(t, WExecuted ?v)] =>
        destruct (bind_insert_middle result_of_worker futs i _
                    (t, WExecuted v) ltac:(eassumption)) as (rest & Hold & Hnew)
    end.
    rewrite Hb, Hold, Hnew. cbn [result_of_worker fst snd app].
    by rewrite <- !Permutation_middle, app_nil_r.
  - destruct (bind_insert_middle result_of_worker futs i _ (t, WDone)
                ltac:(eassumption)) as (rest & Hold & Hnew).
    rewrite Hb, Hold, Hnew. cbn [result_of_worker fst snd app].
    rewrite <- !app_assoc. cbn. by rewrite <- !Permutation_middle.
Qed.

Lemma began_run_from schedule evs s evs' s' :
  began evs ≡ₚ written evs ++ executed_unwritten s →
  run schedule evs s = Some (evs', s') →
  began evs' ≡ₚ written evs' ++ executed_unwritten s'.
Proof.
  revert evs s. induction schedule as [|th rest IH]; intros evs s Hb.
  - by intros [= <- <-].
  - cbn [run]. destruct (step th s) as [[ev s1]|] eqn:Hstep; [|done].
    apply IH. by eapply began_step.
Qed.

Lemma began_run messages tasks raises schedule evs s :
  schedule_tasks_run messages tasks raises schedule = Some (evs, s) →
  began evs ≡ₚ written evs ++ executed_unwritten s.
Proof. by apply began_run_from. Qed.

Lemma executed_unwritten_in_flight s : executed_unwritten s ⊆+ in_flight s.
Proof.
  unfold executed_unwritten, in_flight. apply submseteq_app.
  - destruct (main s); cbn; try done. apply submseteq_nil_l.
  - induction (futures s) as [|[t pc] fs IH]; [done|].
    rewrite !bind_cons. apply submseteq_app; [|done].
    destruct pc; cbn; try done; apply submseteq_nil_l.
Qed.

(** An exception leaves the pass only once every worker is done. *)
Lemma step_raised_done th s ev s' :
  (∀ e, main s = MRaised e → all_done (futures s) = true) →
  step th s = Some (ev, s') →
  ∀ e, main s' = MRaised e → all_done (futures s') = true.
Proof.
  intros Hd Hstep e. pass_step Hstep; try done.
  all: intros ->; pose proof (Hd _ eq_refl) as Hall;
    by pose proof (all_done_lookup _ _ _ _ Hall ltac:(eassumption)).
Qed.

Lemma raised_done_run_from schedule evs s evs' s' :
  (∀ e, main s = MRaised e → all_done (futures s) = true) →
  run schedule evs s = Some (evs', s') →
  ∀ e, main s' = MRaised e → all_done (futures s') = true.
Proof.
  revert evs s. induction schedule as [|th rest IH]; intros evs s Hd.
  - by intros [= <- <-].
  - cbn [run]. destruct (step th s) as [[ev s1]|] eqn:Hstep; [|done].
    apply IH. by eapply step_raised_done.
Qed.

(** When the pass is over no thread holds a task. *)
Lemma pass_over_no_task messages tasks raises schedule evs s :
  schedule_tasks_run messages tasks raises schedule = Some (evs, s) →
  pass_over s →
  in_flight s = [] ∧ tasks_iter s = [] ∧ written evs ≡ₚ tasks.
Proof.
  intros Hrun Hover.
  pose proof (Reachable_run _ _ _ _ _ _ Hrun) as Hr.
  assert (all_done (futures s) = true ∧ held_by_main (main s) = []
          ∧ main s ≠ MLoop) as (Hdone & Hheld & Hloop).
  { unfold pass_over in Hover. destruct (main s) eqn:Hmain; try done.
    - by destruct (r_returned _ _ _ _ _ Hr _ Hmain).
    - split; [|done].
      eapply (raised_done_run_from schedule [] (init messages tasks raises));
        [done|exact Hrun|exact Hmain]. }
  assert (in_flight s = []) as Hfl.
  { unfold in_flight. by rewrite Hheld, all_done_no_worker. }
  pose proof (r_loop_over _ _ _ _ _ Hr Hloop Hheld) as Hiter.
  destruct (r_consumed _ _ _ _ _ Hr) as (consumed & -> & _ & ->).
  by rewrite Hfl, Hiter, !app_nil_r.
Qed.

(** X1. Every task of the stream is executed at most once, whatever the
    interleaving and however long a worker polls; no observation is
    written that was not computed by an execution; and when the pass is
    over, by a return or by an exception, every task the stream gave was
    executed exactly once and has written. *)
Theorem every_task_is_executed_once
    (messages : list BaseMessage) (tasks : list Task) (raises : option Exn)
    (schedule : list Thread) (evs : list Event) (s : Sched) :
  schedule_tasks_run messages tasks raises schedule = Some (evs, s) →
  began evs ⊆+ tasks
  ∧ written evs ⊆+ began evs
  ∧ (pass_over s → began evs ≡ₚ tasks ∧ written evs ≡ₚ tasks).
Proof.
  intros Hrun.
  pose proof (began_run _ _ _ _ _ _ Hrun) as Hb.
  pose proof (Reachable_run _ _ _ _ _ _ Hrun) as Hr.
  split_and!.
  - rewrite Hb.
    destruct (r_consumed _ _ _ _ _ Hr) as (consumed & -> & _ & Hperm).
    etrans; [|apply submseteq_inserts_r; reflexivity].
    rewrite Hperm. apply submseteq_app; [done|].
    apply executed_unwritten_in_flight.
  - rewrite Hb. by apply submseteq_inserts_r.
  - intros Hover.
    destruct (pass_over_no_task _ _ _ _ _ _ Hrun Hover) as (Hfl & _ & Hw).
    split; [|done]. rewrite Hb.
    pose proof (executed_unwritten_in_flight s) as Hsub.
    rewrite Hfl in Hsub. apply submseteq_nil_r in Hsub.
    by rewrite Hsub, app_nil_r.
Qed.

End Once.

Section Blocked.

Import OutputParser TaskFetching.

Ltac pass_step Hstep :=
  match type of Hstep with
  | step ?th ?s = _ =>
      destruct s as [obs names orig iter raises futs pc];
      destruct th as [|i];
      unfold step, step_main, step_worker, set_main, set_future,
        set_observations in Hstep;
      cbn [main tasks_iter observations task_names originals
           tasks_iter_raises futures] in *;
      repeat case_match; simplify_eq;
      cbn [main tasks_iter observations task_names originals
           tasks_iter_raises futures] in *
  end.

Variable messages : list BaseMessage.
Variable tasks : list Task.
Variable raises : option Exn.
Variable blocked : Task → Prop.
Hypothesis blocked_waits :
  ∀ t, blocked t → t ∈ tasks →
       ∃ d, d ∈ dependencies t
            ∧ (d ∉ dom (_get_observations messages))
            ∧ ∀ t', t' ∈ tasks → idx t' = d → blocked t'.

Lemma elem_of_began evs t : t ∈ began evs ↔ ∃ tbl, Began t tbl ∈ evs.
Proof.
  unfold began. rewrite list_elem_of_omap. split.
  - intros ([t' tbl|t' tbl] & Hin & [= ->]). by exists tbl.
  - intros [tbl Hin]. by exists (Began t tbl).
Qed.

Lemma in_flight_tasks evs s t :
  Reachable messages tasks raises evs s → t ∈ in_flight s → t ∈ tasks.
Proof.
  intros Hr Hin.
  destruct (r_consumed _ _ _ _ _ Hr) as (consumed & -> & _ & Hperm).
  apply elem_of_app. left. rewrite Hperm. apply elem_of_app. by right.
Qed.


(** No step begins the execution of a blocked task. *)
Lemma blocked_step th s ev s' evs :
  Reachable messages tasks raises evs s →
  began evs ≡ₚ written evs ++ executed_unwritten s →
  (∀ t, blocked t → t ∉ began evs) →
  step th s = Some (ev, s') →
  ∀ t, blocked t → t ∉ began (evs ++ ev).
Proof.
  intros Hr Hb Hnb Hstep t Hbl. rewrite began_app.
  intros [Hin|Hin]%elem_of_app; [by eapply Hnb|].
  apply elem_of_began in Hin as [tbl Hin].
  assert (t ∈ tasks) as Ht.
  { eapply in_flight_tasks; [exact Hr|].
    clear -Hstep Hin. unfold in_flight.
    pass_step Hstep; try (by apply elem_of_nil in Hin);
      apply list_elem_of_singleton in Hin; simplify_eq.
    - left.
    - apply elem_of_app. right. apply list_elem_of_bind.
      eexists. split; [|by eapply list_elem_of_lookup_2]. left. }
  destruct (blocked_waits t Hbl Ht) as (d & Hd & Hseed & Hall).
  pose proof (step_began _ _ _ _ t tbl d
                (r_ready_main _ _ _ _ _ Hr) (r_ready_worker _ _ _ _ _ Hr)
                Hstep Hin Hd) as Hsome.
  rewrite (step_began_table _ _ _ _ _ _ Hstep Hin) in Hsome.
  apply elem_of_dom in Hsome.
  rewrite (r_dom _ _ _ _ _ Hr) in Hsome.
  apply elem_of_union in Hsome as [?|Hw]; [done|].
  apply elem_of_list_to_set, list_elem_of_fmap in Hw as (t' & Hid & Hw).
  assert (t' ∈ began evs) as Hbeg
    by (rewrite Hb; apply elem_of_app; by left).
  assert (t' ∈ tasks) as Ht'.
  { destruct (r_consumed _ _ _ _ _ Hr) as (consumed & -> & _ & Hperm).
    apply elem_of_app. left. rewrite Hperm. apply elem_of_app. by left. }
  by apply (Hnb t' (Hall t' Ht' (eq_sym Hid))).
Qed.

Lemma blocked_run_from schedule evs s evs' s' :
  Reachable messages tasks raises evs s →
  began evs ≡ₚ written evs ++ executed_unwritten s →
  (∀ t, blocked t → t ∉ began evs) →
  run schedule evs s = Some (evs', s') →
  ∀ t, blocked t → t ∉ began evs'.
Proof.
  revert evs s. induction schedule as [|th rest IH]; intros evs s Hr Hb Hnb.
  - by intros [= <- <-].
  - cbn [run]. destruct (step th s) as [[ev s1]|] eqn:Hstep; [|done].
    apply IH; [by eapply Reachable_step|by eapply began_step
              |by eapply blocked_step].
Qed.

End Blocked.

Section BlockedClaims.

Import OutputParser TaskFetching.

(** X2. A set of tasks each of which waits for an id that is not seeded and
    that only tasks of the set could write is never executed: no tool of
    such a task is invoked, under any interleaving, the id it waits for
    never enters the table, and when the stream holds such a task the
    pass neither returns nor raises. This is the case of a dependency on
    an id no task has, of a task that depends on itself, and of tasks
    that depend on each other in a cycle. *)
Theorem blocked_tasks_never_run
    (messages : list BaseMessage) (tasks : list Task) (raises : option Exn)
    (blocked : Task → Prop)
    (schedule : list Thread) (evs : list Event) (s : Sched) :
  (∀ t, blocked t → t ∈ tasks →
        ∃ d, d ∈ dependencies t
             ∧ (d ∉ dom (_get_observations messages))
             ∧ ∀ t', t' ∈ tasks → idx t' = d → blocked t') →
  schedule_tasks_run messages tasks raises schedule = Some (evs, s) →
  (∀ t tbl, blocked t → Began t tbl ∉ evs)
  ∧ (∀ t, blocked t → t ∈ tasks →
       ∃ d, d ∈ dependencies t ∧ observations s !! d = None)
  ∧ ((∃ t, blocked t ∧ t ∈ tasks) → ¬ pass_over s).
Proof.
  intros Hwaits Hrun.
  pose proof (Reachable_run _ _ _ _ _ _ Hrun) as Hr.
  pose proof (began_run _ _ _ _ _ _ Hrun) as Hb.
  assert (∀ t, blocked t → t ∉ began evs) as Hnb.
  { eapply (blocked_run_from messages tasks raises blocked Hwaits schedule []);
      [apply Reachable_init|done| |exact Hrun].
    intros t _ Hin. by apply elem_of_nil in Hin. }
  split_and!.
  - intros t tbl Hbl Hin. apply (Hnb t Hbl). apply elem_of_began. by exists tbl.
  - intros t Hbl Ht. destruct (Hwaits t Hbl Ht) as (d & Hd & Hseed & Hall).
    exists d. split; [done|]. apply not_elem_of_dom.
    rewrite (r_dom _ _ _ _ _ Hr). intros [?|Hw]%elem_of_union; [done|].
    apply elem_of_list_to_set, list_elem_of_fmap in Hw as (t' & Hid & Hw).
    assert (t' ∈ tasks) as Ht'.
    { destruct (r_consumed _ _ _ _ _ Hr) as (consumed & -> & _ & Hperm).
      apply elem_of_app. left. rewrite Hperm. apply elem_of_app. by left. }
    apply (Hnb t' (Hall t' Ht' (eq_sym Hid))).
    rewrite Hb. apply elem_of_app. by left.
  - intros (t & Hbl & Ht) Hover.
    destruct (pass_over_no_task _ _ _ _ _ _ Hrun Hover) as (_ & _ & Hw).
    apply (Hnb t Hbl). rewrite Hb. apply elem_of_app. left. by rewrite Hw.
Qed.

End BlockedClaims.

Section StreamRaises.

Import OutputParser TaskFetching.

(** The exception the main thread unwinds with or has raised is the one
    of the task stream. *)
Lemma step_exception_origin messages tasks evs th s ev s' raises :
  Reachable messages tasks raises evs s →
  (∀ e, main s = MUnwind e ∨ main s = MRaised e → raises = Some e) →
  (raises ≠ None → main s ≠ MWait ∧ ∀ ms, main s ≠ MReturned ms) →
  step th s = Some (ev, s') →
  (∀ e, main s' = MUnwind e ∨ main s' = MRaised e → raises = Some e)
  ∧ (raises ≠ None → main s' ≠ MWait ∧ ∀ ms, main s' ≠ MReturned ms).
Proof.
  intros Hr Ho Hn Hstep.
  pose proof (r_raises _ _ _ _ _ Hr) as Hraises.
  destruct th as [|i]; cbn [step] in Hstep.
  - unfold step_main in Hstep.
    destruct (main s) eqn:Hmain.
    + destruct (tasks_iter s) as [|t rest].
      * rewrite Hraises in Hstep.
        destruct raises as [e0|]; simplify_eq; cbn [main set_main].
        -- split; [|done]. by intros e [[= ->]|[=]].
        -- split; [|done]. by intros e [[=]|[=]].
      * simplify_eq. cbn [main].
        destruct (unmet _ _); (split; [by intros e [[=]|[=]]|done]).
    + simplify_eq. cbn [main set_main]. split; [by intros e [[=]|[=]]|done].
    + simplify_eq. cbn [main set_main set_observations].
      split; [by intros e [[=]|[=]]|done].
    + destruct (all_done (futures s)) eqn:Hdone; [|done].
      destruct (tool_messages_total _ _ _ _ _ Hr) as [ms Hms].
      { unfold in_flight. rewrite Hmain. cbn [held_by_main app].
        by apply all_done_no_worker. }
      rewrite Hms in Hstep. simplify_eq. cbn [main set_main].
      split; [by intros e [[=]|[=]]|].
      intros Hsome. by destruct (Hn Hsome) as [? _].
    + destruct (all_done (futures s)); [|done]. simplify_eq.
      cbn [main set_main]. split; [|done].
      intros e' [[=]|[= <-]]. apply Ho. by left.
    + done.
    + done.
  - unfold step_worker in Hstep.
    destruct (futures s !! i) as [[t pc]|]; [|done].
    destruct pc; try destruct (unmet _ _); simplify_eq;
      cbn [main set_future set_observations]; by split.
Qed.

Lemma exception_origin_run messages tasks raises schedule evs s :
  schedule_tasks_run messages tasks raises schedule = Some (evs, s) →
  (∀ e, main s = MUnwind e ∨ main s = MRaised e → raises = Some e)
  ∧ (raises ≠ None → main s ≠ MWait ∧ ∀ ms, main s ≠ MReturned ms).
Proof.
  unfold schedule_tasks_run.
  assert (∀ sched evs0 s0,
            Reachable messages tasks raises evs0 s0 →
            (∀ e, main s0 = MUnwind e ∨ main s0 = MRaised e → raises = Some e) →
            (raises ≠ None → main s0 ≠ MWait ∧ ∀ ms, main s0 ≠ MReturned ms) →
            run sched evs0 s0 = Some (evs, s) →
            (∀ e, main s = MUnwind e ∨ main s = MRaised e → raises = Some e)
            ∧ (raises ≠ None → main s ≠ MWait ∧ ∀ ms, main s ≠ MReturned ms))
    as Hgen.
  { induction sched as [|th rest IH]; intros evs0 s0 Hr Ho Hn.
    - by intros [= <- <-].
    - cbn [run]. destruct (step th s0) as [[ev s1]|] eqn:Hstep; [|done].
      destruct (step_exception_origin _ _ _ _ _ _ _ _ Hr Ho Hn Hstep).
      apply IH; [by eapply Reachable_step|done..]. }
  apply Hgen; [apply Reachable_init| |done].
  by intros e [[=]|[=]].
Qed.

(** A pass whose stream ends in an exception can go on to raise it, when
    every dependency is seeded or is the id of a task of a lesser id. *)
Lemma pass_can_raise messages tasks e evs s :
  plan_well_founded (_get_observations messages) tasks →
  Reachable messages tasks (Some e) evs s →
  main_working s →
  ∃ sched evs' s',
    run sched evs s = Some (evs', s') ∧ main s' = MRaised e.
Proof.
  intros Hwf Hr Hw.
  destruct (main_drains (main_rank s) evs s)
    as (sched1 & evs1 & s1 & Hrun1 & Hm1 & Hi1 & Hr1); [done..|].
  pose proof (Reachable_run_from _ _ _ _ _ _ _ _ Hr Hrun1) as Hreach1.
  destruct (workers_finish messages tasks (Some e) Hwf
              (length (futures s1 ≫= held_by_worker)) evs1 s1)
    as (sched2 & evs2 & s2 & Hrun2 & Hm2 & Hi2 & Hr2 & Hdone); [done..|].
  rewrite (r_raises _ _ _ _ _ Hreach1) in Hr2.
  destruct s2 as [obs names orig iter raises futs pc].
  cbn [main tasks_iter tasks_iter_raises futures observations task_names
       originals] in *. subst pc iter raises.
  eexists (sched1 ++ sched2 ++ [Main; Main]), _, _.
  rewrite run_app, Hrun1, run_app, Hrun2.
  cbn [run step step_main main tasks_iter tasks_iter_raises set_main futures
       observations task_names originals].
  rewrite Hdone. done.
Qed.


End StreamRaises.

(** ** What an execution depends on *)

Section Frame.

Import Re OutputParser TaskFetching.

Lemma sub_ids_agree (obs1 obs2 : Observations) s :
  (∀ g, g ∈ findall_ids s →
        obs1 !! int_of_digits g = obs2 !! int_of_digits g) →
  sub_ids (replace_match obs1) s = sub_ids (replace_match obs2) s.
Proof.
  unfold sub_ids, findall_ids.
  induction (scan_ids 0 s) as [|seg segs IH]; intros Hagree; [done|].
  rewrite !bind_cons. f_equal.
  - destruct seg as [c|whole g]; [done|]. unfold replace_match.
    rewrite (Hagree g); [done|]. cbn [omap]. left.
  - apply IH. intros g Hg. apply Hagree.
    destruct seg as [c|whole g0]; cbn [omap]; [done|by right].
Qed.

Lemma _resolve_arg_agree v (obs1 obs2 : Observations) :
  (∀ g, g ∈ placeholder_ids v →
        obs1 !! int_of_digits g = obs2 !! int_of_digits g) →
  _resolve_arg v obs1 = _resolve_arg v obs2.
Proof.
  induction v as [s|z|b| |items IH|entries IH] using Value_nested_ind;
    intros Hagree; cbn [_resolve_arg]; try done.
  - f_equal. by apply sub_ids_agree.
  - f_equal. cbn [placeholder_ids] in Hagree.
    induction IH as [|x items Hx _ IHf]; [done|].
    cbn [map]. f_equal.
    + apply Hx. intros g Hg. apply Hagree. cbn [flat_map].
      apply elem_of_app. by left.
    + apply IHf. intros g Hg. apply Hagree. cbn [flat_map].
      apply elem_of_app. by right.
Qed.

Lemma resolve_args_agree (args : Dict) (obs1 obs2 : Observations) :
  (∀ key v g, (key, v) ∈ args → g ∈ placeholder_ids v →
              obs1 !! int_of_digits g = obs2 !! int_of_digits g) →
  resolve_args args obs1 = resolve_args args obs2.
Proof.
  unfold resolve_args. induction args as [|[k v] args IH]; intros Hagree;
    [done|].
  cbn [map fst snd]. f_equal.
  - f_equal. apply _resolve_arg_agree. intros g Hg.
    apply (Hagree k v g); [left|done].
  - apply IH. intros key v' g Hin Hg. apply (Hagree key v' g); [by right|done].
Qed.

Section Parsed.

Variable literal_eval : text → option Value.

(** The dependencies of an instantiated task cover the placeholders its
    arguments are resolved for. *)
Lemma instantiate_task_resolution tools n tname a th t
    (obs1 obs2 : Observations) :
  instantiate_task literal_eval tools n tname a th = Ok t →
  (∀ d, d ∈ dependencies t → obs1 !! d = obs2 !! d) →
  resolve_args (args t) obs1 = resolve_args (args t) obs2.
Proof.
  intros Hinst Hagree.
  unfold instantiate_task in Hinst. case_bool_decide as Hjoin.
  - simplify_eq. by destruct a.
  - destruct (lookup_tool tools tname) as [tl|]; [|done].
    simplify_eq. cbn [args dependencies] in *.
    apply resolve_args_agree. intros key v g Hin Hg. apply Hagree.
    unfold _get_dependencies_from_graph.
    rewrite bool_decide_eq_false_2 by done.
    apply elem_of_sorted_set, list_elem_of_bind. exists v. split.
    + unfold extract_deps. rewrite findall_ids_py_str.
      by apply list_elem_of_fmap_2.
    + unfold dict_values. apply list_elem_of_fmap. by exists (key, v).
Qed.

Lemma instantiate_task_frame tools n tname a th t :
  instantiate_task literal_eval tools n tname a th = Ok t →
  depends_only_on_dependencies t.
Proof.
  intros Hinst obs1 obs2 Hagree. unfold _execute_task.
  destruct (tool t); [done|].
  by rewrite (instantiate_task_resolution _ _ _ _ _ _ _ _ Hinst Hagree).
Qed.

(** X5. What a tool is invoked with depends on the entries of the table
    under the dependencies of the task only: the dependencies the parser
    computes cover every placeholder the resolution replaces. So a task
    the parser built gives the same observation on two tables that agree
    on its dependencies. *)
Theorem parsed_task_depends_only_on_dependencies
    (tools : list BaseTool) (n : Z) (tool_name arg_text : text)
    (thought : option text) (t : Task) (obs1 obs2 : Observations) :
  instantiate_task literal_eval tools n tool_name arg_text thought = Ok t →
  (∀ d, d ∈ dependencies t → obs1 !! d = obs2 !! d) →
  resolve_args (args t) obs1 = resolve_args (args t) obs2
  ∧ _execute_task t obs1 = _execute_task t obs2
  ∧ schedule_task t obs1 !! idx t = schedule_task t obs2 !! idx t.
Proof.
  intros Hinst Hagree.
  pose proof (instantiate_task_frame _ _ _ _ _ _ Hinst obs1 obs2 Hagree)
    as Hex.
  split_and!; [by eapply instantiate_task_resolution|done|].
  unfold schedule_task, record_outcome. by rewrite !lookup_insert_eq, Hex.
Qed.

End Parsed.

End Frame.

(** ** Passes under different interleavings *)

Section Confluence.

Import OutputParser TaskFetching.

Lemma step_began_in_flight th s ev s' t tbl :
  step th s = Some (ev, s') → Began t tbl ∈ ev → t ∈ in_flight s.
Proof.
  intros Hstep Hin. unfold in_flight.
  destruct s as [obs names orig iter raises futs pc].
  destruct th as [|i];
    unfold step, step_main, step_worker, set_main, set_future,
      set_observations in Hstep;
    cbn [main tasks_iter observations task_names originals
         tasks_iter_raises futures] in *;
    repeat case_match; simplify_eq;
    try (by apply elem_of_nil in Hin);
    apply list_elem_of_singleton in Hin; simplify_eq.
  - left.
  - apply elem_of_app. right. apply list_elem_of_bind.
    eexists. split; [|by eapply list_elem_of_lookup_2]. left.
Qed.

Lemma step_began_none th s ev s' :
  step th s = Some (ev, s') →
  (∀ t tbl, Began t tbl ∉ ev) ∨ ∃ t, ev = [Began t (observations s)].
Proof.
  intros Hstep.
  destruct s as [obs names orig iter raises futs pc].
  destruct th as [|i];
    unfold step, step_main, step_worker, set_main, set_future,
      set_observations in Hstep;
    cbn [main tasks_iter observations task_names originals
         tasks_iter_raises futures] in *;
    repeat case_match; simplify_eq;
    first [ by right; eexists
          | left; intros t0 tbl0 Hin;
            (by apply elem_of_nil in Hin)
            || (by apply list_elem_of_singleton in Hin) ].
Qed.

Section DistinctNewIds.

Variable messages : list BaseMessage.
Variable tasks : list Task.
Variable raises : option Exn.
Hypothesis ids_distinct : NoDup (idx <$> tasks).
Hypothesis ids_new :
  ∀ t, t ∈ tasks → idx t ∉ dom (_get_observations messages).

Lemma begin_order_step th s ev s' evs :
  Reachable messages tasks raises evs s →
  values_ok evs s →
  begin_order evs →
  step th s = Some (ev, s') →
  begin_order (evs ++ ev).
Proof.
  intros Hr [Hsub _] [Hnone Hord] Hstep.
  destruct (step_began_none _ _ _ _ Hstep) as [Hno|[t ->]].
  - split.
    + intros t tbl [Hin|Hin]%elem_of_app; [by eapply Hnone|].
      by apply Hno in Hin.
    + intros t tbl t' tbl' [Hin|Hin]%elem_of_app; [|by apply Hno in Hin].
      intros [Hin'|Hin']%elem_of_app; [by eapply Hord|by apply Hno in Hin'].
  - assert (observations s !! idx t = None) as Hfresh.
    { eapply (in_flight_unwritten messages tasks raises); [done..|].
      eapply step_began_in_flight; [exact Hstep|left]. }
    split.
    + intros t0 tbl [Hin|Hin]%elem_of_app; [by eapply Hnone|].
      apply list_elem_of_singleton in Hin. by simplify_eq.
    + intros t1 tbl1 t2 tbl2 [Hin1|Hin1]%elem_of_app
        [Hin2|Hin2]%elem_of_app Hsome.
      * by eapply Hord.
      * apply list_elem_of_singleton in Hin2. simplify_eq. by eapply Hsub.
      * apply list_elem_of_singleton in Hin1. simplify_eq.
        destruct Hsome as [v Hv].
        pose proof (lookup_weaken _ _ _ _ Hv (Hsub _ _ Hin2)). congruence.
      * apply list_elem_of_singleton in Hin1.
        apply list_elem_of_singleton in Hin2. by simplify_eq.
Qed.

(** What holds of every run from the first state of a pass over tasks of
    distinct new ids. *)
Lemma ordered_run schedule evs s :
  schedule_tasks_run messages tasks raises schedule = Some (evs, s) →
  Reachable messages tasks raises evs s
  ∧ writes_fresh messages evs s
  ∧ values_ok evs s
  ∧ begin_order evs.
Proof.
  unfold schedule_tasks_run.
  assert (∀ sched evs0 s0,
            Reachable messages tasks raises evs0 s0 →
            writes_fresh messages evs0 s0 →
            executed_ok evs0 s0 →
            values_ok evs0 s0 →
            begin_order evs0 →
            run sched evs0 s0 = Some (evs, s) →
            Reachable messages tasks raises evs s
            ∧ writes_fresh messages evs s
            ∧ values_ok evs s
            ∧ begin_order evs) as Hgen.
  { induction sched as [|th rest IH]; intros evs0 s0 Hr Hw Hex Hv Hb.
    - by intros [= <- <-].
    - cbn [run]. destruct (step th s0) as [[ev s1]|] eqn:Hstep; [|done].
      apply IH.
      + by eapply Reachable_step.
      + by eapply writes_fresh_step.
      + by eapply executed_ok_step.
      + by eapply values_ok_step.
      + by eapply begin_order_step. }
  apply Hgen.
  - apply Reachable_init.
  - split; [done|]. intros t tbl Hin. by apply elem_of_nil in Hin.
  - apply executed_ok_init.
  - split; [intros ?? Hin|intros ? Hin]; by apply elem_of_nil in Hin.
  - split; [intros ?? Hin|intros ???? Hin]; by apply elem_of_nil in Hin.
Qed.

Hypothesis tasks_framed : ∀ t, t ∈ tasks → depends_only_on_dependencies t.

Section TwoRuns.

Variables (schedule1 schedule2 : list Thread) (evs1 evs2 : list Event).
Variables (s1 s2 : Sched) (ms1 ms2 : list FunctionMessage).
Hypothesis run1 :
  schedule_tasks_run messages tasks raises schedule1 = Some (evs1, s1).
Hypothesis run2 :
  schedule_tasks_run messages tasks raises schedule2 = Some (evs2, s2).
Hypothesis returned2 : main s2 = MReturned ms2.

(** An entry of a table of the first run is an entry of the final table
    of the second, when the table on which its writer began is part of
    that table. *)
Lemma entry_agrees (tbl : Observations) i v :
  tbl ⊆ observations s1 →
  tbl !! i = Some v →
  (∀ t tbl0, Began t tbl0 ∈ evs1 → idx t = i → tbl0 ⊆ observations s2) →
  observations s2 !! i = Some v.
Proof.
  intros Hsub Hi Hwriter.
  destruct (ordered_run _ _ _ run1) as (Hr1 & [Hseed1 _] & [Hb1 Hv1] & _).
  destruct (ordered_run _ _ _ run2) as (Hr2 & [Hseed2 _] & [Hb2 Hv2] & _).
  pose proof (lookup_weaken _ _ _ _ Hi Hsub) as Hi1.
  destruct (_get_observations messages !! i) as [v0|] eqn:Hs.
  - pose proof (lookup_weaken _ _ _ _ Hs Hseed1).
    pose proof (lookup_weaken _ _ _ _ Hs Hseed2). congruence.
  - assert (i ∈ dom (observations s1)) as Hdom by (by apply elem_of_dom).
    rewrite (r_dom _ _ _ _ _ Hr1) in Hdom.
    apply elem_of_union in Hdom as [Hd|Hw];
      [by apply not_elem_of_dom in Hs|].
    apply elem_of_list_to_set, list_elem_of_fmap in Hw as (t & -> & Hw).
    destruct (Hv1 t Hw) as (tbl1 & Hbeg1 & Hval1).
    assert (t ∈ tasks) as Ht.
    { destruct (r_consumed _ _ _ _ _ Hr1) as (consumed & -> & _ & Hperm).
      apply elem_of_app. left. rewrite Hperm. apply elem_of_app. by left. }
    assert (t ∈ written evs2) as Hw2
      by (by rewrite (returned_written _ _ _ _ _ _ Hr2 returned2)).
    destruct (Hv2 t Hw2) as (tbl2 & Hbeg2 & Hval2).
    rewrite Hval2. f_equal. rewrite Hval1 in Hi1. injection Hi1 as <-.
    symmetry. apply (tasks_framed t Ht). intros d Hd.
    destruct (r_began _ _ _ _ _ Hr1 _ _ _ Hbeg1 Hd) as [x1 Hx1].
    destruct (r_began _ _ _ _ _ Hr2 _ _ _ Hbeg2 Hd) as [x2 Hx2].
    pose proof (lookup_weaken _ _ _ _ Hx1 (Hwriter _ _ Hbeg1 eq_refl)).
    pose proof (lookup_weaken _ _ _ _ Hx2 (Hb2 _ _ Hbeg2)). congruence.
Qed.

(** Every table on which an execution of the first run began is part of
    the final table of the second run. *)
Lemma begin_tables_agree n t tbl :
  size (dom tbl) ≤ n → Began t tbl ∈ evs1 → tbl ⊆ observations s2.
Proof.
  revert t tbl. induction n as [n IH] using lt_wf_ind. intros t tbl Hn Hbeg.
  destruct (ordered_run _ _ _ run1) as (Hr1 & _ & [Hb1 _] & [Hnone Hord]).
  apply map_subseteq_spec. intros i v Hi.
  apply (entry_agrees tbl); [by eapply Hb1|done|].
  intros t' tbl' Hbeg' <-.
  assert (tbl' ⊆ tbl) as Hsub by (eapply Hord; [exact Hbeg'|exact Hbeg|done]).
  apply (IH (size (dom tbl'))) with (t := t'); [|done..].
  eapply Nat.lt_le_trans; [|exact Hn]. apply subset_size.
  split; [by apply subseteq_dom|].
  intros Hsup. pose proof (Hnone _ _ Hbeg') as Hfresh.
  apply not_elem_of_dom in Hfresh. apply Hfresh, Hsup. by apply elem_of_dom.
Qed.

Lemma final_table_included : observations s1 ⊆ observations s2.
Proof.
  apply map_subseteq_spec. intros i v Hi.
  apply (entry_agrees (observations s1)); [done..|].
  intros t tbl0 Hbeg _. by eapply begin_tables_agree.
Qed.

End TwoRuns.

End DistinctNewIds.

(** The table of a run is part of the table a returned run ends with,
    and two returned runs end with the same table and records. *)
Lemma returned_runs_agree
    (messages : list BaseMessage) (tasks : list Task)
    (schedule1 schedule2 : list Thread) (evs1 evs2 : list Event)
    (s1 s2 : Sched) (ms2 : list FunctionMessage) :
  NoDup (idx <$> tasks) →
  (∀ t, t ∈ tasks → idx t ∉ dom (_get_observations messages)) →
  (∀ t, t ∈ tasks → depends_only_on_dependencies t) →
  schedule_tasks_run messages tasks None schedule1 = Some (evs1, s1) →
  schedule_tasks_run messages tasks None schedule2 = Some (evs2, s2) →
  main s2 = MReturned ms2 →
  observations s1 ⊆ observations s2
  ∧ ∀ ms1, main s1 = MReturned ms1 →
           observations s1 = observations s2 ∧ ms1 = ms2.
Proof.
  intros Hnd Hnew Hframe Hrun1 Hrun2 Hm2.
  assert (observations s1 ⊆ observations s2) as Hsub
    by (by eapply (final_table_included messages tasks None)).
  split; [done|]. intros ms1 Hm1.
  assert (observations s1 = observations s2) as Hobs.
  { apply (anti_symm (⊆)); [done|].
    by eapply (final_table_included messages tasks None). }
  split; [done|].
  pose proof (Reachable_run _ _ _ _ _ _ Hrun1) as Hr1.
  pose proof (Reachable_run _ _ _ _ _ _ Hrun2) as Hr2.
  destruct (r_returned _ _ _ _ _ Hr1 _ Hm1) as [_ Ht1].
  destruct (r_returned _ _ _ _ _ Hr2 _ Hm2) as [_ Ht2].
  assert (task_names s1 = task_names s2) as Hnames.
  { destruct (r_consumed _ _ _ _ _ Hr1) as (c1 & Hc1 & -> & _).
    destruct (r_consumed _ _ _ _ _ Hr2) as (c2 & Hc2 & -> & _).
    rewrite (r_loop_over _ _ _ _ _ Hr1), app_nil_r in Hc1
      by (by rewrite Hm1).
    rewrite (r_loop_over _ _ _ _ _ Hr2), app_nil_r in Hc2
      by (by rewrite Hm2).
    congruence. }
  rewrite Hobs, Hnames, (r_originals _ _ _ _ _ Hr1),
    <- (r_originals _ _ _ _ _ Hr2) in Ht1.
  congruence.
Qed.

(** X6. The records a pass returns do not depend on the interleaving of its
    threads: two passes over the same tasks and history that return,
    return the same table and the same records, and the table of every
    run, at any time, is part of that table. This holds when the ids of
    the tasks are distinct and new, tools are functions of their
    arguments, and the observation of every task depends on the table
    under the task's dependencies only, which is so for every task the
    plan parser builds. *)
Theorem returned_records_do_not_depend_on_schedule
    (messages : list BaseMessage) (tasks : list Task)
    (schedule1 schedule2 : list Thread) (evs1 evs2 : list Event)
    (s1 s2 : Sched) (ms2 : list FunctionMessage) :
  NoDup (idx <$> tasks) →
  (∀ t, t ∈ tasks → idx t ∉ dom (_get_observations messages)) →
  (∀ t, t ∈ tasks → depends_only_on_dependencies t) →
  schedule_tasks_run messages tasks None schedule1 = Some (evs1, s1) →
  schedule_tasks_run messages tasks None schedule2 = Some (evs2, s2) →
  main s2 = MReturned ms2 →
  observations s1 ⊆ observations s2
  ∧ ∀ ms1, main s1 = MReturned ms1 →
           observations s1 = observations s2 ∧ ms1 = ms2.
Proof. apply returned_runs_agree. Qed.

End Confluence.

(** ** The history and the records *)

Section History.

Import OutputParser TaskFetching.

Lemma _get_observations_cons m rest :
  _get_observations (m :: rest)
    = match m with
      | Function fm =>
          match fm_idx fm with
          | Some i => <[i := VStr (fm_content fm)]> (_get_observations rest)
          | None => _get_observations rest
          end
      | OtherMessage _ => _get_observations rest
      end.
Proof. unfold _get_observations. by rewrite reverse_cons, foldl_app. Qed.

Lemma _get_observations_app l1 l2 :
  _get_observations (l1 ++ l2) = _get_observations l1 ∪ _get_observations l2.
Proof.
  induction l1 as [|m l1 IH].
  - cbn [app]. change (_get_observations []) with (∅ : Observations).
    by rewrite (left_id_L ∅ (∪)).
  - cbn [app]. rewrite !_get_observations_cons, IH.
    destruct m as [fm|c]; [|done].
    destruct (fm_idx fm) as [i|]; [|done]. by rewrite insert_union_l.
Qed.

Lemma _get_observations_absent messages i :
  (∀ m, Function m ∈ messages → fm_idx m ≠ Some i) →
  _get_observations messages !! i = None.
Proof.
  induction messages as [|m rest IH]; intros Hno; [done|].
  rewrite _get_observations_cons.
  assert (_get_observations rest !! i = None) as Hrest
    by (apply IH; intros m' Hin; apply Hno; by right).
  destruct m as [fm|c]; [|done].
  destruct (fm_idx fm) as [j|] eqn:Hj; [|done].
  rewrite lookup_insert_ne; [done|].
  intros ->. by apply (Hno fm); [left|].
Qed.

(** X7. The table a pass starts from holds, for every id, the content of the
    earliest [FunctionMessage] of the history that carries that id: a
    later message of the same id does not replace it; messages of other
    kinds and function messages without an id are skipped; and the table
    of a history in two parts is the table of the first part, completed
    by the table of the second. *)
Theorem earliest_observation_wins
    (messages : list BaseMessage) (i : Z) :
  (∀ pre m post,
     messages = pre ++ Function m :: post →
     fm_idx m = Some i →
     (∀ m', Function m' ∈ pre → fm_idx m' ≠ Some i) →
     _get_observations messages !! i = Some (VStr (fm_content m)))
  ∧ ((∀ m, Function m ∈ messages → fm_idx m ≠ Some i) ↔
     _get_observations messages !! i = None)
  ∧ (∀ more,
       _get_observations (messages ++ more) !! i
         = match _get_observations messages !! i with
           | Some v => Some v
           | None => _get_observations more !! i
           end).
Proof.
  split_and!.
  - intros pre m post -> Hi Hpre.
    rewrite _get_observations_app, lookup_union_r
      by (by apply _get_observations_absent).
    by rewrite _get_observations_cons, Hi, lookup_insert_eq.
  - split; [apply _get_observations_absent|].
    induction messages as [|m rest IH]; [by intros _ m ?%elem_of_nil|].
    rewrite _get_observations_cons. intros Hnone m' [Heq|Hin]%elem_of_cons.
    + subst m. destruct (fm_idx m') as [j|]; [|done].
      intros [= ->]. by rewrite lookup_insert_eq in Hnone.
    + apply IH; [|done]. destruct m as [fm|c]; [|done].
      destruct (fm_idx fm) as [j|]; [|done].
      destruct (decide (j = i)) as [->|Hne];
        [by rewrite lookup_insert_eq in Hnone
        |by rewrite lookup_insert_ne in Hnone].
  - intros more. rewrite _get_observations_app, lookup_union.
    destruct (_get_observations messages !! i),
      (_get_observations more !! i); done.
Qed.

Lemma records_read_back (obs : Observations) (keys : list Z)
    (ms : list FunctionMessage) i :
  Forall2 (λ k m, fm_idx m = Some k
                  ∧ ∃ v, obs !! k = Some v ∧ fm_content m = py_str v)
          keys ms →
  _get_observations (Function <$> ms) !! i
    = if decide (i ∈ keys) then (λ v, VStr (py_str v)) <$> obs !! i else None.
Proof.
  induction 1 as [|k m keys ms (Hk & v & Hv & Hc) _ IH].
  - by rewrite decide_False by apply not_elem_of_nil.
  - rewrite fmap_cons, _get_observations_cons, Hk.
    destruct (decide (k = i)) as [->|Hne].
    + rewrite lookup_insert_eq, decide_True by left. by rewrite Hv, Hc.
    + rewrite lookup_insert_ne, IH by done.
      destruct (decide (i ∈ keys)) as [Hin|Hout].
      * by rewrite decide_True by (by right).
      * rewrite decide_False; [done|].
        by intros [->|?]%elem_of_cons.
Qed.

(** X8. The records a pass returns, read back as history, give the new
    entries of its table, stringified; appended to the history the pass
    started from, they seed a next pass with every key of the final
    table, the older history keeping the ids it had. *)
Theorem returned_records_seed_the_next_pass
    (messages : list BaseMessage) (tasks : list Task) (raises : option Exn)
    (schedule : list Thread) (evs : list Event) (s : Sched)
    (ms : list FunctionMessage) :
  schedule_tasks_run messages tasks raises schedule = Some (evs, s) →
  main s = MReturned ms →
  (∀ i, _get_observations (Function <$> ms) !! i
        = if decide (i ∈ dom (_get_observations messages)) then None
          else (λ v, VStr (py_str v)) <$> observations s !! i)
  ∧ (∀ i, _get_observations (messages ++ (Function <$> ms)) !! i
          = match _get_observations messages !! i with
            | Some v => Some v
            | None => (λ v, VStr (py_str v)) <$> observations s !! i
            end)
  ∧ dom (_get_observations (messages ++ (Function <$> ms)))
    = dom (observations s).
Proof.
  intros Hrun Hmain.
  pose proof (Reachable_run _ _ _ _ _ _ Hrun) as Hr.
  pose proof (returned_records _ _ _ _ _ _ Hr Hmain) as Hrec.
  assert (∀ i, _get_observations (Function <$> ms) !! i
               = if decide (i ∈ dom (_get_observations messages)) then None
                 else (λ v, VStr (py_str v)) <$> observations s !! i) as Hback.
  { intros i.
    rewrite (records_read_back (observations s)
               (new_keys (observations s) (dom (_get_observations messages)))).
    - destruct (decide (i ∈ dom (_get_observations messages))) as [Hs|Hs].
      + rewrite decide_False; [done|].
        rewrite elem_of_new_keys. by intros [_ ?].
      + destruct (observations s !! i) as [v|] eqn:Hv.
        * rewrite decide_True; [done|].
          apply elem_of_new_keys. split; [by apply elem_of_dom|done].
        * by destruct (decide _).
    - eapply Forall2_impl; [exact Hrec|]. by intros k m (? & _ & ? & _). }
  assert (∀ i, _get_observations (messages ++ (Function <$> ms)) !! i
               = match _get_observations messages !! i with
                 | Some v => Some v
                 | None => (λ v, VStr (py_str v)) <$> observations s !! i
                 end) as Hnext.
  { intros i. rewrite _get_observations_app, lookup_union, Hback.
    destruct (_get_observations messages !! i) as [v|] eqn:Hs.
    - rewrite decide_True by (by apply elem_of_dom). done.
    - rewrite decide_False by (by apply not_elem_of_dom).
      by destruct (observations s !! i). }
  split_and!; [done..|].
  apply set_eq. intros i. rewrite !elem_of_dom, Hnext.
  destruct (_get_observations messages !! i) as [v|] eqn:Hs.
  - split; [intros _|by eexists].
    apply elem_of_dom. rewrite (r_dom _ _ _ _ _ Hr).
    apply elem_of_union. left. by apply elem_of_dom.
  - by rewrite fmap_is_Some.
Qed.

End History.

(** ** The arguments of an action *)

Section ArgumentParsing.

Import Re OutputParser.

Variable literal_eval : text → option Value.

Lemma starts_with_prefix p s :
  starts_with p s = true → ∃ post, s = p ++ post.
Proof.
  revert s. induction p as [|a p IH]; intros s; [by exists s|].
  destruct s as [|b s]; [done|]. cbn [starts_with].
  intros [Hab Hp]%andb_prop. apply bool_decide_eq_true_1 in Hab as ->.
  destruct (IH _ Hp) as [post ->]. by exists post.
Qed.

Lemma prefix_starts_with p post : starts_with p (p ++ post) = true.
Proof.
  induction p as [|a p IH]; [done|]. cbn [app starts_with].
  by rewrite bool_decide_eq_true_2, IH.
Qed.

(** [find] gives an index at which the text occurs. *)
Lemma find_Some sub s i :
  find sub s = Some i → ∃ post, s = take i s ++ sub ++ post.
Proof.
  revert i. induction s as [|c s IH]; intros i.
  - cbn [find]. destruct (starts_with sub []) eqn:Hs; [|done].
    intros [= <-]. by apply starts_with_prefix in Hs.
  - cbn [find]. destruct (starts_with sub (c :: s)) eqn:Hs.
    + intros [= <-]. by apply starts_with_prefix in Hs.
    + destruct (find sub s) as [j|]; [|done]. intros [= <-].
      destruct (IH j eq_refl) as [post Hpost]. exists post.
      cbn [take app]. by rewrite <- Hpost.
Qed.

Lemma find_unfold sub s :
  find sub s
    = if starts_with sub s then Some 0
      else match s with
           | [] => None
           | _ :: r => S <$> find sub r
           end.
Proof. by destruct s. Qed.

(** [find] gives [None] only for a text that occurs nowhere. *)
Lemma find_None sub s pre post : find sub s = None → s ≠ pre ++ sub ++ post.
Proof.
  revert s. induction pre as [|c pre IH]; intros s Hnone ->.
  - rewrite find_unfold in Hnone. cbn [app] in Hnone.
    by rewrite prefix_starts_with in Hnone.
  - rewrite find_unfold in Hnone. cbn [app] in Hnone.
    destruct (starts_with sub (c :: pre ++ sub ++ post)); [done|].
    destruct (find sub (pre ++ sub ++ post)) eqn:Hf; [done|].
    by apply (IH _ Hf).
Qed.

Lemma dict_set_keys (d : Dict) k v :
  (dict_set d k v).*1 = if decide (k ∈ d.*1) then d.*1 else d.*1 ++ [k].
Proof.
  induction d as [|[k' v'] d IH].
  - by rewrite decide_False by apply not_elem_of_nil.
  - cbn [dict_set]. case_bool_decide as Hk.
    + subst k'. by rewrite decide_True by left.
    + cbn [fmap list_fmap fst]. rewrite IH.
      destruct (decide (k ∈ d.*1)) as [Hin|Hout].
      * by rewrite decide_True by (by right).
      * rewrite decide_False; [done|].
        intros [->|?]%elem_of_cons; done.
Qed.

Lemma dict_set_NoDup (d : Dict) k v : NoDup d.*1 → NoDup (dict_set d k v).*1.
Proof.
  intros Hnd. rewrite dict_set_keys. destruct (decide (k ∈ d.*1)); [done|].
  apply NoDup_app. split_and!; [done| |apply NoDup_singleton].
  by intros x Hx ->%list_elem_of_singleton.
Qed.

Lemma elem_of_dict_set_keys (d : Dict) k v x :
  x ∈ (dict_set d k v).*1 ↔ x ∈ d.*1 ∨ x = k.
Proof.
  rewrite dict_set_keys. destruct (decide (k ∈ d.*1)) as [Hin|Hout].
  - split; [by left|]. by intros [?| ->].
  - rewrite elem_of_app, list_elem_of_singleton. done.
Qed.

(** What the scan keeps: the keys bound so far and the key whose value
    is pending were found in the text, followed by an equal sign, and no
    key is bound twice. *)
Lemma arg_scan_invariant (P : text → Prop) (whole : text) keys st :
  (∀ k, k ∈ keys → (∃ pre post, whole = pre ++ k ++ "=" ++ post) → P k) →
  (∃ pre, whole = pre ++ scan_args st) →
  (∀ k, k ∈ (extracted_args st).*1 → P k) →
  NoDup (extracted_args st).*1 →
  (∀ k p, key_and_prev_idx st = Some (k, p) → P k) →
  let st' := foldl (arg_scan_step literal_eval) st keys in
  (∀ k, k ∈ (extracted_args st').*1 → P k)
  ∧ NoDup (extracted_args st').*1
  ∧ (∀ k p, key_and_prev_idx st' = Some (k, p) → P k).
Proof.
  revert st. induction keys as [|key keys IH];
    intros st HP Hsuf Hkeys Hnd Hpend; cbn [foldl]; [done|].
  destruct (find (key ++ "=") (scan_args st)) as [i|] eqn:Hfind.
  - assert (arg_scan_step literal_eval st key
            = {| scan_args := drop (i + length (key ++ "=")) (scan_args st);
                 extracted_args :=
                   match key_and_prev_idx st with
                   | Some (tool_key, prev_idx) =>
                       dict_set (extracted_args st) tool_key
                         (_ast_parse literal_eval
                            (rstrip_char ","
                               (strip (slice prev_idx i (scan_args st)))))
                   | None => extracted_args st
                   end;
                 key_and_prev_idx := Some (key, 0) |}) as ->
      by (unfold arg_scan_step; by rewrite Hfind).
    destruct Hsuf as [pre Hpre].
    destruct (find_Some _ _ _ Hfind) as [post Hpost].
    assert (P key) as Hkey.
    { apply HP; [left|]. exists (pre ++ take i (scan_args st)), post.
      rewrite Hpre, Hpost at 1. by rewrite <- !app_assoc. }
    apply IH; cbn [scan_args extracted_args key_and_prev_idx].
    + intros k Hk. apply HP. by right.
    + exists (pre ++ take (i + length (key ++ "=")) (scan_args st)).
      by rewrite <- app_assoc, take_drop.
    + destruct (key_and_prev_idx st) as [[tk p]|] eqn:Hkp; [|done].
      intros k [Hk| ->]%elem_of_dict_set_keys; [by apply Hkeys|].
      by eapply Hpend.
    + destruct (key_and_prev_idx st) as [[tk p]|]; [|done].
      by apply dict_set_NoDup.
    + by intros k p [= <- <-].
  - assert (arg_scan_step literal_eval st key = st) as ->
      by (unfold arg_scan_step; by rewrite Hfind).
    apply IH; try done. intros k Hk. apply HP. by right.
Qed.

(** A scan that finds none of the keys leaves its state as it was. *)
Lemma arg_scan_nothing keys st :
  (∀ k, k ∈ keys → find (k ++ "=") (scan_args st) = None) →
  foldl (arg_scan_step literal_eval) st keys = st.
Proof.
  induction keys as [|key keys IH]; intros Hnone; [done|].
  cbn [foldl].
  assert (arg_scan_step literal_eval st key = st) as ->
    by (unfold arg_scan_step; by rewrite (Hnone key) by left).
  apply IH. intros k Hk. apply Hnone. by right.
Qed.

Lemma parsed_args_keys (arg_text : text) (tl : BaseTool) :
  (∀ key,
     key ∈ (_parse_llm_compiler_action_args literal_eval arg_text
              (ToolObj tl)).*1 →
     key ∈ arg_keys tl ∧ ∃ pre post, arg_text = pre ++ key ++ "=" ++ post)
  ∧ NoDup (_parse_llm_compiler_action_args literal_eval arg_text
             (ToolObj tl)).*1.
Proof.
  unfold _parse_llm_compiler_action_args.
  destruct arg_text as [|c r] eqn:Hargs.
  { split; [by intros ? ?%elem_of_nil|apply NoDup_nil_2]. }
  rewrite <- Hargs. clear Hargs c r.
  set (st0 := {| scan_args := arg_text; extracted_args := [];
                 key_and_prev_idx := None |}).
  destruct (arg_scan_invariant
              (λ k, k ∈ arg_keys tl
                    ∧ ∃ pre post, arg_text = pre ++ k ++ "=" ++ post)
              arg_text (arg_keys tl) st0) as (Hkeys & Hnd & Hpend).
  { by intros k Hk Hocc. }
  { by exists []. }
  { by intros k ?%elem_of_nil. }
  { constructor. }
  { done. }
  cbn zeta in Hkeys, Hnd, Hpend. split.
  - intros key Hin.
    destruct (key_and_prev_idx _) as [[tk p]|] eqn:Hkp; [|by apply Hkeys].
    apply elem_of_dict_set_keys in Hin as [Hin| ->]; [by apply Hkeys|].
    by eapply Hpend.
  - destruct (key_and_prev_idx _) as [[tk p]|]; [|done].
    by apply dict_set_NoDup.
Qed.

(** X11. [_parse_llm_compiler_action_args] binds only parameters of the
    tool's schema, each at most once, and only those whose name is in
    the argument text followed by an equal sign. So arguments given by
    position are dropped: a text in which no parameter name is followed
    by an equal sign gives the empty mapping, as do the empty text and
    every text for the [join] sentinel. *)
Theorem only_named_schema_arguments_are_bound
    (arg_text : text) (tool : ToolRef) :
  (∀ key, key ∈ (_parse_llm_compiler_action_args literal_eval arg_text tool).*1 →
     ∃ tl, tool = ToolObj tl
           ∧ key ∈ arg_keys tl
           ∧ ∃ pre post, arg_text = pre ++ key ++ "=" ++ post)
  ∧ NoDup (_parse_llm_compiler_action_args literal_eval arg_text tool).*1
  ∧ (∀ tl, tool = ToolObj tl →
       (∀ key pre post,
          key ∈ arg_keys tl → arg_text ≠ pre ++ key ++ "=" ++ post) →
       _parse_llm_compiler_action_args literal_eval arg_text tool = [])
  ∧ (∀ s, tool = ToolStr s →
       _parse_llm_compiler_action_args literal_eval arg_text tool = []).
Proof.
  destruct tool as [s|tl].
  { assert (_parse_llm_compiler_action_args literal_eval arg_text (ToolStr s)
            = []) as -> by (by destruct arg_text).
    split_and!; [by intros ? ?%elem_of_nil|apply NoDup_nil_2|done..]. }
  destruct (parsed_args_keys arg_text tl) as [Hkeys Hnd].
  split_and!; [|done| |done].
  - intros key Hin. exists tl. split; [done|]. by apply Hkeys.
  - intros tl' [= <-] Hno. unfold _parse_llm_compiler_action_args.
    destruct arg_text as [|c r] eqn:Hargs; [done|].
    rewrite <- Hargs in *. clear Hargs c r.
    rewrite arg_scan_nothing; [done|].
    intros k Hk. cbn [scan_args].
    destruct (find (k ++ "=") arg_text) as [i|] eqn:Hf; [|done].
    destruct (find_Some _ _ _ Hf) as [post Hpost].
    destruct (Hno k (take i arg_text) post Hk).
    rewrite Hpost at 1. by rewrite <- app_assoc.
Qed.

End ArgumentParsing.

(** ** The tasks the parser emits *)

Section WellFormed.

Import Re OutputParser TaskFetching.

Variable literal_eval : text → option Value.
Variable tools : list BaseTool.

Lemma take_while_Forall {A} (p : A → bool) l :
  Forall (λ x, p x = true) (take_while p l).
Proof.
  induction l as [|x l IH]; [constructor|]. cbn [take_while].
  destruct (p x) eqn:Hp; by constructor.
Qed.

Lemma digit_val_range c : is_digit c = true → (0 ≤ digit_val c ≤ 9)%Z.
Proof.
  unfold is_digit, in_range, digit_val.
  intros [H1 H2]%andb_prop.
  apply N.leb_le in H1. apply N.leb_le in H2. lia.
Qed.

Lemma foldl_digits_nonneg s acc :
  (0 ≤ acc)%Z →
  Forall (λ c, is_digit c = true) s →
  (0 ≤ foldl (λ acc c, 10 * acc + digit_val c) acc s)%Z.
Proof.
  revert acc. induction s as [|c s IH]; intros acc Hacc Hall; [done|].
  apply Forall_cons in Hall as [Hc Hall]. cbn [foldl].
  apply IH; [|done]. pose proof (digit_val_range c Hc). lia.
Qed.

Lemma int_of_digits_nonneg s :
  Forall (λ c, is_digit c = true) s → (0 ≤ int_of_digits s)%Z.
Proof. intros Hall. by apply foldl_digits_nonneg. Qed.

(** Group 1 of a match of [ID_PATTERN] is a text of digits. *)
Lemma match_id_digits s g len :
  match_id s = Some (g, len) → Forall (λ c, is_digit c = true) g.
Proof.
  destruct s as [|c r]; [done|]. cbn [match_id].
  case_bool_decide; [|done].
  destruct r as [|b r'].
  - by cbn.
  - destruct (bool_decide (b = "{"%char)).
    + pose proof (take_while_Forall is_digit r') as Hall.
      destruct (take_while is_digit r'); [done|]. by intros [= <- _].
    + pose proof (take_while_Forall is_digit (b :: r')) as Hall.
      destruct (take_while is_digit (b :: r')); [done|]. by intros [= <- _].
Qed.

Lemma scan_ids_digits skip s whole g :
  Hit whole g ∈ scan_ids skip s → Forall (λ c, is_digit c = true) g.
Proof.
  revert skip. induction s as [|c r IH]; intros skip; [by intros ?%elem_of_nil|].
  destruct skip as [|k]; [|apply IH].
  rewrite scan_ids_cons.
  destruct (match_id (c :: r)) as [[g' len]|] eqn:Hm.
  - intros [[= _ <-]|Hin]%elem_of_cons; [by eapply match_id_digits|].
    by eapply IH.
  - intros [[=]|Hin]%elem_of_cons. by eapply IH.
Qed.

Lemma findall_ids_digits s g :
  g ∈ findall_ids s → Forall (λ c, is_digit c = true) g.
Proof.
  unfold findall_ids. intros ([c|whole g'] & Hin & [= ->])%list_elem_of_omap.
  by eapply scan_ids_digits.
Qed.

Lemma match_action_digits line n tname a :
  match_action line = Some (n, tname, a) →
  Forall (λ c, is_digit c = true) n ∧ tname ≠ [].
Proof.
  unfold match_action.
  pose proof (take_while_Forall is_digit (drop_while is_nl line)) as Hall.
  destruct (take_while is_digit (drop_while is_nl line)) as [|d ds] eqn:Hds;
    [done|].
  destruct (drop _ _) as [|c1 [|c2 s1]]; [done..|].
  destruct (_ && _); [|done].
  destruct (take_while is_word s1) as [|w ws] eqn:Hw; [done|].
  destruct (drop _ s1) as [|c3 s2]; [done|].
  destruct (bool_decide _); [|done].
  destruct (last_rparen _); [|done]. by intros [= <- <- _].
Qed.

Lemma line_tasks_items lines t :
  t ∈ items (line_tasks literal_eval tools lines) →
  ∃ line th, line ∈ lines
             ∧ _parse_task literal_eval tools line None = Ok (Some t, th).
Proof.
  induction lines as [|line rest IH]; [by intros ?%elem_of_nil|].
  cbn [line_tasks].
  destruct (_parse_task literal_eval tools line None) as [[task th]|e]
    eqn:Hp; [|by intros ?%elem_of_nil].
  cbn [items]. intros [Hin|Hin]%elem_of_app.
  - destruct task as [t0|]; [|by apply elem_of_nil in Hin].
    apply list_elem_of_singleton in Hin as ->.
    exists line, th. split; [left|done].
  - destruct (IH Hin) as (l & th' & Hl & Hpl).
    exists l, th'. split; [by right|done].
Qed.

Lemma _parse_task_Some line th0 t th :
  _parse_task literal_eval tools line th0 = Ok (Some t, th) →
  ∃ n tname a,
    match_action line = Some (n, tname, a)
    ∧ instantiate_task literal_eval tools (int_of_digits n) tname a th0 = Ok t.
Proof.
  unfold _parse_task. destruct (match_thought line); [done|].
  destruct (match_action line) as [[[n tname] a]|]; [|done].
  destruct (instantiate_task _ _ _ _ _ _) as [t'|e] eqn:Hi; [|done].
  intros [= <- _]. by exists n, tname, a.
Qed.

(** A task [_transform] emits was instantiated from an action line. *)
Lemma transform_items_instantiated (input : Input) (t : Task) :
  t ∈ items (_transform literal_eval tools input) →
  ∃ n tname a,
    Forall (λ c, is_digit c = true) n
    ∧ instantiate_task literal_eval tools (int_of_digits n) tname a None
      = Ok (no_thought t).
Proof.
  intros Hin.
  destruct (_transform_line_tasks literal_eval tools input) as [Hitems _].
  cbn zeta in Hitems.
  assert (no_thought t ∈ items (line_tasks literal_eval tools
                                  (split_nl (mjoin (input_chunks input)))))
    as Hline by (rewrite <- Hitems; by apply list_elem_of_fmap_2).
  destruct (line_tasks_items _ _ Hline) as (line & th & _ & Hparse).
  destruct (_parse_task_Some _ _ _ _ Hparse) as (n & tname & a & Hact & Hinst).
  destruct (match_action_digits _ _ _ _ Hact) as [Hdigits _].
  by exists n, tname, a.
Qed.

Lemma transform_items_framed (input : Input) (t : Task) :
  t ∈ items (_transform literal_eval tools input) →
  depends_only_on_dependencies t.
Proof.
  intros Hin.
  destruct (transform_items_instantiated _ _ Hin)
    as (n & tname & a & _ & Hinst).
  intros obs1 obs2 Hagree.
  apply (instantiate_task_frame _ _ _ _ _ _ _ Hinst obs1 obs2 Hagree).
Qed.

(** X12. Every task the plan parser emits, from whatever input: its id is
    not negative; its dependencies are in strictly ascending order and
    none is negative; its observation depends on the table under its
    dependencies only; and it is either the [join] sentinel, with no
    arguments and every id from 1 below its own as dependency, or the
    task of the first tool of the registry that has the name written,
    with arguments among the tool's parameters, each bound once. *)
Theorem parser_emits_wellformed_tasks (input : Input) (t : Task) :
  t ∈ items (_transform literal_eval tools input) →
  (0 ≤ idx t)%Z
  ∧ StronglySorted Z.lt (dependencies t)
  ∧ (∀ d, d ∈ dependencies t → (0 ≤ d)%Z)
  ∧ depends_only_on_dependencies t
  ∧ (tool t = ToolStr "join" ∧ args t = []
     ∧ dependencies t = seqZ 1 (idx t - 1)
     ∨ ∃ tl, tool t = ToolObj tl
             ∧ name tl ≠ "join"
             ∧ lookup_tool tools (name tl) = Some tl
             ∧ tl ∈ tools
             ∧ (∀ k, k ∈ (args t).*1 → k ∈ arg_keys tl)
             ∧ NoDup (args t).*1
             ∧ dependencies t
               = _get_dependencies_from_graph (idx t) (name tl) (args t)).
Proof.
  intros Hin.
  destruct (transform_items_instantiated _ _ Hin)
    as (n & tname & a & Hdigits & Hinst).
  pose proof (instantiate_task_frame _ _ _ _ _ _ _ Hinst) as Hframe.
  assert (idx t = int_of_digits n
          ∧ (tname = "join" ∧ tool t = ToolStr "join" ∧ args t = []
             ∧ dependencies t = seqZ 1 (idx t - 1)
             ∨ tname ≠ "join"
               ∧ ∃ tl, lookup_tool tools tname = Some tl
                       ∧ tool t = ToolObj tl
                       ∧ args t = _parse_llm_compiler_action_args
                                    literal_eval a (ToolObj tl)
                       ∧ dependencies t
                         = _get_dependencies_from_graph (idx t) tname (args t)))
    as [Hidx Hshape].
  { unfold instantiate_task in Hinst. case_bool_decide as Hjoin.
    - injection Hinst as Hi Ht Ha Hd.
      split; [done|]. left. split_and!; [done|done| |].
      + rewrite <- Ha. by destruct a.
      + rewrite <- Hd, <- Hi. unfold _get_dependencies_from_graph.
        by rewrite bool_decide_eq_true_2.
    - destruct (lookup_tool tools tname) as [tl|] eqn:Hl; [|done].
      injection Hinst as Hi Ht Ha Hd.
      split; [done|]. right. split; [done|]. exists tl.
      split_and!; [done..| |]; [by rewrite <- Ha|].
      by rewrite <- Hd, <- Ha, <- Hi. }
  split_and!.
  - rewrite Hidx. by apply int_of_digits_nonneg.
  - destruct Hshape as [(_ & _ & _ & ->)|(Hj & tl & _ & _ & _ & ->)].
    + apply seqZ_sorted.
    + unfold _get_dependencies_from_graph.
      rewrite bool_decide_eq_false_2 by done. apply sorted_set_sorted.
  - destruct Hshape as [(_ & _ & _ & ->)|(Hj & tl & _ & _ & _ & ->)]; intros d.
    + rewrite elem_of_seqZ. lia.
    + unfold _get_dependencies_from_graph.
      rewrite bool_decide_eq_false_2 by done.
      rewrite elem_of_sorted_set, list_elem_of_bind.
      intros (v & Hd & _). unfold extract_deps in Hd.
      apply list_elem_of_fmap in Hd as (g & -> & Hg).
      apply int_of_digits_nonneg. by eapply findall_ids_digits.
  - intros obs1 obs2 Hagree. apply (Hframe obs1 obs2 Hagree).
  - destruct Hshape as [(_ & ? & ? & ?)|(Hj & tl & Hl & Ht & Ha & Hd)];
      [by left|right].
    unfold lookup_tool in Hl. pose proof Hl as Hfound.
    apply List.find_some in Hfound as [Hmem Hname].
    apply bool_decide_eq_true_1 in Hname. subst tname.
    exists tl. split_and!; [done..|by apply list_elem_of_In| | |done].
    + intros k Hk. rewrite Ha in Hk.
      by apply (parsed_args_keys literal_eval a tl) in Hk as [? _].
    + rewrite Ha. apply (parsed_args_keys literal_eval a tl).
Qed.

End WellFormed.

(** ** Placeholders written from ids *)

Section Decimals.

Lemma text_of_uint_digits d :
  Forall (λ c, is_digit c = true) (text_of_uint d).
Proof. induction d; cbn [text_of_uint]; by constructor. Qed.

Lemma int_of_digits_acc d (acc : positive) :
  foldl (λ a c, 10 * a + digit_val c)%Z (Z.pos acc) (text_of_uint d)
    = Z.pos (Pos.of_uint_acc d acc).
Proof.
  revert acc. induction d as [|d IH|d IH|d IH|d IH|d IH|d IH|d IH|d IH|d IH|d IH];
    intros acc; [done|..]; cbn [text_of_uint foldl Pos.of_uint_acc];
    rewrite <- IH; f_equal; unfold digit_val; cbn; lia.
Qed.

Lemma int_of_digits_text_of_uint d :
  int_of_digits (text_of_uint d) = Z.of_N (Pos.of_uint d).
Proof.
  unfold int_of_digits.
  induction d as [|d IH|d IH|d IH|d IH|d IH|d IH|d IH|d IH|d IH|d IH];
    [done|exact IH|..]; cbn [text_of_uint foldl Pos.of_uint];
    match goal with
    | |- foldl _ ?a _ = _ =>
        let p := eval cbv in (Z.to_pos a) in
        change a with (Z.pos p)
    end;
    by rewrite int_of_digits_acc.
Qed.

(** [int(str(i))] is [i], and [str(i)] is a text of digits that is not
    empty, for every [i] that is not negative. *)
Lemma int_of_digits_str_int (i : Z) :
  (0 ≤ i)%Z →
  int_of_digits (str_int i) = i
  ∧ Forall (λ c, is_digit c = true) (str_int i)
  ∧ str_int i ≠ [].
Proof.
  intros Hi. unfold str_int.
  pose proof (DecimalZ.of_to i) as Hto.
  destruct (Z.to_int i) as [d|d] eqn:Hd.
  - cbn [Z.of_int] in Hto. unfold Z.of_uint in Hto.
    split_and!.
    + by rewrite int_of_digits_text_of_uint.
    + apply text_of_uint_digits.
    + destruct d; try done. cbn in Hto. subst i. done.
  - by destruct i.
Qed.

End Decimals.

Section Placeholders.

Import Re OutputParser TaskFetching.

Lemma take_while_all {A} (p : A → bool) l :
  Forall (λ x, p x = true) l → take_while p l = l.
Proof.
  induction 1 as [|x l Hx _ IH]; [done|]. cbn [take_while].
  by rewrite Hx, IH.
Qed.

Lemma scan_ids_skip_all s : scan_ids (length s) s = [].
Proof. induction s as [|c r IH]; [done|]. apply IH. Qed.

Lemma digits_and_brace_digits ds (rb : bool) :
  Forall (λ c, is_digit c = true) ds → ds ≠ [] →
  digits_and_brace (ds ++ (if rb then "}" else ""))
    = Some (ds, length (ds ++ (if rb then "}" else ""))).
Proof.
  intros Hall Hne. unfold digits_and_brace.
  assert (take_while is_digit (ds ++ (if rb then "}" else "")) = ds) as ->.
  { destruct rb.
    - rewrite take_while_app_stop by done. by apply take_while_all.
    - rewrite app_nil_r. by apply take_while_all. }
  destruct ds as [|d ds]; [done|].
  rewrite drop_app_length. f_equal. f_equal.
  rewrite length_app. by destruct rb.
Qed.

(** A placeholder text is one match of [ID_PATTERN], whole, in each of
    its four spellings. *)
Lemma scan_ids_placeholder ds (lb rb : bool) :
  Forall (λ c, is_digit c = true) ds → ds ≠ [] →
  let s := "$" ++ (if lb then "{" else "") ++ ds ++ (if rb then "}" else "") in
  scan_ids 0 s = [Hit s ds].
Proof.
  intros Hall Hne s. subst s. cbn [app].
  rewrite scan_ids_cons.
  assert (match_id ("$"%char :: (if lb then "{" else "") ++ ds
                                 ++ (if rb then "}" else ""))
          = Some (ds, S (length ((if lb then "{" else "") ++ ds
                                 ++ (if rb then "}" else ""))))) as ->.
  { rewrite match_id_unfold. rewrite bool_decide_eq_true_2 by done.
    destruct lb.
    - cbn [app]. rewrite bool_decide_eq_true_2 by done.
      by rewrite digits_and_brace_digits.
    - cbn [app]. destruct ds as [|d ds'] eqn:Hds; [done|].
      cbn [app]. rewrite bool_decide_eq_false_2.
      + change (d :: ds' ++ (if rb then "}" else ""))
          with ((d :: ds') ++ (if rb then "}" else "")).
        rewrite <- Hds in *. by rewrite digits_and_brace_digits.
      + intros ->. by apply Forall_cons in Hall as [? _]. }
  cbn [take]. rewrite firstn_all. f_equal.
  replace (S (length ((if lb then "{" else "") ++ ds
                      ++ (if rb then "}" else ""))) - 1)
    with (length ((if lb then "{" else "") ++ ds
                  ++ (if rb then "}" else ""))) by lia.
  apply scan_ids_skip_all.
Qed.


End Placeholders.

(** ** The joiner and the edges of the graph *)

Section CompilerFacts.

Import Re OutputParser TaskFetching LLMCompiler.

Lemma selected_app_human pre c post :
  (∀ m, m ∈ pre → is_human m = false) →
  selected (pre ++ HumanMessage c :: post) = pre ++ [HumanMessage c].
Proof.
  induction pre as [|m pre IH]; intros Hno; [done|].
  cbn [app selected]. rewrite (Hno m) by left.
  f_equal. apply IH. intros m' Hin. apply Hno. by right.
Qed.

Lemma selected_no_human l :
  (∀ m, m ∈ l → is_human m = false) → selected l = l.
Proof.
  induction l as [|m l IH]; intros Hno; [done|].
  cbn [selected]. rewrite (Hno m) by left.
  f_equal. apply IH. intros m' Hin. apply Hno. by right.
Qed.

(** X18. The input of the joiner is the content of the latest
    [HumanMessage]; in a history without one it is the content of the
    oldest message; on an empty history the selection fails. *)
Theorem recent_input_is_last_human_message (messages : list Message) :
  (∀ pre c post,
     messages = pre ++ HumanMessage c :: post →
     (∀ m, m ∈ post → is_human m = false) →
     _select_recent_messages messages = Some c)
  ∧ ((∀ m, m ∈ messages → is_human m = false) →
     _select_recent_messages messages = content <$> head messages)
  ∧ (_select_recent_messages messages = None ↔ messages = []).
Proof.
  unfold _select_recent_messages. split_and!.
  - intros pre c post -> Hpost.
    rewrite reverse_app, reverse_cons, <- app_assoc. cbn [app].
    rewrite selected_app_human.
    + by rewrite last_snoc.
    + intros m Hm. apply Hpost. by apply elem_of_reverse.
  - intros Hno. rewrite selected_no_human.
    + by rewrite last_reverse.
    + intros m Hm. apply Hno. by apply elem_of_reverse.
  - rewrite fmap_None, last_None. split; [|by intros ->].
    destruct (reverse messages) as [|m r] eqn:Hr.
    + intros _. apply (f_equal reverse) in Hr.
      by rewrite reverse_involutive in Hr.
    + cbn [selected]. by destruct (is_human m).
Qed.

Lemma last_app_two {A} (l : list A) a b : last (l ++ [a; b]) = Some b.
Proof. change [a; b] with ([a] ++ [b]). by rewrite (assoc (++)), last_snoc. Qed.

(** X19. After the joiner the graph ends exactly when the joiner does not
    ask to replan: the messages it adds end in a [SystemMessage] with
    the feedback when it replans, and in an [AIMessage] with the plan
    otherwise, whatever the state held before. The final message, whose
    content [run] returns, is never empty: a plan that is missing or
    empty is replaced by a fixed text. *)
Theorem graph_ends_iff_joiner_does_not_replan
    (before : list Message) (decision : JoinOutputs) :
  should_continue (before ++ _parse_joiner_output decision)
    = Some (if should_replan decision then PlanAndSchedule else END)
  ∧ (should_replan decision = false →
     ∃ answer,
       last (before ++ _parse_joiner_output decision) = Some (AIMessage answer)
       ∧ last_content (before ++ _parse_joiner_output decision) = answer
       ∧ answer ≠ []
       ∧ (∀ p, plan decision = Some p → p ≠ [] → answer = p)
       ∧ (plan decision = None ∨ plan decision = Some [] →
          answer = "No plan provided"))
  ∧ (should_replan decision = true →
     last (before ++ _parse_joiner_output decision)
       = Some (SystemMessage ("Context from last attempt: "
                              ++ format_optional (feedback decision))))
  ∧ _parse_joiner_output decision !! 0
    = Some (AIMessage ("Thought: " ++ jo_thought decision)).
Proof.
  unfold should_continue, _parse_joiner_output.
  destruct (should_replan decision); cbn [app].
  - rewrite !last_app_two.
    split_and!; [done|done| |done]. by intros _.
  - rewrite !last_app_two.
    split_and!; [done| |done|done].
    intros _. eexists. split; [done|].
    unfold last_content. rewrite last_app_two. cbn [content].
    destruct (plan decision) as [[|c p]|]; split_and!; try done.
    + by intros p [= <-].
    + by intros p' [= <-].
    + by intros [?|?].
Qed.

End CompilerFacts.

(** ** Planning and scheduling together *)

Section PlanAndSchedule.

Import Re OutputParser TaskFetching LLMCompiler.

Variable literal_eval : text → option Value.
Variable tools : list BaseTool.

Lemma line_tasks_no_action lines :
  (∀ line, line ∈ lines → match_action line = None) →
  line_tasks literal_eval tools lines = {| items := []; raised := None |}.
Proof.
  induction lines as [|line rest IH]; intros Hno; [done|].
  cbn [line_tasks]. unfold _parse_task.
  rewrite (Hno line) by left.
  rewrite IH by (intros l Hl; apply Hno; by right).
  by destruct (match_thought line).
Qed.

(** What [planned_tasks] hands over, in terms of the lines of the joined
    contents. *)
Lemma planned_tasks_lines (messages : list Message) :
  let r := line_tasks literal_eval tools
             (split_nl (mjoin (content <$> messages))) in
  match planned_tasks literal_eval tools messages with
  | Raise e => items r = [] ∧ raised r = Some e
  | Ok (tasks, raises) =>
      map no_thought tasks = items r ∧ raises = raised r
      ∧ (tasks = [] → raises = None)
      ∧ ∀ t, t ∈ tasks →
             t ∈ items (_transform literal_eval tools
                          (InList (content <$> messages)))
  end.
Proof.
  cbn zeta. unfold planned_tasks, stream.
  destruct (_transform_line_tasks literal_eval tools
              (InList (content <$> messages))) as [Hitems Hraised].
  cbn zeta in Hitems, Hraised. cbn [input_chunks] in Hitems, Hraised.
  destruct (items (_transform literal_eval tools
                     (InList (content <$> messages)))) as [|t ts] eqn:Hi.
  - destruct (raised (_transform literal_eval tools
                        (InList (content <$> messages)))) as [e|] eqn:Hr.
    + by rewrite <- Hitems, <- Hraised.
    + rewrite <- Hitems, <- Hraised. split_and!; [done..|].
      by intros t ?%elem_of_nil.
  - rewrite <- Hitems, <- Hraised. by split_and!.
Qed.

Lemma events_nil evs : began evs = [] → written evs = [] → evs = [].
Proof. by destruct evs as [|[t tbl|t tbl] evs]. Qed.

Lemma new_keys_none (obs : Observations) : new_keys obs (dom obs) = [].
Proof.
  unfold new_keys. by rewrite difference_diag_L, elements_empty.
Qed.

(** A pass over no tasks touches nothing and returns nothing. *)
Lemma empty_pass messages schedule evs s :
  schedule_tasks_run messages [] None schedule = Some (evs, s) →
  evs = []
  ∧ observations s = _get_observations messages
  ∧ ∀ ms, main s = MReturned ms → ms = [].
Proof.
  intros Hrun.
  pose proof (Reachable_run _ _ _ _ _ _ Hrun) as Hr.
  pose proof (began_run _ _ _ _ _ _ Hrun) as Hb.
  destruct (r_consumed _ _ _ _ _ Hr) as (consumed & Htasks & _ & Hperm).
  symmetry in Htasks. apply app_eq_nil in Htasks as [-> _].
  symmetry in Hperm. apply Permutation_nil_r in Hperm.
  apply app_eq_nil in Hperm as [Hw Hfl].
  pose proof (executed_unwritten_in_flight s) as Hsub.
  rewrite Hfl in Hsub. apply submseteq_nil_r in Hsub.
  rewrite Hw, Hsub in Hb. apply Permutation_nil_r in Hb.
  assert (observations s = _get_observations messages) as Hobs.
  { symmetry. apply subseteq_dom_eq.
    - assert (writes_fresh messages evs s) as [Hseed _]; [|done].
      apply (writes_fresh_run_from messages [] None (NoDup_nil_2)
               ltac:(by intros t ?%elem_of_nil) schedule []
               (init messages [] None));
        [apply Reachable_init| |exact Hrun].
      split; [done|]. by intros t tbl ?%elem_of_nil.
    - rewrite (r_dom _ _ _ _ _ Hr), Hw. cbn.
      by rewrite (right_id_L ∅ (∪)). }
  split_and!; [by apply events_nil|done|].
  intros ms Hmain. destruct (r_returned _ _ _ _ _ Hr _ Hmain) as [_ Hms].
  unfold tool_messages in Hms.
  rewrite (r_originals _ _ _ _ _ Hr), <- Hobs, new_keys_none in Hms.
  cbn in Hms. congruence.
Qed.

(** X15. When no line of the joined contents of the history is an action
    line, [plan_and_schedule] invokes no tool and returns the empty
    list of records: the stream it hands over is empty, every run of
    the pass leaves the table as the history seeded it, and the two
    steps of the main thread return. *)
Theorem plan_without_actions_schedules_nothing (messages : list Message) :
  (∀ line, line ∈ split_nl (mjoin (content <$> messages)) →
           match_action line = None) →
  planned_tasks literal_eval tools messages = Ok ([], None)
  ∧ (∃ s, plan_and_schedule literal_eval tools messages [Main; Main]
          = Ok (Some ([], s))
          ∧ main s = MReturned [])
  ∧ ∀ schedule evs s,
      plan_and_schedule literal_eval tools messages schedule
        = Ok (Some (evs, s)) →
      evs = []
      ∧ observations s = _get_observations (base <$> messages)
      ∧ ∀ ms, main s = MReturned ms → ms = [].
Proof.
  intros Hno.
  assert (planned_tasks literal_eval tools messages = Ok ([], None)) as Hplan.
  { pose proof (planned_tasks_lines messages) as Hl. cbn zeta in Hl.
    rewrite line_tasks_no_action in Hl by done. cbn [items raised] in Hl.
    destruct (planned_tasks literal_eval tools messages) as [[tasks raises]|e].
    - destruct Hl as (Hnil & -> & _). apply fmap_nil_inv in Hnil. by subst.
    - by destruct Hl. }
  unfold plan_and_schedule. rewrite Hplan. split_and!; [done| |].
  - unfold schedule_tasks_run, init.
    cbn [run step step_main main tasks_iter tasks_iter_raises set_main
         futures all_done forallb observations task_names originals].
    unfold tool_messages. rewrite new_keys_none. cbn. by eexists.
  - intros schedule evs s [= Hrun]. by apply (empty_pass _ schedule).
Qed.


(** X17. What [plan_and_schedule] returns does not depend on the interleaving
    of the threads of the pass: for a history whose plan parses without
    an exception into tasks of distinct ids, none of them seeded by the
    history, two runs that return give the same records. Nothing is
    assumed of the tasks: the parser built them. *)
Theorem plan_and_schedule_result_is_schedule_independent
    (messages : list Message) (tasks : list Task)
    (schedule1 schedule2 : list Thread) (evs1 evs2 : list Event)
    (s1 s2 : Sched) (ms1 ms2 : list FunctionMessage) :
  planned_tasks literal_eval tools messages = Ok (tasks, None) →
  NoDup (idx <$> tasks) →
  (∀ t, t ∈ tasks → idx t ∉ dom (_get_observations (base <$> messages))) →
  plan_and_schedule literal_eval tools messages schedule1
    = Ok (Some (evs1, s1)) →
  main s1 = MReturned ms1 →
  plan_and_schedule literal_eval tools messages schedule2
    = Ok (Some (evs2, s2)) →
  main s2 = MReturned ms2 →
  ms1 = ms2 ∧ observations s1 = observations s2.
Proof.
  intros Hplan Hnd Hnew Hrun1 Hm1 Hrun2 Hm2.
  unfold plan_and_schedule in Hrun1, Hrun2. rewrite Hplan in Hrun1, Hrun2.
  injection Hrun1 as Hrun1. injection Hrun2 as Hrun2.
  pose proof (planned_tasks_lines messages) as Hl. cbn zeta in Hl.
  rewrite Hplan in Hl. destruct Hl as (_ & _ & _ & Hitems).
  destruct (returned_runs_agree (base <$> messages) tasks
              schedule1 schedule2 evs1 evs2 s1 s2 ms2 Hnd Hnew)
    as [_ Heq]; [|done..|].
  - intros t Ht. eapply transform_items_framed. by apply Hitems.
  - by destruct (Heq ms1 Hm1).
Qed.

End PlanAndSchedule.

(** ** Resolution and fragments, once more *)

Section MoreResolution.

Import Re OutputParser TaskFetching.

Lemma _resolve_arg_empty v : _resolve_arg v ∅ = v.
Proof.
  induction v as [s|z|b| |items IH|entries IH] using Value_nested_ind;
    cbn [_resolve_arg]; try done.
  - f_equal. apply sub_ids_id. intros whole g _. unfold replace_match.
    by rewrite lookup_empty.
  - f_equal. induction IH as [|x items Hx _ IHf]; [done|].
    cbn [map]. by rewrite Hx, IHf.
Qed.


End MoreResolution.

Section Fragmentation.

Import Re OutputParser.

Variable literal_eval : text → option Value.
Variable tools : list BaseTool.

(** X13. How a plan text is cut into fragments changes nothing but thought
    annotations: two lists of fragments that join to the same text give
    the same number of tasks, with the same ids, tools, arguments and
    dependencies in the same order, and end in the same exception or
    in none; and these are the tasks of the lines of the joined text,
    each line parsed on its own. *)
Theorem fragmentation_changes_only_thoughts (chunks1 chunks2 : list text) :
  mjoin chunks1 = mjoin chunks2 →
  map no_thought (items (_transform literal_eval tools (InList chunks1)))
    = map no_thought (items (_transform literal_eval tools (InList chunks2)))
  ∧ length (items (_transform literal_eval tools (InList chunks1)))
    = length (items (_transform literal_eval tools (InList chunks2)))
  ∧ raised (_transform literal_eval tools (InList chunks1))
    = raised (_transform literal_eval tools (InList chunks2))
  ∧ map no_thought (items (_transform literal_eval tools (InList chunks1)))
    = items (line_tasks literal_eval tools (split_nl (mjoin chunks1)))
  ∧ raised (_transform literal_eval tools (InList chunks1))
    = raised (line_tasks literal_eval tools (split_nl (mjoin chunks1))).
Proof.
  intros Hjoin.
  destruct (_transform_line_tasks literal_eval tools (InList chunks1))
    as [Hi1 Hr1].
  destruct (_transform_line_tasks literal_eval tools (InList chunks2))
    as [Hi2 Hr2].
  cbn zeta in Hi1, Hr1, Hi2, Hr2. cbn [input_chunks] in Hi1, Hr1, Hi2, Hr2.
  rewrite <- Hjoin in Hi2, Hr2.
  split_and!; [congruence| |congruence|done..].
  rewrite <- (length_map no_thought), Hi1, <- Hi2. apply length_map.
Qed.

End Fragmentation.

(** ** A join and the ids before it *)

Section JoinWaits.

Import OutputParser TaskFetching.

(** X3. A [join] of id [n] waits for every id from 1 to [n - 1]: when the
    plan skips one of them, and the history does not seed it, the
    [join] is never executed and the pass neither returns nor raises,
    whatever the other tasks do. *)
Theorem join_waits_forever_for_a_skipped_id
    (literal_eval : text → option Value) (tools : list BaseTool)
    (messages : list BaseMessage) (tasks : list Task) (raises : option Exn)
    (n k : Z) (arg_text : text) (thought : option text) (t : Task)
    (schedule : list Thread) (evs : list Event) (s : Sched) :
  instantiate_task literal_eval tools n "join" arg_text thought = Ok t →
  t ∈ tasks →
  (1 ≤ k < n)%Z →
  k ∉ dom (_get_observations messages) →
  (∀ t', t' ∈ tasks → idx t' ≠ k) →
  schedule_tasks_run messages tasks raises schedule = Some (evs, s) →
  k ∈ dependencies t
  ∧ (∀ tbl, Began t tbl ∉ evs)
  ∧ observations s !! k = None
  ∧ ¬ pass_over s.
Proof.
  intros Hinst Ht Hk Hseed Hnone Hrun.
  assert (k ∈ dependencies t) as Hdep.
  { unfold instantiate_task in Hinst.
    rewrite bool_decide_eq_true_2 in Hinst by done.
    injection Hinst as <-. cbn [dependencies].
    unfold _get_dependencies_from_graph.
    rewrite bool_decide_eq_true_2 by done.
    unfold range_from_1. apply elem_of_seqZ. lia. }
  pose proof (Reachable_run _ _ _ _ _ _ Hrun) as Hr.
  pose proof (began_run _ _ _ _ _ _ Hrun) as Hb.
  assert (∀ t0, t0 = t → t0 ∉ began evs) as Hnb.
  { eapply (blocked_run_from messages tasks raises (λ t0, t0 = t));
      [|apply Reachable_init|done| |exact Hrun].
    - intros t0 -> _. exists k. split_and!; [done..|].
      intros t' Ht' Hid. by destruct (Hnone t' Ht').
    - intros t0 _ Hin. by apply elem_of_nil in Hin. }
  assert (observations s !! k = None) as Habsent.
  { apply not_elem_of_dom. rewrite (r_dom _ _ _ _ _ Hr).
    intros [?|Hw]%elem_of_union; [done|].
    apply elem_of_list_to_set, list_elem_of_fmap in Hw as (t' & Hid & Hw).
    apply (Hnone t'); [|done].
    destruct (r_consumed _ _ _ _ _ Hr) as (consumed & -> & _ & Hperm).
    apply elem_of_app. left. rewrite Hperm. apply elem_of_app. by left. }
  split_and!; [done| |done|].
  - intros tbl Hin. apply (Hnb t eq_refl). apply elem_of_began. by exists tbl.
  - intros Hover.
    destruct (pass_over_no_task _ _ _ _ _ _ Hrun Hover) as (_ & _ & Hw).
    apply (Hnb t eq_refl). rewrite Hb. apply elem_of_app. left. by rewrite Hw.
Qed.

End JoinWaits.

(** ** Action lines *)

Section ActionLines.

Import Re OutputParser.

Lemma take_while_split {A} (p : A → bool) l :
  l = take_while p l ++ drop (length (take_while p l)) l.
Proof.
  induction l as [|x l IH]; [done|]. cbn [take_while].
  destruct (p x); [|done]. cbn [length drop app]. by rewrite <- IH.
Qed.

Lemma take_while_stop {A} (p : A → bool) l c rest :
  drop (length (take_while p l)) l = c :: rest → p c = false.
Proof.
  induction l as [|x l IH]; [done|]. cbn [take_while].
  destruct (p x) eqn:Hx; [apply IH|]. cbn [length drop]. by intros [= -> _].
Qed.

(** A scan that stops inside a text is not changed by what follows the
    text. *)
Lemma take_while_app_tail {A} (p : A → bool) l c rest tail :
  drop (length (take_while p l)) l = c :: rest →
  take_while p (l ++ tail) = take_while p l
  ∧ drop (length (take_while p l)) (l ++ tail) = c :: rest ++ tail.
Proof.
  intros Hd. pose proof (take_while_stop p l c rest Hd) as Hc. split.
  - rewrite (take_while_split p l) at 1. rewrite Hd, <- app_assoc.
    cbn [app]. rewrite take_while_app_stop by done.
    apply take_while_all, take_while_Forall.
  - rewrite drop_app_le by apply take_while_length. by rewrite Hd.
Qed.

Lemma take_while_app_prefix {A} (p : A → bool) a b :
  ∃ t, take_while p (a ++ b) = take_while p a ++ t ∧ ∀ x, x ∈ t → x ∈ b.
Proof.
  induction a as [|x a (t & IH & Ht)].
  - exists (take_while p b). split; [done|]. intros x Hx.
    induction b as [|y b IHb]; [done|]. cbn [take_while] in Hx.
    destruct (p y); [|by apply elem_of_nil in Hx].
    apply elem_of_cons in Hx as [->|Hx]; [left|right; by apply IHb].
  - cbn [app take_while]. destruct (p x).
    + exists t. by rewrite IH.
    + exists []. split; [done|]. by intros y ?%elem_of_nil.
Qed.

Lemma drop_while_app_tail {A} (p : A → bool) l tail :
  drop_while p l ≠ [] → drop_while p (l ++ tail) = drop_while p l ++ tail.
Proof.
  induction l as [|x l IH]; [done|]. cbn [app drop_while].
  destruct (p x); [apply IH|done].
Qed.

Lemma last_rparen_app a b :
  ")"%char ∉ b → last_rparen (a ++ b) = last_rparen a.
Proof.
  intros Hb. induction a as [|c a IH].
  - cbn [app]. induction b as [|c b IHb]; [done|].
    apply not_elem_of_cons in Hb as [Hc Hb]. cbn [last_rparen].
    rewrite IHb by done. by rewrite bool_decide_eq_false_2.
  - cbn [app last_rparen]. by rewrite IH.
Qed.

Lemma last_rparen_lt a i : last_rparen a = Some i → i < length a.
Proof.
  revert i. induction a as [|c a IH]; intros i; [done|].
  cbn [last_rparen length]. destruct (last_rparen a) as [j|].
  - intros [= <-]. specialize (IH j eq_refl). lia.
  - case_bool_decide; [|done]. intros [= <-]. lia.
Qed.

Lemma match_action_app_tail line tail r :
  match_action line = Some r → ")"%char ∉ tail →
  match_action (line ++ tail) = Some r.
Proof.
  unfold match_action. intros Hm Htail.
  destruct (take_while is_digit (drop_while is_nl line)) as [|d ds] eqn:Hds;
    [done|].
  assert (drop_while is_nl line ≠ []) as Hne
    by (intros Heq; by rewrite Heq in Hds).
  rewrite drop_while_app_tail by done.
  destruct (drop (length (d :: ds)) (drop_while is_nl line))
    as [|c1 [|c2 s1]] eqn:Hd1; [done..|].
  rewrite <- Hds in Hd1.
  destruct (take_while_app_tail is_digit _ _ _ tail Hd1) as [-> ->].
  rewrite Hds. cbn [app].
  destruct (bool_decide (c1 = "."%char) && bool_decide (c2 = " "%char));
    [|done].
  destruct (take_while is_word s1) as [|w ws] eqn:Hw; [done|].
  destruct (drop (length (w :: ws)) s1) as [|c3 s2] eqn:Hd2; [done|].
  rewrite <- Hw in Hd2.
  destruct (take_while_app_tail is_word _ _ _ tail Hd2) as [-> ->].
  rewrite Hw.
  destruct (bool_decide (c3 = "("%char)); [|done].
  destruct (take_while_app_prefix (λ c, negb (is_nl c)) s2 tail)
    as (t & -> & Ht).
  destruct (last_rparen (take_while (λ c, negb (is_nl c)) s2)) as [i|] eqn:Hl;
    [|done].
  rewrite last_rparen_app, Hl
    by (intros Hin; apply Htail; by apply Ht).
  cbn [fmap option_fmap option_map] in *.
  rewrite take_app_le by (apply last_rparen_lt in Hl; lia). done.
Qed.

Variable literal_eval : text → option Value.
Variable tools : list BaseTool.

(** X14. What follows the last closing parenthesis of an action line is not
    part of the action, nor are newlines before it: the line with any
    text appended that holds no closing parenthesis, a comment say,
    gives the same id, tool name and argument text, and the same task or
    the same exception. *)
Theorem text_after_last_parenthesis_is_ignored
    (line tail n tname a : text) :
  match_action line = Some (n, tname, a) →
  ")"%char ∉ tail →
  match_action (line ++ tail) = Some (n, tname, a)
  ∧ (∀ k, match_action (replicate k chr_nl ++ line ++ tail)
          = Some (n, tname, a))
  ∧ (∀ thought,
       _parse_task literal_eval tools (line ++ tail) thought
         = _parse_task literal_eval tools line thought).
Proof.
  intros Hm Htail.
  pose proof (match_action_app_tail _ _ _ Hm Htail) as Hm'.
  split_and!; [done| |].
  - intros k. rewrite <- Hm'. unfold match_action.
    assert (drop_while is_nl (replicate k chr_nl ++ line ++ tail)
            = drop_while is_nl (line ++ tail)) as ->; [|done].
    induction k as [|k IH]; [done|]. cbn [replicate app drop_while].
    by rewrite IH.
  - intros thought. unfold _parse_task.
    rewrite !(match_action_not_thought _) by (by rewrite ?Hm, ?Hm').
    by rewrite Hm, Hm'.
Qed.

End ActionLines.

(** ** Replanning *)

Section Replanning.

Import Re OutputParser TaskFetching LLMCompiler.

Variable literal_eval : text → option Value.
Variable tools : list BaseTool.

Lemma _get_observations_present messages m i :
  Function m ∈ messages → fm_idx m = Some i →
  is_Some (_get_observations messages !! i).
Proof.
  induction messages as [|m0 rest IH]; [by intros ?%elem_of_nil|].
  rewrite _get_observations_cons. intros [Heq|Hin]%elem_of_cons Hi.
  - subst m0. rewrite Hi, lookup_insert_eq. by eexists.
  - destruct m0 as [fm|c]; [|by apply IH].
    destruct (fm_idx fm) as [j|]; [|by apply IH].
    destruct (decide (j = i)) as [->|Hne].
    + rewrite lookup_insert_eq. by eexists.
    + rewrite lookup_insert_ne by done. by apply IH.
Qed.

Lemma _get_observations_origin messages i :
  is_Some (_get_observations messages !! i) →
  ∃ m, Function m ∈ messages ∧ fm_idx m = Some i.
Proof.
  induction messages as [|m0 rest IH]; [by intros [? ?]|].
  rewrite _get_observations_cons. intros Hsome.
  assert (is_Some (_get_observations rest !! i) →
          ∃ m, Function m ∈ m0 :: rest ∧ fm_idx m = Some i) as Hrest.
  { intros (m & Hin & Hi)%IH. exists m. split; [by right|done]. }
  destruct m0 as [fm|c]; [|by apply Hrest].
  destruct (fm_idx fm) as [j|] eqn:Hj; [|by apply Hrest].
  destruct (decide (j = i)) as [->|Hne].
  - exists fm. split; [left|done].
  - rewrite lookup_insert_ne in Hsome by done. by apply Hrest.
Qed.

(** The ids of the records a pass returns are the keys of its final
    table that the history did not seed. *)
Lemma returned_record_ids messages tasks raises schedule evs s ms :
  schedule_tasks_run messages tasks raises schedule = Some (evs, s) →
  main s = MReturned ms →
  (∀ m, m ∈ ms →
        ∃ i, fm_idx m = Some i
             ∧ i ∈ dom (observations s)
             ∧ i ∉ dom (_get_observations messages))
  ∧ ∀ i, i ∈ dom (observations s) →
         i ∉ dom (_get_observations messages) →
         ∃ m, m ∈ ms ∧ fm_idx m = Some i.
Proof.
  intros Hrun Hmain.
  pose proof (returned_records _ _ _ _ _ _
                (Reachable_run _ _ _ _ _ _ Hrun) Hmain) as Hrec.
  split.
  - intros m [k Hk]%list_elem_of_lookup.
    destruct (Forall2_lookup_r _ _ _ _ _ Hrec Hk) as (i & Hi & Hid & _).
    exists i. split; [done|].
    apply elem_of_new_keys. by eapply list_elem_of_lookup_2.
  - intros i Hin Hnew.
    assert (i ∈ new_keys (observations s) (dom (_get_observations messages)))
      as [k Hk]%list_elem_of_lookup by (by apply elem_of_new_keys).
    destruct (Forall2_lookup_l _ _ _ _ _ Hrec Hk) as (m & Hm & Hid & _).
    exists m. split; [by eapply list_elem_of_lookup_2|done].
Qed.

(** When a pass is over every task of its stream was executed and has
    an entry in the table. *)
Lemma pass_over_began messages tasks raises schedule evs s :
  schedule_tasks_run messages tasks raises schedule = Some (evs, s) →
  pass_over s →
  began evs ≡ₚ tasks ∧ ∀ t, t ∈ tasks → idx t ∈ dom (observations s).
Proof.
  intros Hrun Hover.
  pose proof (began_run _ _ _ _ _ _ Hrun) as Hb.
  pose proof (Reachable_run _ _ _ _ _ _ Hrun) as Hr.
  destruct (pass_over_no_task _ _ _ _ _ _ Hrun Hover) as (Hfl & _ & Hw).
  split.
  - rewrite Hb. pose proof (executed_unwritten_in_flight s) as Hsub.
    rewrite Hfl in Hsub. apply submseteq_nil_r in Hsub.
    by rewrite Hsub, app_nil_r.
  - intros t Ht. rewrite (r_dom _ _ _ _ _ Hr).
    apply elem_of_union. right. apply elem_of_list_to_set.
    apply list_elem_of_fmap_2. by rewrite Hw.
Qed.

Lemma base_records (ms : list FunctionMessage) :
  base <$> (FunctionMsg <$> ms) = Function <$> ms.
Proof. by rewrite <- list_fmap_compose. Qed.

Lemma joiner_seeds_nothing (decision : JoinOutputs) :
  _get_observations (base <$> _parse_joiner_output decision) = ∅.
Proof. unfold _parse_joiner_output. by destruct (should_replan decision). Qed.

(** The table a replanning pass starts from: the state is the earlier
    state, the records of the pass before and what the joiner added. *)
Lemma replanning_seeds (state : list Message) tasks raises schedule evs s ms
    (decision : JoinOutputs) :
  schedule_tasks_run (base <$> state) tasks raises schedule = Some (evs, s) →
  main s = MReturned ms →
  dom (_get_observations
         (base <$> state ++ (FunctionMsg <$> ms)
                         ++ _parse_joiner_output decision))
    = dom (observations s).
Proof.
  intros Hrun Hmain.
  pose proof (Reachable_run _ _ _ _ _ _ Hrun) as Hr.
  destruct (returned_record_ids _ _ _ _ _ _ _ Hrun Hmain) as [Hids Hrecs].
  rewrite !fmap_app, base_records, !_get_observations_app,
    joiner_seeds_nothing, (right_id_L ∅ (∪)), dom_union_L.
  apply set_eq. intros i. rewrite elem_of_union. split.
  - intros [Hseed|Hrec].
    + rewrite (r_dom _ _ _ _ _ Hr). apply elem_of_union. by left.
    + apply elem_of_dom, _get_observations_origin in Hrec
        as (m & Hin & Hi).
      apply list_elem_of_fmap in Hin as (m' & [= <-] & Hin).
      destruct (Hids _ Hin) as (j & Hj & Hdom & _). congruence.
  - intros Hin.
    destruct (decide (i ∈ dom (_get_observations (base <$> state))))
      as [Hseed|Hnew]; [by left|right].
    destruct (Hrecs i Hin Hnew) as (m & Hm & Hi).
    apply elem_of_dom. apply (_get_observations_present _ m); [|done].
    by apply list_elem_of_fmap_2.
Qed.

(** X20. When the graph replans, [plan_and_schedule] runs on the earlier
    state followed by the records of the pass before and by the
    messages of the joiner. The table of that pass is seeded with
    exactly the keys of the final table of the pass before, so no id is
    reported twice: no record it returns carries an id the pass before
    observed. Yet every task of the new plan is executed, also a task
    whose id was observed before: its tool is invoked again and its
    observation is written to the table, but no record is returned for
    it. *)
Theorem replanning_reports_no_id_twice
    (state : list Message) (decision : JoinOutputs)
    (schedule1 schedule2 : list Thread) (evs1 evs2 : list Event)
    (s1 s2 : Sched) (ms1 ms2 : list FunctionMessage) :
  plan_and_schedule literal_eval tools state schedule1
    = Ok (Some (evs1, s1)) →
  main s1 = MReturned ms1 →
  plan_and_schedule literal_eval tools
    (state ++ (FunctionMsg <$> ms1) ++ _parse_joiner_output decision)
    schedule2
    = Ok (Some (evs2, s2)) →
  main s2 = MReturned ms2 →
  originals s2 = dom (observations s1)
  ∧ (∀ m i, m ∈ ms2 → fm_idx m = Some i → i ∉ dom (observations s1))
  ∧ (∀ m1 m2, m1 ∈ ms1 → m2 ∈ ms2 → fm_idx m1 ≠ fm_idx m2)
  ∧ ∃ tasks2 raises2,
      planned_tasks literal_eval tools
        (state ++ (FunctionMsg <$> ms1) ++ _parse_joiner_output decision)
        = Ok (tasks2, raises2)
      ∧ began evs2 ≡ₚ tasks2
      ∧ ∀ t, t ∈ tasks2 →
             is_Some (observations s2 !! idx t)
             ∧ (idx t ∈ dom (observations s1) →
                ∀ m, m ∈ ms2 → fm_idx m ≠ Some (idx t)).
Proof.
  intros Hpass1 Hmain1 Hpass2 Hmain2.
  unfold plan_and_schedule in Hpass1, Hpass2.
  destruct (planned_tasks literal_eval tools state)
    as [[tasks1 raises1]|e]; [|done].
  injection Hpass1 as Hrun1.
  destruct (planned_tasks literal_eval tools _)
    as [[tasks2 raises2]|e] eqn:Hplan2; [|done].
  injection Hpass2 as Hrun2.
  pose proof (replanning_seeds _ _ _ _ _ _ _ decision Hrun1 Hmain1) as Hseeds.
  destruct (returned_record_ids _ _ _ _ _ _ _ Hrun1 Hmain1) as [Hids1 _].
  destruct (returned_record_ids _ _ _ _ _ _ _ Hrun2 Hmain2) as [Hids2 _].
  rewrite Hseeds in Hids2.
  assert (∀ m i, m ∈ ms2 → fm_idx m = Some i → i ∉ dom (observations s1))
    as Hnew.
  { intros m i Hm Hi. destruct (Hids2 m Hm) as (j & Hj & _ & Hout).
    congruence. }
  destruct (pass_over_began _ _ _ _ _ _ Hrun2) as [Hbegan Hwritten].
  { unfold pass_over. by rewrite Hmain2. }
  split_and!.
  - by rewrite (r_originals _ _ _ _ _ (Reachable_run _ _ _ _ _ _ Hrun2)).
  - exact Hnew.
  - intros m1 m2 Hm1 Hm2 Heq.
    destruct (Hids1 m1 Hm1) as (i & Hi & Hdom & _).
    apply (Hnew m2 i Hm2); [congruence|done].
  - exists tasks2, raises2. split_and!; [done..|].
    intros t Ht. split; [by apply elem_of_dom, Hwritten|].
    intros Hold m Hm Hi. by apply (Hnew m (idx t) Hm Hi).
Qed.

End Replanning.

(** ** Where thoughts are attached *)

Section Thoughts.

Import Re OutputParser.

Variable literal_eval : text → option Value.
Variable tools : list BaseTool.

(** A line that gives a task takes the pending thought and leaves none. *)
Lemma _parse_task_yield line th t th' :
  _parse_task literal_eval tools line th = Ok (Some t, th') →
  th' = None ∧ thought t = th.
Proof.
  unfold _parse_task. destruct (match_thought line); [done|].
  destruct (match_action line) as [[[n tname] a]|]; [|done].
  destruct (instantiate_task _ _ _ _ _ _) as [t0|e] eqn:Hinst; [|done].
  intros [= <- <-]. split; [done|].
  unfold instantiate_task in Hinst. case_bool_decide.
  - by injection Hinst as <-.
  - destruct (lookup_tool tools tname); [|done]. by injection Hinst as <-.
Qed.

Lemma ingest_lines_yields lines th :
  Forall (λ y : Task * option text, y.2 = None)
         (items (ingest_lines literal_eval tools lines th)).
Proof.
  revert th. induction lines as [|line rest IH]; intros th; [constructor|].
  cbn [ingest_lines].
  destruct (_parse_task literal_eval tools line th) as [[task th']|e] eqn:Hp;
    [|constructor].
  cbn [items]. destruct task as [t|]; [|apply IH].
  constructor; [|apply IH]. by destruct (_parse_task_yield _ _ _ _ Hp).
Qed.

(** The variable [thought] of [_transform] is assigned from what
    [ingest_token] yields, so it never holds a thought. *)
Lemma yielded_thought (ys : list (Task * option text)) :
  Forall (λ y, y.2 = None) ys →
  foldl (λ (_ : option text) y, snd y) None ys = None.
Proof.
  induction ys as [|y ys IH] using rev_ind; [done|].
  intros [_ Hy]%Forall_app. rewrite foldl_app. cbn [foldl].
  by apply Forall_inv in Hy.
Qed.

Lemma split_nl_length s :
  length (split_nl s) = S (length (List.filter is_nl s)).
Proof.
  induction s as [|c r IH]; [done|]. cbn [split_nl List.filter].
  destruct (is_nl c); cbn [length]; [by rewrite IH|].
  rewrite <- IH. pose proof (split_nl_not_nil r). by destruct (split_nl r).
Qed.

Lemma filter_is_nl_none s : chr_nl ∉ s → List.filter is_nl s = [].
Proof.
  induction s as [|c r IH]; [done|].
  intros [Hc Hr]%not_elem_of_cons. cbn [List.filter].
  unfold is_nl at 1. rewrite bool_decide_eq_false_2 by done. by apply IH.
Qed.

Lemma last_item_app d (l1 l2 : list text) :
  l2 ≠ [] → last_item d (l1 ++ l2) = last_item d l2.
Proof.
  unfold last_item. intros Hne. induction l1 as [|x l1 IH]; [done|].
  cbn [app]. destruct (l1 ++ l2) eqn:Happ; [|done].
  by apply app_eq_nil in Happ as [_ ?].
Qed.

Lemma last_item_last d (l : list text) line :
  last_item d (l ++ [line]) = line.
Proof. by rewrite last_item_app. Qed.

(** One step of the loop of [_transform] on a buffer without newline
    and without a pending thought, in the two cases of [ingest_token]. *)
Lemma transform_chunks_step chunk rest texts :
  transform_chunks literal_eval tools (chunk :: rest) texts None
    = if bool_decide (chr_nl ∈ chunk) then
        let lines := split_nl (mjoin (texts ++ [chunk])) in
        let r := ingest_lines literal_eval tools (but_last lines) None in
        match raised r with
        | Some e => {| items := map fst (items r); raised := Some e |}
        | None =>
            let r' := transform_chunks literal_eval tools rest
                        [last_item [] lines] None in
            {| items := map fst (items r) ++ items r';
               raised := raised r' |}
        end
      else transform_chunks literal_eval tools rest (texts ++ [chunk]) None.
Proof.
  cbn [transform_chunks]. unfold ingest_token. case_bool_decide.
  - cbn zeta.
    destruct (raised (ingest_lines literal_eval tools _ None)) eqn:Hr.
    + by rewrite Hr.
    + rewrite Hr. by rewrite yielded_thought by apply ingest_lines_yields.
  - cbn [raised items foldl map app].
    by destruct (transform_chunks literal_eval tools rest (texts ++ [chunk])
                   None).
Qed.

Lemma suffix_no_nl s : chr_nl ∉ mjoin [last_item [] (split_nl s)].
Proof.
  cbn. rewrite app_nil_r. apply split_nl_lines with (s := s).
  apply last_item_elem, split_nl_not_nil.
Qed.

Lemma buffer_no_nl texts chunk :
  chr_nl ∉ mjoin texts → chr_nl ∉ chunk → chr_nl ∉ mjoin (texts ++ [chunk]).
Proof.
  intros Ht Hc. rewrite join_app. cbn. rewrite app_nil_r.
  by intros [?|?]%elem_of_app.
Qed.

Lemma streamed_chunks_no_thought chunks texts :
  chr_nl ∉ mjoin texts →
  (∀ chunk, chunk ∈ chunks → length (List.filter is_nl chunk) ≤ 1) →
  Forall (λ t, thought t = None)
         (items (transform_chunks literal_eval tools chunks texts None)).
Proof.
  revert texts. induction chunks as [|chunk rest IH]; intros texts Hnl Hone.
  - cbn [transform_chunks]. destruct texts as [|t0 ts]; [constructor|].
    destruct (_parse_task literal_eval tools (mjoin (t0 :: ts)) None)
      as [[[t|] th]|e] eqn:Hp; try constructor; [|constructor].
    by destruct (_parse_task_yield _ _ _ _ Hp).
  - assert (∀ c, c ∈ rest → length (List.filter is_nl c) ≤ 1) as Hrest
      by (intros c Hc; apply Hone; by right).
    rewrite transform_chunks_step. case_bool_decide as Hc.
    + cbn zeta.
      assert (Forall (λ t, thought t = None)
                (map fst (items (ingest_lines literal_eval tools
                                   (but_last (split_nl (mjoin (texts ++ [chunk]))))
                                   None)))) as Hfirst.
      { pose proof (split_nl_length (mjoin (texts ++ [chunk]))) as Hlen.
        rewrite join_app in Hlen. cbn [mjoin list_join] in Hlen.
        rewrite app_nil_r, List.filter_app, filter_is_nl_none in Hlen by done.
        cbn [app] in Hlen.
        pose proof (Hone chunk ltac:(left)) as Hle.
        rewrite join_app. cbn [mjoin list_join]. rewrite app_nil_r.
        unfold but_last.
        destruct (split_nl (mjoin texts ++ chunk)) as [|l1 [|l2 [|l3 ls]]];
          cbn [length] in Hlen; [constructor|constructor| |lia].
        cbn [removelast ingest_lines].
        destruct (_parse_task literal_eval tools l1 None)
          as [[[t|] th]|e] eqn:Hp; cbn [items map]; try constructor;
          [|constructor].
        by destruct (_parse_task_yield _ _ _ _ Hp). }
      destruct (raised (ingest_lines literal_eval tools _ None)); [done|].
      cbn [items]. apply Forall_app. split; [done|].
      apply IH; [apply suffix_no_nl|done].
    + apply IH; [|done]. by apply buffer_no_nl.
Qed.

Lemma flushed_task chunks texts t th :
  chr_nl ∉ mjoin texts →
  raised (transform_chunks literal_eval tools chunks texts None) = None →
  _parse_task literal_eval tools
    (last_item [] (split_nl (mjoin texts ++ mjoin chunks))) None
    = Ok (Some t, th) →
  last (items (transform_chunks literal_eval tools chunks texts None))
    = Some t.
Proof.
  revert texts. induction chunks as [|chunk rest IH]; intros texts Hnl.
  - cbn [transform_chunks mjoin list_join]. rewrite app_nil_r.
    rewrite split_nl_one_line by done. cbn [last_item List.last].
    intros _ Hp. destruct texts as [|t0 ts].
    + exfalso. revert Hp. by vm_compute.
    + by rewrite Hp.
  - rewrite transform_chunks_step.
    change (mjoin (chunk :: rest)) with (chunk ++ mjoin rest).
    assert (mjoin texts ++ chunk ++ mjoin rest
            = mjoin (texts ++ [chunk]) ++ mjoin rest) as ->.
    { rewrite join_app. cbn. by rewrite app_nil_r, app_assoc. }
    case_bool_decide as Hc.
    + cbn zeta. rewrite split_nl_app.
      rewrite last_item_app by apply split_nl_not_nil.
      destruct (raised (ingest_lines literal_eval tools _ None)); [done|].
      cbn [raised items]. intros Hr Hp.
      rewrite last_app.
      rewrite (IH [last_item [] (split_nl (mjoin (texts ++ [chunk])))]);
        [done|apply suffix_no_nl|done|].
      cbn [mjoin list_join]. by rewrite app_nil_r.
    + intros Hr Hp. apply IH; [by apply buffer_no_nl|done..].
Qed.

(** X21. Fed to the parser in fragments that hold at most one newline each,
    as a stream of tokens or of lines is, a plan gives tasks without
    thought annotation, whatever [Thought:] lines it has: the pending
    thought does not outlive the call of [ingest_token] that read it. *)
Theorem streamed_tasks_carry_no_thought (input : Input) (t : Task) :
  (∀ chunk, chunk ∈ input_chunks input →
            length (List.filter is_nl chunk) ≤ 1) →
  t ∈ items (_transform literal_eval tools input) →
  thought t = None.
Proof.
  intros Hone Hin.
  pose proof (streamed_chunks_no_thought (input_chunks input) []
                ltac:(apply not_elem_of_nil) Hone) as Hall.
  rewrite Forall_forall in Hall. by apply Hall.
Qed.

(** X22. The task of a last line that no newline ends has no thought
    annotation either, however the input is cut and also when a
    [Thought:] line stands right before it in the same fragment: when
    the parser raises nothing, that task is the last one emitted, as it
    is parsed without a pending thought. *)
Theorem unterminated_action_line_gets_no_thought
    (input : Input) (lines : list text) (line : text)
    (t : Task) (th : option text) :
  split_nl (mjoin (input_chunks input)) = lines ++ [line] →
  _parse_task literal_eval tools line None = Ok (Some t, th) →
  raised (_transform literal_eval tools input) = None →
  last (items (_transform literal_eval tools input)) = Some t
  ∧ thought t = None.
Proof.
  intros Hlines Hp Hr. split; [|by destruct (_parse_task_yield _ _ _ _ Hp)].
  apply (flushed_task (input_chunks input) [] t th);
    [apply not_elem_of_nil|done|].
  cbn [mjoin list_join app]. by rewrite Hlines, last_item_last.
Qed.

Lemma split_nl_line l y :
  chr_nl ∉ l → split_nl (l ++ chr_nl :: y) = l :: split_nl y.
Proof.
  induction l as [|c l IH]; intros Hnl.
  - cbn [app split_nl]. unfold is_nl. by rewrite bool_decide_eq_true_2.
  - apply not_elem_of_cons in Hnl as [Hc Hl]. cbn [app].
    rewrite split_nl_cons_line by (unfold is_nl; by case_bool_decide).
    by rewrite IH.
Qed.

Lemma split_nl_ends_nl p :
  last_item [] (split_nl (p ++ [chr_nl])) = [].
Proof.
  rewrite split_nl_app.
  rewrite split_nl_line
    by (apply split_nl_lines with (s := p);
        apply last_item_elem, split_nl_not_nil).
  by rewrite last_item_app.
Qed.

Lemma but_last_app (l1 l2 : list text) :
  l2 ≠ [] → but_last (l1 ++ l2) = l1 ++ but_last l2.
Proof. intros Hne. unfold but_last. by apply removelast_app. Qed.

Lemma ingest_lines_app l1 l2 th :
  raised (ingest_lines literal_eval tools (l1 ++ l2) th) = None →
  ∃ th1,
    raised (ingest_lines literal_eval tools l2 th1) = None
    ∧ items (ingest_lines literal_eval tools (l1 ++ l2) th)
      = items (ingest_lines literal_eval tools l1 th)
        ++ items (ingest_lines literal_eval tools l2 th1).
Proof.
  revert th. induction l1 as [|line rest IH]; intros th Hr.
  - by exists th.
  - cbn [app ingest_lines] in *.
    destruct (_parse_task literal_eval tools line th) as [[task th']|e];
      [|done].
    cbn [raised items] in *. destruct (IH th' Hr) as (th1 & Hr1 & Hitems).
    exists th1. split; [done|]. rewrite Hitems. by destruct task.
Qed.

(** X23. In one fragment, a [Thought:] line annotates the action line right
    after it, when a newline ends that action line too: the task of the
    action line is emitted with the text of the thought. *)
Theorem thought_annotates_the_next_action_line
    (pre th line post n tname a : text) :
  pre = [] ∨ (∃ p, pre = p ++ NL) →
  chr_nl ∉ th →
  chr_nl ∉ line →
  match_action line = Some (n, tname, a) →
  raised (_transform literal_eval tools
            (InStr (pre ++ "Thought: " ++ th ++ NL ++ line ++ NL ++ post)))
    = None →
  ∃ t, instantiate_task literal_eval tools (int_of_digits n) tname a (Some th)
       = Ok t
       ∧ thought t = Some th
       ∧ t ∈ items (_transform literal_eval tools
                      (InStr (pre ++ "Thought: " ++ th ++ NL ++ line ++ NL
                                  ++ post))).
Proof.
  intros Hpre Hth Hline Hact.
  set (s := pre ++ "Thought: " ++ th ++ NL ++ line ++ NL ++ post).
  assert (split_nl s
          = but_last (split_nl pre)
            ++ ("Thought: " ++ th) :: line :: split_nl post) as Hsplit.
  { unfold s. rewrite split_nl_app.
    assert (last_item [] (split_nl pre) = []) as ->.
    { destruct Hpre as [->|[p ->]]; [done|apply split_nl_ends_nl]. }
    cbn [app]. f_equal.
    change ("T"%char :: "h"%char :: "o"%char :: "u"%char :: "g"%char
            :: "h"%char :: "t"%char :: ":"%char :: " "%char
            :: th ++ NL ++ line ++ NL ++ post)
      with (("Thought: " ++ th) ++ chr_nl :: line ++ chr_nl :: post).
    rewrite split_nl_line.
    - by rewrite split_nl_line.
    - intros Hin. change ("Thought: " ++ th)
        with ("Thought: " ++ th) in Hin.
      apply elem_of_app in Hin as [Hin|Hin]; [|done].
      revert Hin. rewrite !elem_of_cons, elem_of_nil.
      intros [?|[?|[?|[?|[?|[?|[?|[?|[?|[]]]]]]]]]]; done. }
  assert (chr_nl ∈ s) as Hnl.
  { unfold s. apply elem_of_app. right. apply elem_of_app. right.
    apply elem_of_app. right. by left. }
  unfold _transform. cbn [input_chunks].
  rewrite transform_chunks_step, bool_decide_eq_true_2 by done.
  cbn zeta. cbn [app mjoin list_join]. rewrite app_nil_r, Hsplit.
  rewrite but_last_app by done.
  change (but_last (("Thought: " ++ th) :: line :: split_nl post))
    with (("Thought: " ++ th) :: but_last (line :: split_nl post)).
  assert (but_last (line :: split_nl post)
          = line :: but_last (split_nl post)) as ->.
  { pose proof (split_nl_not_nil post). unfold but_last.
    by destruct (split_nl post). }
  destruct (raised (ingest_lines literal_eval tools _ None)) eqn:Hr; [done|].
  intros _.
  destruct (ingest_lines_app _ _ _ Hr) as (th1 & Hr1 & ->).
  cbn [ingest_lines] in Hr1 |- *.
  assert (_parse_task literal_eval tools ("Thought: " ++ th) th1
          = Ok (None, Some th)) as Hthought.
  { unfold _parse_task, match_thought.
    change (starts_with "Thought: " ("Thought: " ++ th)) with true.
    cbn [drop app]. rewrite take_while_all; [done|].
    apply Forall_forall. intros c Hc. unfold is_nl.
    rewrite bool_decide_eq_false_2; [done|]. by intros ->. }
  rewrite Hthought in Hr1 |- *.
  assert (_parse_task literal_eval tools line (Some th)
          = match instantiate_task literal_eval tools (int_of_digits n)
                    tname a (Some th) with
            | Ok task => Ok (Some task, None)
            | Raise e => Raise e
            end) as Haction.
  { unfold _parse_task.
    by rewrite match_action_not_thought, Hact by (by rewrite Hact). }
  rewrite Haction in Hr1 |- *.
  destruct (instantiate_task literal_eval tools (int_of_digits n) tname a
              (Some th)) as [t|e] eqn:Hinst; [|done].
  exists t. split; [done|]. split.
  - unfold instantiate_task in Hinst. case_bool_decide.
    + by injection Hinst as <-.
    + destruct (lookup_tool tools tname); [|done]. by injection Hinst as <-.
  - cbn [items]. rewrite map_app. apply elem_of_app. left.
    apply elem_of_app. right. left.
Qed.

End Thoughts.

(** ** The order of named arguments *)

Section ArgumentOrder.

Import Re OutputParser.

Variable literal_eval : text → option Value.

Lemma find_Some_drop sub s i :
  find sub s = Some i → s = take i s ++ sub ++ drop (i + length sub) s.
Proof.
  revert i. induction s as [|c s IH]; intros i; rewrite find_unfold.
  - destruct (starts_with sub []) eqn:Hs; [|done]. intros [= <-].
    apply starts_with_prefix in Hs as [post Hpost].
    symmetry in Hpost. by apply app_eq_nil in Hpost as [-> ->].
  - destruct (starts_with sub (c :: s)) eqn:Hs.
    + intros [= <-]. apply starts_with_prefix in Hs as [post Hpost].
      rewrite Hpost. cbn [take app Nat.add].
      by rewrite drop_app_length.
    + destruct (find sub s) as [j|]; [|done]. intros [= <-].
      cbn [take app Nat.add drop]. f_equal. by apply IH.
Qed.

(** Two keys of a schema without repetition that are both bound are
    bound in the order of the schema. *)
Lemma sublist_order (bound keys : list text) k1 k2 l1 l2 l3 :
  NoDup keys → sublist bound keys →
  keys = l1 ++ k1 :: l2 ++ k2 :: l3 →
  k1 ∈ bound → k2 ∈ bound →
  ∃ b1 b2 b3, bound = b1 ++ k1 :: b2 ++ k2 :: b3.
Proof.
  intros Hnd Hsub -> Hk1 Hk2.
  apply NoDup_app in Hnd as (_ & Hl1 & Hnd).
  apply NoDup_cons in Hnd as [Hk1rest Hnd].
  apply NoDup_app in Hnd as (_ & Hl2 & Hnd).
  apply NoDup_cons in Hnd as [Hk2rest _].
  assert (k1 ≠ k2) as Hne.
  { intros ->. apply Hk1rest. apply elem_of_app. right. left. }
  apply sublist_app_r in Hsub as (B1 & B2 & -> & HB1 & HB2).
  assert (k1 ∉ B1) as Hk1B1.
  { intros Hin. apply (Hl1 k1); [by eapply elem_of_sublist|left]. }
  assert (k2 ∉ B1) as Hk2B1.
  { intros Hin. apply (Hl1 k2); [by eapply elem_of_sublist|].
    right. apply elem_of_app. right. left. }
  apply elem_of_app in Hk1 as [?|Hk1]; [done|].
  apply elem_of_app in Hk2 as [?|Hk2]; [done|].
  apply sublist_cons_r in HB2 as [HB2|(B2' & -> & HB2)].
  { exfalso. apply Hk1rest. by eapply elem_of_sublist. }
  apply elem_of_cons in Hk2 as [?|Hk2]; [done|].
  apply sublist_app_r in HB2 as (C1 & C2 & -> & HC1 & HC2).
  assert (k2 ∉ C1) as Hk2C1.
  { intros Hin. apply (Hl2 k2); [by eapply elem_of_sublist|left]. }
  apply elem_of_app in Hk2 as [?|Hk2]; [done|].
  apply sublist_cons_r in HC2 as [HC2|(C2' & -> & HC2)].
  { exfalso. apply Hk2rest. by eapply elem_of_sublist. }
  by exists B1, C1, C2'.
Qed.

Lemma named_in_order_one l k l' s :
  named_in_order (l ++ k :: l') s →
  ∃ pre post, s = pre ++ k ++ "=" ++ post.
Proof.
  revert s. induction l as [|k0 l IH]; intros s.
  - intros (pre & post & -> & _). by exists pre, post.
  - intros (pre & post & -> & Hrest).
    destruct (IH _ Hrest) as (pre' & post' & ->).
    exists (pre ++ k0 ++ "=" ++ pre'), post'. by rewrite <- !app_assoc.
Qed.

Lemma named_in_order_two l1 k1 l2 k2 l3 s :
  named_in_order (l1 ++ k1 :: l2 ++ k2 :: l3) s →
  ∃ pre mid post, s = pre ++ k1 ++ "=" ++ mid ++ k2 ++ "=" ++ post.
Proof.
  revert s. induction l1 as [|k0 l1 IH]; intros s.
  - intros (pre & post & -> & Hrest).
    destruct (named_in_order_one _ _ _ _ Hrest) as (mid & post' & ->).
    by exists pre, mid, post'.
  - intros (pre & post & -> & Hrest).
    destruct (IH _ Hrest) as (pre' & mid & post' & ->).
    exists (pre ++ k0 ++ "=" ++ pre'), mid, post'. by rewrite <- !app_assoc.
Qed.

(** What a scan takes: keys of the schema in their order, found one
    after another in what the scan had left of the text. *)
Lemma arg_scan_order keys st :
  NoDup (taken_keys st ++ keys) →
  ∃ found,
    taken_keys (foldl (arg_scan_step literal_eval) st keys)
      = taken_keys st ++ found
    ∧ sublist found keys
    ∧ named_in_order found (scan_args st).
Proof.
  revert st. induction keys as [|key keys IH]; intros st Hnd; cbn [foldl].
  - exists []. by rewrite app_nil_r.
  - destruct (find (key ++ "=") (scan_args st)) as [i|] eqn:Hfind.
    + assert (arg_scan_step literal_eval st key
              = {| scan_args := drop (i + length (key ++ "=")) (scan_args st);
                   extracted_args :=
                     match key_and_prev_idx st with
                     | Some (tool_key, prev_idx) =>
                         dict_set (extracted_args st) tool_key
                           (_ast_parse literal_eval
                              (rstrip_char ","
                                 (strip (slice prev_idx i (scan_args st)))))
                     | None => extracted_args st
                     end;
                   key_and_prev_idx := Some (key, 0) |}) as Hstep
        by (unfold arg_scan_step; by rewrite Hfind).
      assert (taken_keys (arg_scan_step literal_eval st key)
              = taken_keys st ++ [key]) as Htaken.
      { rewrite Hstep. unfold taken_keys.
        cbn [extracted_args key_and_prev_idx].
        destruct (key_and_prev_idx st) as [[tk p]|] eqn:Hkp.
        - rewrite dict_set_keys, decide_False; [done|].
          intros Hin. unfold taken_keys in Hnd. rewrite Hkp in Hnd.
          apply NoDup_app in Hnd as [Hnd _].
          apply NoDup_app in Hnd as (_ & Hnd & _).
          apply (Hnd tk Hin). left.
        - by rewrite app_nil_r. }
      destruct (IH (arg_scan_step literal_eval st key)) as
        (found & Hfound & Hsub & Hnamed).
      { rewrite Htaken, <- app_assoc. done. }
      exists (key :: found). split_and!.
      * rewrite Hfound, Htaken, <- app_assoc. done.
      * by apply sublist_skip.
      * cbn [named_in_order].
        exists (take i (scan_args st)),
               (drop (i + length (key ++ "=")) (scan_args st)).
        split.
        -- rewrite (assoc (++) key "="). by apply find_Some_drop.
        -- by rewrite Hstep in Hnamed.
    + assert (arg_scan_step literal_eval st key = st) as Hstep
        by (unfold arg_scan_step; by rewrite Hfind).
      rewrite Hstep. destruct (IH st) as (found & Hfound & Hsub & Hnamed).
      { apply NoDup_app in Hnd as (Hnd1 & Hdisj & Hnd2).
        apply NoDup_app. split_and!; [done| |by apply NoDup_cons in Hnd2 as [_ ?]].
        intros x Hx Hin. apply (Hdisj x Hx). by right. }
      exists found. split_and!; [done|by apply sublist_cons|done].
Qed.

(** X24. The keys [_parse_llm_compiler_action_args] binds are read from the
    text in the order of the schema: every key is looked for in what
    follows the key found before it. So the keys bound occur in the
    text, each followed by an equal sign, one after another in the order
    of the schema, and of two arguments written in the other order only
    one is bound. *)
Theorem named_arguments_are_read_in_schema_order
    (arg_text : text) (tl : BaseTool) :
  NoDup (arg_keys tl) →
  sublist
    (_parse_llm_compiler_action_args literal_eval arg_text (ToolObj tl)).*1
    (arg_keys tl)
  ∧ named_in_order
      (_parse_llm_compiler_action_args literal_eval arg_text (ToolObj tl)).*1
      arg_text
  ∧ (∀ k1 k2 l1 l2 l3,
       (_parse_llm_compiler_action_args literal_eval arg_text (ToolObj tl)).*1
         = l1 ++ k1 :: l2 ++ k2 :: l3 →
       ∃ pre mid post,
         arg_text = pre ++ k1 ++ "=" ++ mid ++ k2 ++ "=" ++ post)
  ∧ (∀ k1 k2 l1 l2 l3,
       arg_keys tl = l1 ++ k1 :: l2 ++ k2 :: l3 →
       (∀ pre mid post,
          arg_text ≠ pre ++ k1 ++ "=" ++ mid ++ k2 ++ "=" ++ post) →
       ¬ (k1 ∈ (_parse_llm_compiler_action_args literal_eval arg_text
                  (ToolObj tl)).*1
          ∧ k2 ∈ (_parse_llm_compiler_action_args literal_eval arg_text
                    (ToolObj tl)).*1)).
Proof.
  intros Hnd.
  assert (sublist
            (_parse_llm_compiler_action_args literal_eval arg_text
               (ToolObj tl)).*1 (arg_keys tl)
          ∧ named_in_order
              (_parse_llm_compiler_action_args literal_eval arg_text
                 (ToolObj tl)).*1 arg_text) as [Hsub Hnamed].
  { unfold _parse_llm_compiler_action_args.
    destruct arg_text as [|c arg_text]; [split; [apply sublist_nil_l|done]|].
    destruct (arg_scan_order (arg_keys tl)
                {| scan_args := c :: arg_text; extracted_args := [];
                   key_and_prev_idx := None |})
      as (found & Hfound & Hsub & Hnamed); [done|].
    cbn [scan_args] in Hnamed.
    unfold taken_keys at 2 in Hfound.
    cbn [extracted_args key_and_prev_idx fmap list_fmap app] in Hfound.
    assert (NoDup found) as Hndf by (by eapply sublist_NoDup).
    set (st := foldl (arg_scan_step literal_eval) _ (arg_keys tl)) in *.
    unfold taken_keys in Hfound.
    destruct (key_and_prev_idx st) as [[tk p]|].
    - rewrite dict_set_keys, decide_False, Hfound; [done|].
      rewrite <- Hfound in Hndf. apply NoDup_app in Hndf as (_ & Hdisj & _).
      intros Hin. apply (Hdisj tk Hin). left.
    - rewrite app_nil_r in Hfound. by rewrite Hfound. }
  split_and!; [done|done| |].
  - intros k1 k2 l1 l2 l3 Hbound. rewrite Hbound in Hnamed.
    by eapply named_in_order_two.
  - intros k1 k2 l1 l2 l3 Hkeys Hno [Hk1 Hk2].
    destruct (sublist_order _ _ _ _ _ _ _ Hnd Hsub Hkeys Hk1 Hk2)
      as (b1 & b2 & b3 & Hbound).
    rewrite Hbound in Hnamed.
    destruct (named_in_order_two _ _ _ _ _ _ Hnamed)
      as (pre & mid & post & Heq).
    by apply (Hno pre mid post).
Qed.

End ArgumentOrder.

(** ** The theorems at work on concrete plans *)

Section Instances.

Import Re OutputParser TaskFetching.

Lemma waiting_plan_new_ids :
  ∀ t, t ∈ waiting_plan → idx t ∉ dom (_get_observations []).
Proof. intros t _. apply not_elem_of_empty. Qed.

Lemma join_task_is_instantiated :
  instantiate_task (λ _, None) [search_tool] 3 "join" "ignored" None
    = Ok (join_task 3).
Proof. reflexivity. Qed.

Lemma waiting_run :
  schedule_tasks_run [] waiting_plan None waiting_schedule
    = Some (waiting_events, waiting_final).
Proof. reflexivity. Qed.


Lemma execution_waits_for_dependencies_witness :
  schedule_tasks_run [] waiting_plan None waiting_schedule
    = Some (waiting_events, waiting_final)
  ∧ ∀ t tbl d,
      Began t tbl ∈ waiting_events → d ∈ dependencies t → d ∈ dom tbl.
Proof.
  split; [exact waiting_run|].
  exact (proj1 (execution_waits_for_dependencies
                  [] waiting_plan None waiting_schedule waiting_events
                  waiting_final waiting_run)).
Defined.



Lemma failing_run :
  schedule_tasks_run [] failing_plan None failing_schedule
    = Some (failing_events, failing_final).
Proof. reflexivity. Qed.

Lemma failing_plan_distinct : NoDup (idx <$> failing_plan).
Proof.
  apply NoDup_cons. split; [|apply NoDup_cons; split; [|apply NoDup_singleton]].
  - intros [[=]|[=]%list_elem_of_singleton]%elem_of_cons.
  - by intros [=]%list_elem_of_singleton.
Qed.

Lemma failing_plan_well_founded :
  plan_well_founded (_get_observations []) failing_plan.
Proof.
  intros t d Ht Hd. right.
  apply elem_of_cons in Ht as [->|Ht].
  - apply list_elem_of_singleton in Hd as ->.
    exists (broken_task 1). split_and!; [|done..]. right. left.
  - apply elem_of_cons in Ht as [->|Ht]; [by apply elem_of_nil in Hd|].
    apply list_elem_of_singleton in Ht as ->. by apply elem_of_nil in Hd.
Qed.






End Instances.

Section MoreInstances.

Import Re OutputParser TaskFetching LLMCompiler.

Lemma waiting_plan_distinct : NoDup (idx <$> waiting_plan).
Proof.
  apply NoDup_cons. split; [|apply NoDup_singleton].
  by intros [=]%list_elem_of_singleton.
Qed.

Lemma waiting_plan_instantiated :
  instantiate_task (λ _, None) [search_tool] 2 "search" "query=$1" None
    = Ok (search_task 2 "$1" [1%Z])
  ∧ instantiate_task (λ _, None) [search_tool] 1 "join" "" None
    = Ok (join_task 1).
Proof. split; reflexivity. Qed.

Lemma waiting_plan_framed :
  ∀ t, t ∈ waiting_plan → depends_only_on_dependencies t.
Proof.
  destruct waiting_plan_instantiated as [H2 H1].
  intros t [->|[->|[]%elem_of_nil]%elem_of_cons]%elem_of_cons.
  - exact (instantiate_task_frame _ _ _ _ _ _ _ H2).
  - exact (instantiate_task_frame _ _ _ _ _ _ _ H1).
Qed.

Lemma other_run :
  schedule_tasks_run [] waiting_plan None other_schedule
    = Some (waiting_events, waiting_final).
Proof. reflexivity. Qed.

Lemma raising_run :
  schedule_tasks_run [] waiting_plan (Some unknown_tool_error)
    waiting_schedule
    = Some (waiting_events, raising_final).
Proof. reflexivity. Qed.

Lemma stuck_run :
  schedule_tasks_run [] stuck_plan None stuck_schedule = Some ([], stuck_final).
Proof. reflexivity. Qed.

Lemma skipping_run :
  schedule_tasks_run [] skipping_plan None skipping_schedule
    = Some (skipping_events, skipping_final).
Proof. reflexivity. Qed.

Lemma waiting_text_parsed :
  _transform (λ _, None) [search_tool] (InStr waiting_text)
    = {| items := waiting_plan; raised := None |}.
Proof. reflexivity. Qed.

Lemma waiting_history_planned :
  planned_tasks (λ _, None) [search_tool] waiting_history
    = Ok (waiting_plan, None).
Proof. reflexivity. Qed.

Lemma waiting_history_run schedule :
  schedule_tasks_run [] waiting_plan None schedule
    = Some (waiting_events, waiting_final) →
  plan_and_schedule (λ _, None) [search_tool] waiting_history schedule
    = Ok (Some (waiting_events, waiting_final)).
Proof.
  intros Hrun. unfold plan_and_schedule.
  rewrite waiting_history_planned. f_equal. exact Hrun.
Qed.

Lemma every_task_is_executed_once_witness :
  schedule_tasks_run [] waiting_plan None waiting_schedule
    = Some (waiting_events, waiting_final)
  ∧ began waiting_events ⊆+ waiting_plan
  ∧ written waiting_events ⊆+ began waiting_events
  ∧ began waiting_events ≡ₚ waiting_plan.
Proof.
  destruct (every_task_is_executed_once
              [] waiting_plan None waiting_schedule waiting_events
              waiting_final waiting_run) as (Hsub & Hw & Hover).
  split_and!; [exact waiting_run|exact Hsub|exact Hw|].
  exact (proj1 (Hover I)).
Defined.

Lemma blocked_tasks_never_run_witness :
  schedule_tasks_run [] stuck_plan None stuck_schedule
    = Some ([], stuck_final)
  ∧ (∃ d, d ∈ dependencies (search_task 1 "$1" [1%Z])
          ∧ observations stuck_final !! d = None)
  ∧ ¬ pass_over stuck_final.
Proof.
  assert (∀ t, True → t ∈ stuck_plan →
               ∃ d, d ∈ dependencies t
                    ∧ (d ∉ dom (_get_observations []))
                    ∧ ∀ t', t' ∈ stuck_plan → idx t' = d → True) as Hwaits.
  { intros t _ ->%list_elem_of_singleton. exists 1%Z.
    split_and!; [left|apply not_elem_of_empty|done]. }
  destruct (blocked_tasks_never_run
              [] stuck_plan None (λ _, True) stuck_schedule []
              stuck_final Hwaits stuck_run) as (_ & Hdep & Hover).
  split_and!; [exact stuck_run| |].
  - apply (Hdep _ I). left.
  - apply Hover. exists (search_task 1 "$1" [1%Z]). split; [exact I|left].
Defined.

Lemma join_waits_forever_for_a_skipped_id_witness :
  schedule_tasks_run [] skipping_plan None skipping_schedule
    = Some (skipping_events, skipping_final)
  ∧ 2%Z ∈ dependencies (join_task 3)
  ∧ (∀ tbl, Began (join_task 3) tbl ∉ skipping_events)
  ∧ observations skipping_final !! 2%Z = None
  ∧ ¬ pass_over skipping_final.
Proof.
  split; [exact skipping_run|].
  apply (join_waits_forever_for_a_skipped_id
           (λ _, None) [search_tool] [] skipping_plan None 3 2 "" None
           (join_task 3) skipping_schedule skipping_events skipping_final).
  - reflexivity.
  - right. left.
  - lia.
  - apply not_elem_of_empty.
  - intros t' [->|[->|[]%elem_of_nil]%elem_of_cons]%elem_of_cons; done.
  - exact skipping_run.
Defined.


Lemma parsed_task_depends_only_on_dependencies_witness :
  instantiate_task (λ _, None) [search_tool] 2 "search" "query=$1" None
    = Ok (search_task 2 "$1" [1%Z])
  ∧ _execute_task (search_task 2 "$1" [1%Z]) {[1%Z := VStr "a"]}
    = _execute_task (search_task 2 "$1" [1%Z])
        (<[5%Z := VStr "b"]> {[1%Z := VStr "a"]}).
Proof.
  split; [exact (proj1 waiting_plan_instantiated)|].
  apply (parsed_task_depends_only_on_dependencies
           (λ _, None) [search_tool] 2 "search" "query=$1" None
           (search_task 2 "$1" [1%Z]) {[1%Z := VStr "a"]}
           (<[5%Z := VStr "b"]> {[1%Z := VStr "a"]})
           (proj1 waiting_plan_instantiated)).
  intros d ->%list_elem_of_singleton. reflexivity.
Defined.

Lemma returned_records_do_not_depend_on_schedule_witness :
  schedule_tasks_run [] waiting_plan None waiting_schedule
    = Some (waiting_events, waiting_final)
  ∧ schedule_tasks_run [] waiting_plan None other_schedule
    = Some (waiting_events, waiting_final)
  ∧ waiting_schedule ≠ other_schedule
  ∧ observations waiting_final ⊆ observations waiting_final.
Proof.
  split_and!; [exact waiting_run|exact other_run|done|].
  exact (proj1 (returned_records_do_not_depend_on_schedule
                  [] waiting_plan waiting_schedule other_schedule
                  waiting_events waiting_events waiting_final waiting_final
                  waiting_records waiting_plan_distinct waiting_plan_new_ids
                  waiting_plan_framed waiting_run other_run eq_refl)).
Defined.

Lemma returned_records_seed_the_next_pass_witness :
  schedule_tasks_run [] waiting_plan None waiting_schedule
    = Some (waiting_events, waiting_final)
  ∧ main waiting_final = MReturned waiting_records
  ∧ dom (_get_observations ([] ++ (Function <$> waiting_records)))
    = dom (observations waiting_final).
Proof.
  split_and!; [exact waiting_run|reflexivity|].
  exact (proj2 (proj2 (returned_records_seed_the_next_pass
                         [] waiting_plan None waiting_schedule waiting_events
                         waiting_final waiting_records waiting_run eq_refl))).
Defined.



Lemma parser_emits_wellformed_tasks_witness :
  search_task 2 "$1" [1%Z]
    ∈ items (_transform (λ _, None) [search_tool] (InStr waiting_text))
  ∧ (0 ≤ idx (search_task 2 "$1" [1%Z]))%Z
  ∧ StronglySorted Z.lt (dependencies (search_task 2 "$1" [1%Z])).
Proof.
  assert (search_task 2 "$1" [1%Z]
            ∈ items (_transform (λ _, None) [search_tool] (InStr waiting_text)))
    as Hin by (rewrite waiting_text_parsed; left).
  destruct (parser_emits_wellformed_tasks
              (λ _, None) [search_tool] (InStr waiting_text)
              (search_task 2 "$1" [1%Z]) Hin) as (Hidx & Hsorted & _).
  split_and!; [exact Hin|exact Hidx|exact Hsorted].
Defined.

Lemma fragmentation_changes_only_thoughts_witness :
  mjoin ["2. search(que"; "ry=$1)" ++ NL ++ "1. jo"; "in()" ++ NL]
    = mjoin [waiting_text]
  ∧ map no_thought
      (items (_transform (λ _, None) [search_tool]
                (InList ["2. search(que"; "ry=$1)" ++ NL ++ "1. jo";
                         "in()" ++ NL])))
    = map no_thought
        (items (_transform (λ _, None) [search_tool] (InList [waiting_text]))).
Proof.
  assert (mjoin ["2. search(que"; "ry=$1)" ++ NL ++ "1. jo"; "in()" ++ NL]
          = mjoin [waiting_text]) as Hjoin by reflexivity.
  split; [exact Hjoin|].
  exact (proj1 (fragmentation_changes_only_thoughts
                  (λ _, None) [search_tool] _ _ Hjoin)).
Defined.

Lemma text_after_last_parenthesis_is_ignored_witness :
  match_action "3. join()" = Some ("3", "join", "")
  ∧ match_action ("3. join()" ++ " # all done") = Some ("3", "join", "").
Proof.
  assert (match_action "3. join()" = Some ("3", "join", "")) as Hm
    by reflexivity.
  split; [exact Hm|].
  apply (text_after_last_parenthesis_is_ignored
           (λ _, None) [] "3. join()" " # all done" "3" "join" "" Hm).
  compute_done.
Defined.

Lemma plan_without_actions_schedules_nothing_witness :
  split_nl (mjoin (content <$> question_history)) = ["Plan a trip to Rome"]
  ∧ planned_tasks (λ _, None) [search_tool] question_history = Ok ([], None).
Proof.
  assert (split_nl (mjoin (content <$> question_history))
          = ["Plan a trip to Rome"]) as Hlines by reflexivity.
  split; [exact Hlines|].
  apply (plan_without_actions_schedules_nothing
           (λ _, None) [search_tool] question_history).
  rewrite Hlines. intros line ->%list_elem_of_singleton. reflexivity.
Defined.


Lemma plan_and_schedule_result_is_schedule_independent_witness :
  planned_tasks (λ _, None) [search_tool] waiting_history
    = Ok (waiting_plan, None)
  ∧ plan_and_schedule (λ _, None) [search_tool] waiting_history
      waiting_schedule
    = Ok (Some (waiting_events, waiting_final))
  ∧ plan_and_schedule (λ _, None) [search_tool] waiting_history
      other_schedule
    = Ok (Some (waiting_events, waiting_final))
  ∧ waiting_records = waiting_records.
Proof.
  split_and!; [exact waiting_history_planned
              |exact (waiting_history_run _ waiting_run)
              |exact (waiting_history_run _ other_run)|].
  refine (proj1 (plan_and_schedule_result_is_schedule_independent
                   (λ _, None) [search_tool] waiting_history waiting_plan
                   waiting_schedule other_schedule
                   waiting_events waiting_events waiting_final waiting_final
                   waiting_records waiting_records
                   waiting_history_planned waiting_plan_distinct _
                   (waiting_history_run _ waiting_run) eq_refl
                   (waiting_history_run _ other_run) eq_refl)).
  intros t _. apply not_elem_of_empty.
Defined.

Lemma replanned_run :
  plan_and_schedule (λ _, None) [search_tool] replanned_history
    (replicate 8 Main)
    = Ok (Some (replanned_events, replanned_final)).
Proof. reflexivity. Qed.

Lemma replanning_reports_no_id_twice_witness :
  plan_and_schedule (λ _, None) [search_tool] waiting_history
    waiting_schedule
    = Ok (Some (waiting_events, waiting_final))
  ∧ plan_and_schedule (λ _, None) [search_tool] replanned_history
      (replicate 8 Main)
    = Ok (Some (replanned_events, replanned_final))
  ∧ originals replanned_final = dom (observations waiting_final)
  ∧ began replanned_events ≡ₚ waiting_plan
  ∧ main replanned_final = MReturned [].
Proof.
  destruct (replanning_reports_no_id_twice
              (λ _, None) [search_tool] waiting_history retry_decision
              waiting_schedule (replicate 8 Main)
              waiting_events replanned_events waiting_final replanned_final
              waiting_records []
              (waiting_history_run _ waiting_run) eq_refl
              replanned_run eq_refl)
    as (Horig & _ & _ & tasks2 & raises2 & Hplan & Hbegan & _).
  split_and!; [exact (waiting_history_run _ waiting_run)|exact replanned_run
              |exact Horig| |reflexivity].
  assert (planned_tasks (λ _, None) [search_tool] replanned_history
          = Ok (waiting_plan, None)) as Hplanned
    by reflexivity.
  change (planned_tasks (λ _, None) [search_tool] replanned_history
          = Ok (tasks2, raises2)) in Hplan.
  rewrite Hplanned in Hplan. injection Hplan as <- <-. exact Hbegan.
Defined.


Lemma streamed_tasks_carry_no_thought_witness :
  items (_transform (λ _, None) [search_tool] (InList streamed_plan))
    = [join_task 1]
  ∧ Forall (λ t, thought t = None)
           (items (_transform (λ _, None) [search_tool]
                     (InList streamed_plan))).
Proof.
  split; [reflexivity|].
  apply Forall_forall. intros t Hin.
  apply (streamed_tasks_carry_no_thought
           (λ _, None) [search_tool] (InList streamed_plan) t); [|exact Hin].
  intros chunk [->|[->|[]%elem_of_nil]%elem_of_cons]%elem_of_cons;
    vm_compute; lia.
Defined.

Lemma unterminated_action_line_gets_no_thought_witness :
  split_nl (mjoin (input_chunks (InStr unterminated_plan)))
    = ["Thought: x"] ++ ["1. join()"]
  ∧ last (items (_transform (λ _, None) [search_tool]
                   (InStr unterminated_plan)))
    = Some (join_task 1)
  ∧ thought (join_task 1) = None.
Proof.
  split; [reflexivity|].
  apply (unterminated_action_line_gets_no_thought
           (λ _, None) [search_tool] (InStr unterminated_plan)
           ["Thought: x"] "1. join()" (join_task 1) None);
    reflexivity.
Defined.

Lemma thought_annotates_the_next_action_line_witness :
  ∃ t, instantiate_task (λ _, None) [search_tool] (int_of_digits "1")
         "join" "" (Some "x")
       = Ok t
       ∧ thought t = Some "x"
       ∧ t ∈ items (_transform (λ _, None) [search_tool]
                      (InStr ("" ++ "Thought: " ++ "x" ++ NL ++ "1. join()"
                                 ++ NL ++ ""))).
Proof.
  apply (thought_annotates_the_next_action_line
           (λ _, None) [search_tool] "" "x" "1. join()" "" "1" "join" "").
  - by left.
  - by compute_done.
  - by compute_done.
  - reflexivity.
  - reflexivity.
Defined.

Lemma named_arguments_are_read_in_schema_order_witness :
  NoDup (arg_keys route_tool)
  ∧ _parse_llm_compiler_action_args (λ _, None) "origin=a, destination=b"
      (ToolObj route_tool)
    = [("origin", VStr "a"); ("destination", VStr "b")]
  ∧ _parse_llm_compiler_action_args (λ _, None) "destination=b, origin=a"
      (ToolObj route_tool)
    = [("origin", VStr "a")]
  ∧ named_in_order ["origin"; "destination"] "origin=a, destination=b"
  ∧ named_in_order ["origin"] "destination=b, origin=a".
Proof.
  assert (NoDup (arg_keys route_tool)) as Hnd by (by compute_done).
  split_and!; [exact Hnd|reflexivity|reflexivity| |].
  - exact (proj1 (proj2 (named_arguments_are_read_in_schema_order
                           (λ _, None) "origin=a, destination=b"
                           route_tool Hnd))).
  - exact (proj1 (proj2 (named_arguments_are_read_in_schema_order
                           (λ _, None) "destination=b, origin=a"
                           route_tool Hnd))).
Defined.

End MoreInstances.
